(** * A shallow embedding of [stab_lasso.py] (fMRI-inference)

    Numbers: the code computes with float64 arrays; the embedding computes
    with exact rationals [Q], and with the small type [ext] where the code
    can meet the non-finite results of a division by zero.  Arrays are
    lists (vectors) and lists of rows (matrices).  [np.log] is kept as a
    parameter [np_log] of the sections that use it. *)

From Stdlib Require Import Arith QArith Qminmax Qround Qabs Lia List.
From Stdlib Require Import Sorting.Sorted Sorting.Permutation.
Import ListNotations.

(* ------------------------------------------------------------------ *)
(** ** Numeric helpers *)

(** A float64 as the threshold computations meet it: a finite value or
    the result of dividing by zero. *)
Inductive ext : Type :=
| Fin (x : Q)
| PosInf
| NegInf
| NaN.

Definition Qnat (n : nat) : Q := inject_Z (Z.of_nat n).

Definition Qpos_b (x : Q) : bool := negb (Qle_bool x 0).
Definition Qneg_b (x : Q) : bool := negb (Qle_bool 0 x).

(** [a / d] in IEEE arithmetic. *)
Definition ediv (a : ext) (d : Q) : ext :=
  match a with
  | Fin x =>
      if Qeq_bool d 0 then
        (if Qpos_b x then PosInf else if Qneg_b x then NegInf else NaN)
      else Fin (x / d)
  | PosInf => if Qneg_b d then NegInf else PosInf
  | NegInf => if Qneg_b d then PosInf else NegInf
  | NaN => NaN
  end.

(** [v <= t] and [v > t] for a finite [v]; every comparison with NaN is
    false. *)
Definition ele (v : Q) (t : ext) : bool :=
  match t with
  | Fin x => Qle_bool v x
  | PosInf => true
  | NegInf => false
  | NaN => false
  end.

Definition egt (v : Q) (t : ext) : bool :=
  match t with
  | Fin x => negb (Qle_bool v x)
  | PosInf => false
  | NegInf => true
  | NaN => false
  end.

(** [np.clip(x, 0., 1.)]: [minimum(maximum(x, 0), 1)]. *)
Definition clip01 (x : Q) : Q := Qmin (Qmax x 0) 1.

(** [np.arange(a, b)] as floats. *)
Definition arange (a b : nat) : list Q := map Qnat (seq a (b - a)%nat).

Fixpoint zip_with {A B C} (f : A -> B -> C) (l1 : list A) (l2 : list B)
  : list C :=
  match l1, l2 with
  | x :: l1', y :: l2' => f x y :: zip_with f l1' l2'
  | _, _ => []
  end.

(** Python's [l[i] = v] for an index in range. *)
Fixpoint set_nth {A} (l : list A) (i : nat) (v : A) : list A :=
  match l, i with
  | [], _ => []
  | _ :: l', O => v :: l'
  | x :: l', S i' => x :: set_nth l' i' v
  end.

(** [np.where(mask)[0]]: the indices where [f] holds. *)
Definition where_ {A} (f : A -> bool) (l : list A) (d : A) : list nat :=
  filter (fun k => f (nth k l d)) (seq 0 (length l)).

(** [a[-1]] on a list of indices, [None] for the IndexError of an empty one. *)
Definition last_opt (l : list nat) : option nat :=
  match rev l with
  | [] => None
  | h :: _ => Some h
  end.

(* ------------------------------------------------------------------ *)
(** ** Sorting: [np.sort] and [np.argsort] *)

(** Insertion of a value into an ascending list, before the first larger
    or equal element. *)
Fixpoint insert_sorted (x : Q) (l : list Q) : list Q :=
  match l with
  | [] => [x]
  | y :: l' => if Qle_bool x y then x :: l else y :: insert_sorted x l'
  end.

(** [np.sort] of a vector: its values in ascending order. *)
Definition np_sort (l : list Q) : list Q := fold_right insert_sorted [] l.

(** The number of entries [<= t] of a vector. *)
Definition count_le (t : Q) (l : list Q) : nat :=
  length (filter (fun v => Qle_bool v t) l).

Fixpoint insert_index (key : nat -> Q) (i : nat) (l : list nat) : list nat :=
  match l with
  | [] => [i]
  | j :: l' =>
      if Qle_bool (key i) (key j) then i :: l else j :: insert_index key i l'
  end.

(** [np.argsort] of a vector: the indices ordered by their values (ties
    in index order). *)
Definition argsort (l : list Q) : list nat :=
  fold_right (insert_index (fun i => nth i l 0)) [] (seq 0 (length l)).

(* ------------------------------------------------------------------ *)
(** ** FDR selection *)

Section FDR.

(** [np.log]. *)
Variable np_log : Q -> Q.

(** [select_model_fdr(pvalues, q, independent, normalize)], for a Python
    float [q]; [None] is the IndexError of [np.where(...)[0][-1]] on an
    empty index array, or the ZeroDivisionError of [q / p] with [p = 0]
    when [q] is still that float ([independent=True]; after
    [q / np.log(p)] it is a numpy float, divided in IEEE arithmetic). *)
Definition select_model_fdr (pvalues : list Q) (q : Q)
    (independent normalize : bool) : option (list bool) :=
  let p := length pvalues in
  let pvalues_sorted := zip_with Qdiv (np_sort pvalues) (arange 1 (p + 1)%nat) in
  let q := if independent then Fin q else ediv (Fin q) (np_log (Qnat p)) in
  let q := if normalize then
             (if independent && (p =? 0)%nat then None else Some (ediv q (Qnat p)))
           else Some q in
  match q with
  | None => None
  | Some q =>
  let bound :=
    if forallb (fun v => egt v q) pvalues_sorted then Some 0
    else
      match last_opt (where_ (fun v => ele v q) pvalues_sorted 0) with
      | None => None
      | Some h => Some (nth h pvalues_sorted 0 * Qnat (h + 1)%nat)
      end in
  match bound with
  | None => None
  | Some bound => Some (map (fun v => Qle_bool v bound) pvalues)
  end
  end.

(** The loop [for i in range(p - 1, 0, -1):
    bounds_sorted[i - 1] = min(bounds_sorted[i - 1], bounds_sorted[i])],
    run with the counter [i] from [p - 1] down to [1]. *)
Fixpoint running_min (i : nat) (b : list Q) : list Q :=
  match i with
  | O => b
  | S i' => running_min i' (set_nth b i' (Qmin (nth i' b 0) (nth (S i') b 0)))
  end.

(** The suffix minima of a list: what [running_min] computes (lemma
    [running_min_sufmin]). *)
Fixpoint sufmin (l : list Q) : list Q :=
  match l with
  | [] => []
  | x :: r =>
      match sufmin r with
      | [] => [x]
      | y :: _ => Qmin x y :: sufmin r
      end
  end.

(** [bounds[idx] = vals] for an index array [idx]. *)
Definition scatter (idx : list nat) (vals : list Q) (base : list Q) : list Q :=
  fold_left (fun acc iv => set_nth acc (fst iv) (snd iv)) (combine idx vals) base.

(** [select_model_fdr_bounds(pvalues, independent, normalize)] up to its
    last line: the bounds before [np.clip]. *)
Definition select_model_fdr_bounds_unclipped (pvalues : list Q)
    (independent normalize : bool) : list Q :=
  let p := length pvalues in
  let pvalues_argsort := argsort pvalues in
  let pvalues_sorted := map (fun i => nth i pvalues 0) pvalues_argsort in
  let pvalues_sorted := zip_with Qdiv pvalues_sorted (arange 1 (p + 1)%nat) in
  let bounds_sorted := running_min (p - 1)%nat pvalues_sorted in
  let bounds := scatter pvalues_argsort bounds_sorted (repeat 0 p) in
  let bounds := if normalize then map (fun b => b * Qnat p) bounds else bounds in
  let bounds := if independent then bounds
                 else map (fun b => b * np_log (Qnat p)) bounds in
  bounds.

(** [select_model_fdr_bounds(pvalues, independent, normalize)]:
    [np.clip(bounds, 0., 1.)]. *)
Definition select_model_fdr_bounds (pvalues : list Q)
    (independent normalize : bool) : list Q :=
  map clip01 (select_model_fdr_bounds_unclipped pvalues independent normalize).

(** The level [q] as [select_model_fdr] adjusts it (its lines 252-255). *)
Definition fdr_level (p : nat) (q : Q) (independent normalize : bool) : ext :=
  let q := if independent then Fin q else ediv (Fin q) (np_log (Qnat p)) in
  if normalize then ediv q (Qnat p) else q.

(** The rescaling of a bound by [select_model_fdr_bounds] (its lines
    287-290). *)
Definition bound_scale (p : nat) (independent normalize : bool) (b : Q) : Q :=
  let b := if normalize then b * Qnat p else b in
  if independent then b else b * np_log (Qnat p).

End FDR.

(** [select_model_fwer_bounds(pvalues)]: [np.clip(pvalues * p, 0., 1.)]. *)
Definition select_model_fwer_bounds (pvalues : list Q) : list Q :=
  let p := length pvalues in
  map (fun v => clip01 (v * Qnat p)) pvalues.

(** [StabilityLasso.select_model_fwer(alpha)] on the stored
    [_pvalues_aggregated]: [_pvalues_aggregated < (alpha / p)]; [None] is
    the ZeroDivisionError of the float [alpha] divided by the int [p = 0]. *)
Definition select_model_fwer (pvalues_aggregated : list Q) (alpha : Q)
  : option (list bool) :=
  let p := length pvalues_aggregated in
  if (p =? 0)%nat then None
  else Some (map (fun v => negb (Qle_bool (alpha / Qnat p) v)) pvalues_aggregated).

(* ------------------------------------------------------------------ *)
(** ** Aggregation over the splits *)

(** A matrix is the list of its rows; the number of columns is read off
    the first row, as [shape] does for a 2-d array. *)
Definition ncols (M : list (list Q)) : nat :=
  match M with
  | [] => O
  | r :: _ => length r
  end.

(** [M[:, j]]. *)
Definition column (M : list (list Q)) (j : nat) : list Q :=
  map (fun row => nth j row 0) M.

(** Python's [int(x)] on a float: truncation towards zero. *)
Definition py_int (x : Q) : Z :=
  if Qle_bool 0 x then Qfloor x else (- Qfloor (- x))%Z.

(** [kmin = max(1, int(gamma_min * n_split))]. *)
Definition kmin_of (gamma_min : Q) (n_split : nat) : nat :=
  Nat.max 1 (Z.to_nat (py_int (gamma_min * Qnat n_split))).

(** [gamma_array = 1. / n_split * (np.arange(kmin + 1, n_split + 1))]. *)
Definition gamma_array (n_split kmin : nat) : list Q :=
  map (fun r => 1 / Qnat n_split * r) (arange (kmin + 1) (n_split + 1)).

(** Column [j] of [np.sort(M, axis=0)[kmin:] / gamma_array[:, np.newaxis]]
    (every step of it works column by column). *)
Definition sorted_quotients (gamma_min : Q) (M : list (list Q)) (j : nat)
  : list Q :=
  let n_split := length M in
  let kmin := kmin_of gamma_min n_split in
  zip_with Qdiv (skipn kmin (np_sort (column M j))) (gamma_array n_split kmin).

(** The minimum of a nonempty vector. *)
Definition col_min (l : list Q) : Q :=
  match l with
  | [] => 0
  | x :: l' => fold_left Qmin l' x
  end.

Section Aggregation.

Variable np_log : Q -> Q.

(** [pvalues_aggregation(pvalues, gamma_min)]; [None] is the ValueError
    of [min(axis=0)] on an array with no rows left after [[kmin:]]. *)
Definition pvalues_aggregation (gamma_min : Q) (pvalues : list (list Q))
  : option (list Q) :=
  let n_split := length pvalues in
  let kmin := kmin_of gamma_min n_split in
  if (n_split <=? kmin)%nat then None
  else
    Some (map (fun j =>
                 let q := col_min (sorted_quotients gamma_min pvalues j) in
                 let q := q * (1 - np_log gamma_min) in
                 clip01 q)
              (seq 0 (ncols pvalues))).

End Aggregation.

(** [scores_aggregation(scores, gamma_min)]; [None] is the IndexError of
    [scores_sorted[0]] on an array with no rows left. *)
Definition scores_aggregation (gamma_min : Q) (scores : list (list Q))
  : option (list Q) :=
  let n_split := length scores in
  let kmin := kmin_of gamma_min n_split in
  if (n_split <=? kmin)%nat then None
  else Some (map (fun j => nth 0 (sorted_quotients gamma_min scores j) 0)
                 (seq 0 (ncols scores))).

(** The aggregation as the specification describes it, with the final
    multiplier [factor] left open: per column, sort ascending, drop the
    [kmin = max(1, floor(gamma_min * n_split))] smallest values, divide
    the value of rank [r] ([kmin + 1 <= r <= n_split]) by [r / n_split],
    take the minimum, multiply by [factor] and clip to [0,1]. *)
Definition aggregation_formula (factor gamma_min : Q) (M : list (list Q))
  : list Q :=
  let n := length M in
  let kmin := Nat.max 1 (Z.to_nat (Qfloor (gamma_min * Qnat n))) in
  map (fun j =>
         let srt := np_sort (column M j) in
         let quots := map (fun r => nth (r - 1) srt 0 / (Qnat r / Qnat n))
                          (seq (kmin + 1) (n - kmin)) in
         clip01 (col_min quots * factor))
      (seq 0 (ncols M)).

(** Two results of an aggregation related entrywise by [R], both failing
    alike otherwise. *)
Definition option_Forall2 (R : Q -> Q -> Prop) (a b : option (list Q)) : Prop :=
  match a, b with
  | Some u, Some v => Forall2 R u v
  | None, None => True
  | _, _ => False
  end.

(* ------------------------------------------------------------------ *)
(** ** Matrices and [pp_inv] *)

(** [u . v]. *)
Definition dot (u v : list Q) : Q := fold_right Qplus 0 (zip_with Qmult u v).

(** [A.dot(v)] for a matrix [A] and a vector [v]. *)
Definition matvec (A : list (list Q)) (v : list Q) : list Q :=
  map (fun row => dot row v) A.

(** [A * B], the product of two matrices. *)
Definition matmul (A B : list (list Q)) : list (list Q) :=
  map (fun row => map (fun j => dot row (column B j)) (seq 0 (ncols B))) A.

(** [M.T] for a matrix [M] with [p] columns. *)
Definition transpose (M : list (list Q)) (p : nat) : list (list Q) :=
  map (column M) (seq 0 p).

(** [len(np.unique(clust))]. *)
Definition n_unique (clust : list nat) : nat := length (nodup Nat.eq_dec clust).

(** [coo_matrix((np.ones(p), (clust, np.arange(p))), shape=(n_labels, p))],
    dense: entry [(c, i)] is [1] when [clust[i] = c] (the positions
    [(clust[i], i)] are all distinct, so no entries are summed); [None] is
    the ValueError of a row index outside the shape. *)
Definition parcellation_masks (clust : list nat) (n_labels : nat)
  : option (list (list Q)) :=
  if forallb (fun c => c <? n_labels)%nat clust then
    Some (map (fun c => map (fun l => if (l =? c)%nat then 1 else 0) clust)
              (seq 0 n_labels))
  else None.

(** [M.sum(0)] for a matrix with [p] columns: the column sums. *)
Definition sum_axis0 (M : list (list Q)) (p : nat) : list Q :=
  map (fun i => fold_right Qplus 0 (column M i)) (seq 0 p).

(** [dia_matrix((data, 0), shape=(m, m))], dense: the diagonal entry
    [(c, c)] is [data[c]] for [c < len(data)]. *)
Definition dia_matrix (data : list Q) (m : nat) : list (list Q) :=
  map (fun r => map (fun c => if ((r =? c) && (c <? length data))%nat
                              then nth c data 0 else 0)
                    (seq 0 m))
      (seq 0 m).

(** [pp_inv(clust)]: the pair [(P, P_inv)].  ([1. / s] is only met with
    column sums [s = 1].) *)
Definition pp_inv (clust : list nat) : option (list (list Q) * list (list Q)) :=
  let p := length clust in
  let n_labels := n_unique clust in
  match parcellation_masks clust n_labels with
  | None => None
  | Some masks =>
      let inv_sum_col :=
        dia_matrix (map (fun s => 1 / s) (sum_axis0 masks p)) n_labels in
      let P_inv := transpose masks p in
      let P := matmul inv_sum_col masks in
      Some (P, P_inv)
  end.

(* ------------------------------------------------------------------ *)
(** ** Inference on the held-out rows *)

(** [(b ** 2 > 0)] entrywise. *)
Definition nonzero_mask (b : list Q) : list bool :=
  map (fun x => negb (Qle_bool (x * x) 0)) b.

(** [mask.sum()] for a boolean mask. *)
Definition count_true (m : list bool) : nat := length (filter (fun b => b) m).

(** [a[mask]]. *)
Fixpoint mask_select {A} (m : list bool) (l : list A) : list A :=
  match m, l with
  | b :: m', x :: l' => if b then x :: mask_select m' l' else mask_select m' l'
  | _, _ => []
  end.

(** [a[mask] = vals]: the masked positions take the values of [vals] in
    order (for a [vals] of the mask's size, as the code passes). *)
Fixpoint mask_assign (m : list bool) (vals : list Q) (l : list Q) : list Q :=
  match m, l with
  | b :: m', x :: l' =>
      if b then
        match vals with
        | v :: vals' => v :: mask_assign m' vals' l'
        | [] => x :: mask_assign m' [] l'
        end
      else x :: mask_assign m' vals l'
  | _, _ => l
  end.

(** [split = np.zeros(n, dtype='bool'); split[split_array[i]] = True]. *)
Definition split_mask (n : nat) (idx : list nat) : list bool :=
  fold_left (fun m i => set_nth m i true) idx (repeat false n).

(** [a[~split]]: the held-out rows. *)
Definition held_out {A} (split : list bool) (l : list A) : list A :=
  mask_select (map negb split) l.

(** The data of the refit of a split, shared by both inference functions:
    [y_test] and [X_model = (P.dot(X_test.T).T)[:, model_proj]]. *)
Definition ols_input (X : list (list Q)) (y : list Q) (beta_proj : list Q)
    (split_idx : list nat) (P : list (list Q)) : list Q * list (list Q) :=
  let split := split_mask (length X) split_idx in
  let y_test := held_out split y in
  let X_test := held_out split X in
  let X_test_proj := map (matvec P) X_test in
  (y_test, map (mask_select (nonzero_mask beta_proj)) X_test_proj).

(** [f(0), ..., f(k - 1)] evaluated in turn; the first failure aborts. *)
Fixpoint map_opt {A B} (f : A -> option B) (l : list A) : option (list B) :=
  match l with
  | [] => Some []
  | x :: l' =>
      match f x with
      | None => None
      | Some y =>
          match map_opt f l' with
          | None => None
          | Some ys => Some (y :: ys)
          end
      end
  end.

(** [arr[i]] for the three per-split arrays of a fitted model. *)
Definition split_data (beta_array : list (list Q)) (split_array clust_array : list (list nat))
    (i : nat) : option (list Q * list nat * list nat) :=
  match nth_error beta_array i, nth_error split_array i, nth_error clust_array i with
  | Some b, Some s, Some c => Some (b, s, c)
  | _, _, _ => None
  end.

Section Inference.

Variable np_log : Q -> Q.

(** [sm.OLS(y, X).fit().pvalues]; [None] when the fit raises.  The
    p-values are numbers: the NaN p-values statsmodels reports on a refit
    with no residual degree of freedom are outside this model. *)
Variable ols_pvalues : list Q -> list (list Q) -> option (list Q).

(** The body of the loop of [multivariate_split_pval] for one split. *)
Definition pval_split (X : list (list Q)) (y : list Q) (n_clusters : nat)
    (beta_proj : list Q) (split_idx clust : list nat) : option (list Q) :=
  match pp_inv clust with
  | None => None
  | Some (P, P_inv) =>
      let model_proj := nonzero_mask beta_proj in
      let model_proj_size := count_true model_proj in
      let '(y_test, X_model) := ols_input X y beta_proj split_idx P in
      match ols_pvalues y_test X_model with
      | None => None
      | Some res_pvalues =>
          let pvalues_proj :=
            mask_assign model_proj
              (map (fun v => clip01 (Qnat model_proj_size * v)) res_pvalues)
              (repeat 1 n_clusters) in
          Some (matvec P_inv pvalues_proj)
      end
  end.

(** [multivariate_split_pval(X, y, n_split, size_split, n_clusters,
    beta_array, split_array, clust_array)]. *)
Definition multivariate_split_pval (X : list (list Q)) (y : list Q)
    (n_split : nat) (size_split : Q) (n_clusters : nat)
    (beta_array : list (list Q)) (split_array clust_array : list (list nat))
  : option (list (list Q) * list Q) :=
  let row i :=
    match split_data beta_array split_array clust_array i with
    | None => None
    | Some (b, s, c) => pval_split X y n_clusters b s c
    end in
  match map_opt row (seq 0 n_split) with
  | None => None
  | Some pvalues =>
      if (1 <? n_split)%nat then
        match pvalues_aggregation np_log (1 # 20) pvalues with
        | None => None
        | Some agg => Some (pvalues, agg)
        end
      else
        match pvalues with
        | [] => None
        | r :: _ => Some (pvalues, r)
        end
  end.

(** The body of the loop of [multivariate_split_scores] for one split. *)
Definition scores_split (X : list (list Q)) (y : list Q) (n_clusters : nat)
    (beta_proj : list Q) (split_idx clust : list nat) : option (list Q) :=
  let p := ncols X in
  match pp_inv clust with
  | None => None
  | Some (P, P_inv) =>
      let model_proj := nonzero_mask beta_proj in
      let beta := matvec P_inv beta_proj in
      let model_size := count_true (nonzero_mask beta) in
      let '(y_test, X_model) := ols_input X y beta_proj split_idx P in
      match ols_pvalues y_test X_model with
      | None => None
      | Some res_pvalues =>
          let scores_proj :=
            mask_assign model_proj (map (fun v => Qnat model_size * v) res_pvalues)
              (repeat (Qnat p) n_clusters) in
          Some (matvec P_inv scores_proj)
      end
  end.

End Inference.

(** [multivariate_split_scores(X, y, n_split, size_split, n_clusters,
    beta_array, split_array, clust_array)]. *)
Definition multivariate_split_scores
    (ols_pvalues : list Q -> list (list Q) -> option (list Q))
    (X : list (list Q)) (y : list Q)
    (n_split : nat) (size_split : Q) (n_clusters : nat)
    (beta_array : list (list Q)) (split_array clust_array : list (list nat))
  : option (list (list Q) * list Q) :=
  let row i :=
    match split_data beta_array split_array clust_array i with
    | None => None
    | Some (b, s, c) => scores_split ols_pvalues X y n_clusters b s c
    end in
  match map_opt row (seq 0 n_split) with
  | None => None
  | Some scores =>
      if (1 <? n_split)%nat then
        match scores_aggregation (1 # 20) scores with
        | None => None
        | Some agg => Some (scores, agg)
        end
      else
        match scores with
        | [] => None
        | r :: _ => Some (scores, r)
        end
  end.

(** A stand-in for [sm.OLS(y, X).fit().pvalues] in concrete runs: the
    p-value [v] for every coefficient.  On the rank-one design
    [[1, 1], [2, 2]] with [y = [1, 3]] (the held-out data of the run on
    [X = [[0, 0], [1, 1], [2, 2]]] with sample 0 selected) statsmodels reports the same
    p-value for both coefficients: the pinv estimate is 0.7 each, the
    standard error 0.1 on one residual degree of freedom, so [t = 7] and
    the p-value is [2 atan(1/7) / pi], about 0.0903. *)
Definition ols_const (v : Q) (y : list Q) (X_model : list (list Q)) : option (list Q) :=
  Some (repeat v (ncols X_model)).

(** A refit that raises, whatever its data. *)
Definition ols_raises (y : list Q) (X_model : list (list Q)) : option (list Q) := None.

(* ------------------------------------------------------------------ *)
(** ** Univariate inference, with [permute=False] *)

(** [arr[i] = v] for a row of width [w]: [v] of length [w], or a
    length-one [v] broadcast; [None] is the ValueError of another shape. *)
Definition store_row {A} (w : nat) (v : list A) : option (list A) :=
  if (length v =? w)%nat then Some v
  else match v with
       | [x] => Some (repeat x w)
       | _ => None
       end.


(** [split = np.zeros(n, dtype='bool'); split[split_array[i]] = True];
    [None] is the IndexError of an index [>= n]. *)
Definition split_mask_checked (n : nat) (idx : list nat) : option (list bool) :=
  if forallb (fun i => i <? n)%nat idx then Some (split_mask n idx) else None.

Section Univariate.

Variable np_log : Q -> Q.

(** [pearsonr(a, b)[1]]; [None] when it raises.  The p-value is a
    number: the NaN scipy reports for a constant input is outside this
    model. *)
Variable pearsonr_pvalue : list Q -> list Q -> option Q.

(** One pass of the loop of [univariate_split_pval] with [permute=False]:
    the row [P_inv.dot(pvalues_proj)] stored in [pvalues[i]] (a row of
    another width than [p] is the ValueError of the assignment) and
    [len(pvalues_proj)].  On this path [y_test], [X_test] and
    [X_test_proj] are computed and not used: the p-values are those of
    the full [y] against the columns of [X_proj = P.dot(X.T).T]. *)
Definition univariate_pval_split (X : list (list Q)) (y : list Q)
    (split_idx clust : list nat) : option (list Q * nat) :=
  let n := length X in
  let p := ncols X in
  match split_mask_checked n split_idx with
  | None => None
  | Some _ =>
      match pp_inv clust with
      | None => None
      | Some (P, P_inv) =>
          let X_proj := map (matvec P) X in
          match map_opt (pearsonr_pvalue y) (transpose X_proj (n_unique clust)) with
          | None => None
          | Some pvalues_proj =>
              match store_row p (matvec P_inv pvalues_proj) with
              | None => None
              | Some row => Some (row, length pvalues_proj)
              end
          end
      end
  end.

(** [univariate_split_pval(X, y, n_split, size_split, n_clusters,
    beta_array, split_array, clust_array, permute=False)].  After the loop,
    [pvalues * len(pvalues_proj)] reads the [pvalues_proj] of the last
    split; for [n_split = 0] that name is unbound (NameError: [None]). *)
Definition univariate_split_pval (X : list (list Q)) (y : list Q)
    (n_split : nat) (size_split : Q) (n_clusters : nat)
    (beta_array : list (list Q)) (split_array clust_array : list (list nat))
  : option (list (list Q) * list Q) :=
  let row i :=
    match nth_error split_array i, nth_error clust_array i with
    | Some s, Some c => univariate_pval_split X y s c
    | _, _ => None
    end in
  match map_opt row (seq 0 n_split) with
  | None => None
  | Some res =>
      match rev res with
      | [] => None
      | (_, k) :: _ =>
          let pvalues := map (fun r => map (fun v => clip01 (v * Qnat k)) (fst r)) res in
          if (1 <? n_split)%nat then
            match pvalues_aggregation np_log (1 # 20) pvalues with
            | None => None
            | Some agg => Some (pvalues, agg)
            end
          else
            match pvalues with
            | [] => None
            | r :: _ => Some (pvalues, r)
            end
      end
  end.

(** One pass of the loop of [univariate_split_scores] with [permute=False].
    [np.dot(y_test, X_test_proj)] has one entry per label of [clust], and
    its [.reshape((n_clusters))] raises unless there are [n_clusters] of
    them or [n_clusters = -1] (numpy then infers the length; any other
    negative [n_clusters] raises too); the scores are [pearsonr(y_test, x)[1]] for the columns [x] of
    [X_test_proj]. *)
Definition univariate_scores_split (X : list (list Q)) (y : list Q)
    (n_clusters : Z) (split_idx clust : list nat) : option (list Q) :=
  let n := length X in
  let p := ncols X in
  match split_mask_checked n split_idx with
  | None => None
  | Some split =>
      let y_test := held_out split y in
      let X_test := held_out split X in
      match pp_inv clust with
      | None => None
      | Some (P, P_inv) =>
          let X_test_proj := map (matvec P) X_test in
          if negb ((n_clusters =? -1) || (Z.of_nat (n_unique clust) =? n_clusters))%Z
          then None
          else
            match map_opt (pearsonr_pvalue y_test)
                    (transpose X_test_proj (n_unique clust)) with
            | None => None
            | Some scores_proj => store_row p (matvec P_inv scores_proj)
            end
      end
  end.

(** [univariate_split_scores(X, y, n_split, size_split, n_clusters,
    beta_array, split_array, clust_array, permute=False)]: the rows are
    aggregated by [pvalues_aggregation]. *)
Definition univariate_split_scores (X : list (list Q)) (y : list Q)
    (n_split : nat) (size_split : Q) (n_clusters : Z)
    (beta_array : list (list Q)) (split_array clust_array : list (list nat))
  : option (list (list Q) * list Q) :=
  let row i :=
    match nth_error split_array i, nth_error clust_array i with
    | Some s, Some c => univariate_scores_split X y n_clusters s c
    | _, _ => None
    end in
  match map_opt row (seq 0 n_split) with
  | None => None
  | Some scores =>
      if (1 <? n_split)%nat then
        match pvalues_aggregation np_log (1 # 20) scores with
        | None => None
        | Some agg => Some (scores, agg)
        end
      else
        match scores with
        | [] => None
        | r :: _ => Some (scores, r)
        end
  end.

End Univariate.

(* ------------------------------------------------------------------ *)
(** ** [numpy.random.RandomState]: MT19937 and [choice] *)

Section Random.

Local Open Scope Z_scope.

(** The state of the generator: the 624 key words and the position. *)
Record mt_state : Type := {
  mt_key : list Z;
  mt_pos : nat
}.

Definition mask32 : Z := Z.ones 32.

Fixpoint mt_seed_loop (pos k : nat) (seed : Z) : list Z :=
  match k with
  | O => []
  | S k' =>
      seed :: mt_seed_loop (S pos) k'
                (Z.land (1812433253 * Z.lxor seed (Z.shiftr seed 30)
                         + Z.of_nat pos + 1) mask32)
  end.

(** [mt19937_seed(state, seed)], which [RandomState(seed)] runs for an
    integer seed in [[0, 2^32)]. *)
Definition mt19937_seed (seed : Z) : mt_state :=
  {| mt_key := mt_seed_loop 0 624 (Z.land seed mask32); mt_pos := 624 |}.

Definition UPPER_MASK : Z := 2147483648.
Definition LOWER_MASK : Z := 2147483647.
Definition MATRIX_A : Z := 2567483615.

(** One assignment [key[i] = key[(i + 397) % 624] ^ (y >> 1) ^ (-(y & 1) & MATRIX_A)]
    of the regeneration of the key, done in place: the three loops of the C
    code are the index ranges [[0, 227)], [[227, 623)] and [623], whose
    indices [i + 397], [i + 397 - 624], [396] and [i + 1], [0] are the ones
    taken modulo 624 here. *)
Definition mt_twist_step (key : list Z) (i : nat) : list Z :=
  let y := Z.lor (Z.land (nth i key 0) UPPER_MASK)
                 (Z.land (nth ((i + 1) mod 624) key 0) LOWER_MASK) in
  set_nth key i (Z.lxor (Z.lxor (nth ((i + 397) mod 624) key 0) (Z.shiftr y 1))
                        (if Z.odd y then MATRIX_A else 0)).

Definition mt_twist (key : list Z) : list Z := fold_left mt_twist_step (seq 0 624) key.

(** [rk_random]: the next tempered 32-bit output. *)
Definition rk_random (s : mt_state) : Z * mt_state :=
  let s := if (mt_pos s =? 624)%nat
           then {| mt_key := mt_twist (mt_key s); mt_pos := 0 |} else s in
  let y := nth (mt_pos s) (mt_key s) 0 in
  let y := Z.lxor y (Z.shiftr y 11) in
  let y := Z.lxor y (Z.land (Z.shiftl y 7) 2636928640) in
  let y := Z.lxor y (Z.land (Z.shiftl y 15) 4022730752) in
  let y := Z.lxor y (Z.shiftr y 18) in
  (y, {| mt_key := mt_key s; mt_pos := S (mt_pos s) |}).

(** The rejection loop [while ((value = (rk_random(state) & mask)) > max);],
    run at most [fuel] times ([None] when the fuel runs out). *)
Fixpoint rk_interval_loop (fuel : nat) (max mask : Z) (s : mt_state)
  : option (Z * mt_state) :=
  match fuel with
  | O => None
  | S f =>
      let '(r, s') := rk_random s in
      let value := Z.land r mask in
      if max <? value then rk_interval_loop f max mask s' else Some (value, s')
  end.

(** [rk_interval(max, state)]: a value in [[0, max]]. *)
Definition rk_interval (max : Z) (s : mt_state) : option (Z * mt_state) :=
  if max =? 0 then Some (0, s)
  else
    let mask := max in
    let mask := Z.lor mask (Z.shiftr mask 1) in
    let mask := Z.lor mask (Z.shiftr mask 2) in
    let mask := Z.lor mask (Z.shiftr mask 4) in
    let mask := Z.lor mask (Z.shiftr mask 8) in
    let mask := Z.lor mask (Z.shiftr mask 16) in
    let mask := Z.lor mask (Z.shiftr mask 32) in
    rk_interval_loop 64 max mask s.

End Random.

(** [x[i], x[j] = x[j], x[i]]. *)
Definition swap (x : list nat) (i j : nat) : list nat :=
  set_nth (set_nth x i (nth j x O)) j (nth i x O).

(** The loop of [shuffle] on a 1-d array:
    [for i in reversed(range(1, n)): j = rk_interval(i, state); swap]. *)
Fixpoint shuffle_loop (i : nat) (x : list nat) (s : mt_state)
  : option (list nat * mt_state) :=
  match i with
  | O => Some (x, s)
  | S i' =>
      match rk_interval (Z.of_nat i) s with
      | None => None
      | Some (j, s') => shuffle_loop i' (swap x i (Z.to_nat j)) s'
      end
  end.

(** [RandomState.permutation(n)]: [arr = np.arange(n); shuffle(arr)]. *)
Definition permutation (n : nat) (s : mt_state) : option (list nat * mt_state) :=
  shuffle_loop (n - 1) (seq 0 n) s.

(** [RandomState.choice(a, size, replace=False)] for an integer [a] and a
    float [size]: numpy first truncates [size] to an integer [k]
    ([np.prod(size, dtype=np.intp)]), raises when [a <= 0] or [k > a], and
    returns [permutation(a)[:k]].  (A negative [k] is not modelled: [None].) *)
Definition choice (s : mt_state) (a : nat) (size : Q) : option (list nat * mt_state) :=
  let k := py_int size in
  if (a =? 0)%nat then None
  else if (k <? 0)%Z then None
  else if (Z.of_nat a <? k)%Z then None
  else
    match permutation a s with
    | None => None
    | Some (perm, s') => Some (firstn (Z.to_nat k) perm, s')
    end.

Fixpoint insert_nat (x : nat) (l : list nat) : list nat :=
  match l with
  | [] => [x]
  | y :: l' => if (x <=? y)%nat then x :: l else y :: insert_nat x l'
  end.

(** [a.sort()] on an integer array. *)
Definition sort_nat (l : list nat) : list nat := fold_right insert_nat [] l.

(* ------------------------------------------------------------------ *)
(** ** The estimator [StabilityLasso] and its [fit] *)

(** [n_clusters] as given to [__init__]: an int, the string ['auto'], or a
    string holding a number [r], read by [int(eval('%s * p' % r))]. *)
Inductive n_clusters_param : Type :=
| NCInt (k : Z)
| NCAuto
| NCExpr (r : Q).

(** The attributes [fit] sets ([None]: not set). *)
Record fit_attrs : Type := {
  intercept_ : option (list Q);
  size_split : option Q;
  n_clusters_ : option Z;
  _soln : option (list Q);
  _beta_array : option (list (list Q));
  _split_array : option (list (list nat));
  _clust_array : option (list (list nat));
  coef_ : option (list Q)
}.

(** A [StabilityLasso] object: the attributes set by [__init__], among
    them the generator [check_random_state(random_state)], and those set
    by [fit]. *)
Record StabilityLasso : Type := {
  theta : Q;
  n_split : nat;
  ratio_split : Q;
  n_clusters : n_clusters_param;
  generator : mt_state;
  attrs : fit_attrs
}.

Definition no_attrs : fit_attrs :=
  {| intercept_ := None; size_split := None; n_clusters_ := None; _soln := None;
     _beta_array := None; _split_array := None; _clust_array := None;
     coef_ := None |}.

(** [StabilityLasso(theta, n_split, ratio_split, n_clusters, random_state)]
    for an integer seed in [[0, 2^32)]. *)
Definition StabilityLasso_init (theta : Q) (n_split : nat) (ratio_split : Q)
    (n_clusters : n_clusters_param) (random_state : Z) : StabilityLasso :=
  {| theta := theta; n_split := n_split; ratio_split := ratio_split;
     n_clusters := n_clusters; generator := mt19937_seed random_state;
     attrs := no_attrs |}.

Definition set_generator (g : mt_state) (m : StabilityLasso) : StabilityLasso :=
  {| theta := theta m; n_split := n_split m; ratio_split := ratio_split m;
     n_clusters := n_clusters m; generator := g; attrs := attrs m |}.

Definition set_attrs (f : fit_attrs -> fit_attrs) (m : StabilityLasso) : StabilityLasso :=
  {| theta := theta m; n_split := n_split m; ratio_split := ratio_split m;
     n_clusters := n_clusters m; generator := generator m; attrs := f (attrs m) |}.

Definition with_intercept_ (v : list Q) (a : fit_attrs) : fit_attrs :=
  {| intercept_ := Some v; size_split := size_split a; n_clusters_ := n_clusters_ a;
     _soln := _soln a; _beta_array := _beta_array a; _split_array := _split_array a;
     _clust_array := _clust_array a; coef_ := coef_ a |}.

Definition with_size_split (v : Q) (a : fit_attrs) : fit_attrs :=
  {| intercept_ := intercept_ a; size_split := Some v; n_clusters_ := n_clusters_ a;
     _soln := _soln a; _beta_array := _beta_array a; _split_array := _split_array a;
     _clust_array := _clust_array a; coef_ := coef_ a |}.

Definition with_n_clusters_ (v : Z) (a : fit_attrs) : fit_attrs :=
  {| intercept_ := intercept_ a; size_split := size_split a; n_clusters_ := Some v;
     _soln := _soln a; _beta_array := _beta_array a; _split_array := _split_array a;
     _clust_array := _clust_array a; coef_ := coef_ a |}.

Definition with_soln (v : list Q) (a : fit_attrs) : fit_attrs :=
  {| intercept_ := intercept_ a; size_split := size_split a; n_clusters_ := n_clusters_ a;
     _soln := Some v; _beta_array := _beta_array a; _split_array := _split_array a;
     _clust_array := _clust_array a; coef_ := coef_ a |}.

(** The four assignments that end [fit]. *)
Definition with_results (b : list (list Q)) (sp cl : list (list nat)) (a : fit_attrs)
  : fit_attrs :=
  {| intercept_ := intercept_ a; size_split := size_split a; n_clusters_ := n_clusters_ a;
     _soln := _soln a; _beta_array := Some b; _split_array := Some sp;
     _clust_array := Some cl; coef_ := _soln a |}.

(** Computations on the object that may raise: the object as it is when
    the computation ends or raises, and the result ([None]: raised). *)
Definition st (A : Type) : Type := StabilityLasso -> StabilityLasso * option A.

Definition ret {A} (a : A) : st A := fun m => (m, Some a).

Definition bind {A B} (c : st A) (k : A -> st B) : st B :=
  fun m => match c m with
           | (m', None) => (m', None)
           | (m', Some a) => k a m'
           end.

(** A step that may raise and leaves the object as it is. *)
Definition lift {A} (o : option A) : st A := fun m => (m, o).

Definition get : st StabilityLasso := fun m => (m, Some m).

Definition modify (f : StabilityLasso -> StabilityLasso) : st unit :=
  fun m => (f m, Some tt).

Notation "x <- c ;; k" := (bind c (fun x => k))
  (at level 61, c at next level, right associativity).
Notation "' p <- c ;; k" := (bind c (fun x => match x with p => k end))
  (at level 61, p pattern, c at next level, right associativity).

(** [self.n_clusters_] as [fit] resolves it for [p] features. *)
Definition resolve_n_clusters (nc : n_clusters_param) (p : nat) : Z :=
  match nc with
  | NCInt k => k
  | NCAuto => Z.of_nat p
  | NCExpr r => py_int (r * Qnat p)
  end.

(** [np.max] of a vector; [None] is the ValueError of an empty one. *)
Definition np_max (l : list Q) : option Q :=
  match l with
  | [] => None
  | x :: l' => Some (fold_left Qmax l' x)
  end.

Section Fit.

(** [StandardScaler().fit_transform(M)]: the transformed matrix and [mean_]. *)
Variable standardize : list (list Q) -> option (list (list Q) * list Q).

(** [FeatureAgglomeration(linkage='ward', n_clusters=k,
    connectivity=connectivity).fit(X).labels_], for the [connectivity]
    passed to [fit]. *)
Variable agglomerate : list (list Q) -> Z -> option (list nat).

(** [Lasso(alpha=alpha).fit(X, y).coef_]. *)
Variable lasso : Q -> list (list Q) -> list Q -> option (list Q).

(** [projection(X, k, connectivity)] with [ward=True]: [(P_inv, X_proj, labels)]. *)
Definition projection (X : list (list Q)) (k : Z)
  : option (list (list Q) * list (list Q) * list nat) :=
  match agglomerate X k with
  | None => None
  | Some labels =>
      match pp_inv labels with
      | None => None
      | Some (P, P_inv) => Some (P_inv, map (matvec P) X, labels)
      end
  end.

(** One pass of the loop [for i in range(n_split)] of [fit], on the scaled
    data [X], [y] with [n] samples and [p] features: the rows it stores
    in [beta_array], [split_array] and [clust_array]. *)
Definition fit_split (X : list (list Q)) (y : list Q) (n p : nat)
  : st (list Q * list nat * list nat) :=
  m <- get ;;
  size <- lift (size_split (attrs m)) ;;
  nc <- lift (n_clusters_ (attrs m)) ;;
  ' (split, g) <- lift (choice (generator m) n size) ;;
  _ <- modify (set_generator g) ;;
  let split := sort_nat split in
  let y_splitted := map (fun i => nth i y 0) split in
  let X_splitted := map (fun i => nth i X []) split in
  ' (P_inv, X_proj, labels) <- lift (projection X_splitted nc) ;;
  mx <- lift (np_max (map Qabs (matvec (transpose X_proj (n_unique labels))
                                       y_splitted))) ;;
  let alpha := theta m * mx / Qnat n in
  beta_proj <- lift (lasso alpha X_proj y_splitted) ;;
  let beta := matvec P_inv beta_proj in
  b_row <- lift (store_row (Z.to_nat nc) beta_proj) ;;
  s_row <- lift (store_row (Z.to_nat (py_int size)) split) ;;
  c_row <- lift (store_row p labels) ;;
  m <- get ;;
  soln <- lift (_soln (attrs m)) ;;
  _ <- modify (set_attrs (with_soln (zip_with Qplus soln beta))) ;;
  ret (b_row, s_row, c_row).

Fixpoint fit_loop (k : nat) (X : list (list Q)) (y : list Q) (n p : nat)
  : st (list (list Q * list nat * list nat)) :=
  match k with
  | O => ret []
  | S k' =>
      r <- fit_split X y n p ;;
      rs <- fit_loop k' X y n p ;;
      ret (r :: rs)
  end.

(** [fit(X, y, connectivity)].  ([self._soln /= n_split] is computed in
    [Q], where [x / 0 = 0]: numpy gives NaN there, for [n_split = 0].) *)
Definition fit (X : list (list Q)) (y : list Q) : st unit :=
  ' (y_t, mean_) <- lift (standardize (map (fun v => [v]) y)) ;;
  let y := column y_t 0 in
  _ <- modify (set_attrs (with_intercept_ mean_)) ;;
  ' (X, _) <- lift (standardize X) ;;
  let n := length X in
  let p := ncols X in
  m <- get ;;
  _ <- modify (set_attrs (with_size_split (Qnat n * ratio_split m))) ;;
  _ <- modify (set_attrs (with_n_clusters_ (resolve_n_clusters (n_clusters m) p))) ;;
  m <- get ;;
  nc <- lift (n_clusters_ (attrs m)) ;;
  size <- lift (size_split (attrs m)) ;;
  (* np.zeros((n_split, self.n_clusters_)), np.zeros((n_split, self.size_split)) *)
  _ <- lift (if (nc <? 0)%Z then None else Some tt) ;;
  _ <- lift (if (py_int size <? 0)%Z then None else Some tt) ;;
  _ <- modify (set_attrs (with_soln (repeat 0 p))) ;;
  rows <- fit_loop (n_split m) X y n p ;;
  m <- get ;;
  soln <- lift (_soln (attrs m)) ;;
  _ <- modify (set_attrs (with_soln (map (fun v => v / Qnat (n_split m)) soln))) ;;
  _ <- modify (set_attrs (with_results (map (fun r => fst (fst r)) rows)
                                       (map (fun r => snd (fst r)) rows)
                                       (map snd rows))) ;;
  ret tt.

End Fit.

(** A rational stand-in for [np.log], used to run the definitions on
    concrete inputs: [ln x = 2 atanh z] with [z = (x - 1) / (x + 1)],
    summed to its first [K] odd powers. *)
Fixpoint atanh_terms (z z2 : Q) (k K : nat) : Q :=
  match K with
  | O => 0
  | S K' => Qred (z / Qnat (2 * k + 1) + atanh_terms (Qred (z * z2)) z2 (S k) K')
  end.

Definition ln_approx (x : Q) : Q :=
  let z := Qred ((x - 1) / (x + 1)) in
  2 * atanh_terms z (Qred (z * z)) 0 12.

(** Stand-ins for the scikit-learn estimators, to run [fit] on concrete
    inputs: a scaler that leaves the data as it is (with a zero mean), an
    agglomeration that puts feature [j] in cluster [min j (k - 1)], and a
    Lasso that returns the zero vector.  The splits [fit] draws do not
    depend on what these return. *)
Definition scaler_identity (M : list (list Q)) : option (list (list Q) * list Q) :=
  Some (M, repeat 0 (ncols M)).

Definition agglomerate_first (Xs : list (list Q)) (k : Z) : option (list nat) :=
  Some (map (fun j => Nat.min j (Z.to_nat k - 1)) (seq 0 (ncols Xs))).

Definition lasso_zero (alpha : Q) (Xp : list (list Q)) (yv : list Q) : option (list Q) :=
  Some (repeat 0 (ncols Xp)).

(** A matrix of three splits and two features, and the same matrix with its
    first two rows exchanged. *)
Definition agg_example : list (list Q) :=
  [[1 # 10; 1 # 2]; [3 # 10; 1 # 5]; [1 # 50; 1 # 3]].

Definition agg_example_swapped : list (list Q) :=
  [[3 # 10; 1 # 5]; [1 # 10; 1 # 2]; [1 # 50; 1 # 3]].

(** The attributes that the loop of [fit] reads or leaves as they are:
    the hyperparameters and the first three attributes [fit] sets. *)
Definition fit_config (m : StabilityLasso) :=
  (theta m, n_split m, ratio_split m, n_clusters m,
   intercept_ (attrs m), size_split (attrs m), n_clusters_ (attrs m)).

(** Everything of the object that [fit] reads: the hyperparameters, the
    generator, and the attributes it sets before reading them. *)
Definition fit_view (m : StabilityLasso) :=
  (fit_config m, generator m, _soln (attrs m)).

(** [s] holds [k] distinct sample indices below [n], in ascending order. *)
Definition subset_ok (k n : nat) (s : list nat) : Prop :=
  length s = k /\ NoDup s /\ Sorted le s /\ Forall (fun i => (i < n)%nat) s.

(* ================================================================== *)
(** * Lemmas *)

From Stdlib Require Import Lqa.

Lemma Qle_bool_iff' (x y : Q) : Qle_bool x y = true <-> x <= y.
Proof. apply Qle_bool_iff. Qed.

Lemma Qle_bool_false (x y : Q) : Qle_bool x y = false <-> y < x.
Proof.
  split; intro H.
  - apply Qnot_le_lt. intro H'. apply Qle_bool_iff in H'. congruence.
  - destruct (Qle_bool x y) eqn:E; [|reflexivity].
    apply Qle_bool_iff in E. exfalso. apply (Qlt_not_le _ _ H E).
Qed.

(** ** Sorting *)

Lemma insert_sorted_perm (x : Q) (l : list Q) :
  Permutation (x :: l) (insert_sorted x l).
Proof.
  induction l as [|y l IH]; simpl; [reflexivity|].
  destruct (Qle_bool x y); [reflexivity|].
  rewrite perm_swap. constructor. exact IH.
Qed.

Lemma insert_sorted_sorted (x : Q) (l : list Q) :
  Sorted Qle l -> Sorted Qle (insert_sorted x l).
Proof.
  induction 1 as [|y l Hl IH Hhd]; simpl.
  - repeat constructor.
  - destruct (Qle_bool x y) eqn:E.
    + apply Qle_bool_iff in E. constructor; [constructor; assumption|].
      constructor. exact E.
    + apply Qle_bool_false in E. constructor; [exact IH|].
      destruct l as [|z l]; simpl.
      * constructor. apply Qlt_le_weak. exact E.
      * inversion Hhd; subst.
        destruct (Qle_bool x z); constructor; [apply Qlt_le_weak; exact E|assumption].
Qed.

Lemma np_sort_perm (l : list Q) : Permutation l (np_sort l).
Proof.
  induction l as [|x l IH]; simpl; [reflexivity|].
  rewrite <- insert_sorted_perm. constructor. exact IH.
Qed.

Lemma np_sort_sorted (l : list Q) : Sorted Qle (np_sort l).
Proof.
  induction l; simpl; [constructor|]. apply insert_sorted_sorted. assumption.
Qed.

Lemma np_sort_length (l : list Q) : length (np_sort l) = length l.
Proof. symmetry. apply Permutation_length, np_sort_perm. Qed.

Lemma insert_index_map (key : nat -> Q) (i : nat) (l : list nat) :
  map key (insert_index key i l) = insert_sorted (key i) (map key l).
Proof.
  induction l as [|j l IH]; simpl; [reflexivity|].
  destruct (Qle_bool (key i) (key j)); simpl; [reflexivity|].
  rewrite IH. reflexivity.
Qed.

Lemma insert_index_perm (key : nat -> Q) (i : nat) (l : list nat) :
  Permutation (i :: l) (insert_index key i l).
Proof.
  induction l as [|j l IH]; simpl; [reflexivity|].
  destruct (Qle_bool (key i) (key j)); [reflexivity|].
  rewrite perm_swap. constructor. exact IH.
Qed.

Lemma map_nth_seq_self {A} (l : list A) (d : A) :
  map (fun i => nth i l d) (seq 0 (length l)) = l.
Proof.
  induction l as [|x l IH]; simpl; [reflexivity|].
  f_equal. rewrite <- seq_shift, map_map. exact IH.
Qed.

(** The values read through [np.argsort] are [np.sort]'s. *)
Lemma argsort_map (l : list Q) :
  map (fun i => nth i l 0) (argsort l) = np_sort l.
Proof.
  unfold argsort, np_sort.
  transitivity (fold_right insert_sorted [] (map (fun i => nth i l 0) (seq 0 (length l))));
    [|rewrite map_nth_seq_self; reflexivity].
  generalize (seq 0 (length l)) as ix. induction ix as [|i ix IH]; simpl; [reflexivity|].
  rewrite insert_index_map, IH. reflexivity.
Qed.

Lemma argsort_perm (l : list Q) : Permutation (argsort l) (seq 0 (length l)).
Proof.
  unfold argsort. generalize (seq 0 (length l)) as ix.
  induction ix as [|i ix IH]; simpl; [reflexivity|].
  rewrite <- insert_index_perm. constructor. exact IH.
Qed.

Lemma argsort_length (l : list Q) : length (argsort l) = length l.
Proof. rewrite (Permutation_length (argsort_perm l)). apply length_seq. Qed.

(** ** Lists updated by index *)

Lemma length_set_nth {A} (l : list A) i v : length (set_nth l i v) = length l.
Proof.
  revert i; induction l as [|x l IH]; intros [|i]; simpl; auto.
Qed.

Lemma set_nth_app {A} (l r : list A) y v :
  set_nth (l ++ y :: r) (length l) v = l ++ v :: r.
Proof. induction l as [|x l IH]; simpl; [reflexivity|]. rewrite IH. reflexivity. Qed.

Lemma nth_set_nth_eq {A} (l : list A) i v d :
  (i < length l)%nat -> nth i (set_nth l i v) d = v.
Proof.
  revert i; induction l as [|x l IH]; intros [|i] H; simpl in *; try lia; auto.
  apply IH. lia.
Qed.

Lemma nth_set_nth_neq {A} (l : list A) i j v d :
  i <> j -> nth j (set_nth l i v) d = nth j l d.
Proof.
  revert i j; induction l as [|x l IH]; intros [|i] [|j] H; simpl; auto; try lia.
  all: apply IH; lia.
Qed.

(** ** The running minimum of [select_model_fdr_bounds] *)

Lemma sufmin_length (l : list Q) : length (sufmin l) = length l.
Proof.
  induction l as [|x l IH]; simpl; [reflexivity|].
  destruct (sufmin l) eqn:E; simpl in *; lia.
Qed.

Lemma sufmin_cons2 (y x : Q) (r : list Q) :
  sufmin (y :: x :: r) = Qmin y (nth 0 (sufmin (x :: r)) 0) :: sufmin (x :: r).
Proof.
  change (sufmin (y :: x :: r)) with
    (match sufmin (x :: r) with [] => [y] | z :: _ => Qmin y z :: sufmin (x :: r) end).
  assert (Hl : length (sufmin (x :: r)) = S (length r)) by apply sufmin_length.
  destruct (sufmin (x :: r)); simpl in *; [discriminate|reflexivity].
Qed.

Lemma running_min_app (i : nat) : forall (l : list Q) (x : Q) (r : list Q),
  length l = i -> running_min i (l ++ sufmin (x :: r)) = sufmin (l ++ x :: r).
Proof.
  induction i as [|i IH]; intros l x r Hl.
  - destruct l; [reflexivity|discriminate].
  - destruct (exists_last (l := l)) as [l' [y ->]]; [intros ->; discriminate|].
    rewrite length_app in Hl. simpl in Hl.
    assert (i = length l') by lia. subst i.
    cbn [running_min].
    rewrite <- app_assoc. cbn [app].
    assert (Hnth1 : nth (length l') (l' ++ y :: sufmin (x :: r)) 0 = y).
    { rewrite app_nth2 by lia. replace (length l' - length l')%nat with O by lia. reflexivity. }
    assert (Hnth2 : nth (S (length l')) (l' ++ y :: sufmin (x :: r)) 0
                    = nth 0 (sufmin (x :: r)) 0).
    { rewrite app_nth2 by lia. replace (S (length l') - length l')%nat with 1%nat by lia.
      reflexivity. }
    rewrite Hnth1, Hnth2.
    rewrite set_nth_app, <- sufmin_cons2.
    rewrite IH by reflexivity. rewrite <- app_assoc. reflexivity.
Qed.

Lemma running_min_sufmin (l : list Q) :
  running_min (length l - 1) l = sufmin l.
Proof.
  destruct l as [|a l0]; [reflexivity|].
  destruct (exists_last (l := a :: l0)) as [l' [x E]]; [discriminate|].
  rewrite E. rewrite length_app. simpl. replace (length l' + 1 - 1)%nat with (length l') by lia.
  change [x] with (sufmin [x]). rewrite running_min_app by reflexivity. reflexivity.
Qed.

Lemma Qmin_cases (a b : Q) : Qmin a b = a \/ Qmin a b = b.
Proof.
  unfold Qmin, GenericMinMax.gmin. destruct (a ?= b); auto.
Qed.

Section Suffix.

Variable T : Q -> bool.
Hypothesis Tdown : forall a b, b <= a -> T a = true -> T b = true.

Lemma T_Qmin (a b : Q) : T (Qmin a b) = true <-> T a = true \/ T b = true.
Proof.
  split.
  - intro H. destruct (Qmin_cases a b) as [E|E]; rewrite E in H; auto.
  - intros [H|H]; eapply Tdown; [apply Q.le_min_l|exact H|apply Q.le_min_r|exact H].
Qed.

(** A suffix minimum passes a downward closed test exactly when some
    element of the suffix does. *)
Lemma sufmin_nth (l : list Q) : forall k, (k < length l)%nat ->
  (T (nth k (sufmin l) 0) = true <->
   exists j, (k <= j < length l)%nat /\ T (nth j l 0) = true).
Proof.
  induction l as [|x r IH]; intros k Hk; simpl in Hk; [lia|].
  destruct r as [|z r'].
  - destruct k; [|simpl in Hk; lia]. simpl. split.
    + intro H. exists O. simpl. split; [lia|exact H].
    + intros [j [Hj H]]. destruct j; [exact H|simpl in Hj; lia].
  - rewrite sufmin_cons2. destruct k as [|k].
    + simpl nth at 1. rewrite T_Qmin. rewrite (IH O) by (simpl; lia). split.
      * intros [H|[j [Hj H]]].
        -- exists O. split; [simpl; lia|exact H].
        -- exists (S j). split; [simpl in *; lia|exact H].
      * intros [[|j] [Hj H]]; [left; exact H|right].
        exists j. split; [simpl in *; lia|exact H].
    + simpl nth at 1. rewrite (IH k) by (simpl in *; lia). split.
      * intros [j [Hj H]]. exists (S j). split; [simpl in *; lia|exact H].
      * intros [[|j] [Hj H]]; [lia|]. exists j. split; [simpl in *; lia|exact H].
Qed.

End Suffix.

(** ** [bounds[idx] = vals] *)

Lemma fold_set_nth_length (cs : list (nat * Q)) : forall base,
  length (fold_left (fun acc iv => set_nth acc (fst iv) (snd iv)) cs base) = length base.
Proof.
  induction cs as [|c cs IH]; intro base; simpl; [reflexivity|].
  rewrite IH. apply length_set_nth.
Qed.

Lemma fold_set_nth_notin (cs : list (nat * Q)) : forall base i,
  ~ In i (map fst cs) ->
  nth i (fold_left (fun acc iv => set_nth acc (fst iv) (snd iv)) cs base) 0 = nth i base 0.
Proof.
  induction cs as [|[j w] cs IH]; intros base i Hi; simpl in *; [reflexivity|].
  rewrite IH by tauto. apply nth_set_nth_neq. intros ->. tauto.
Qed.

Lemma fold_set_nth_in (cs : list (nat * Q)) : forall base i v,
  NoDup (map fst cs) -> In (i, v) cs -> (i < length base)%nat ->
  nth i (fold_left (fun acc iv => set_nth acc (fst iv) (snd iv)) cs base) 0 = v.
Proof.
  induction cs as [|[j w] cs IH]; intros base i v Hnd Hin Hi; simpl in *; [tauto|].
  inversion Hnd as [|? ? Hj Hnd']; subst.
  destruct Hin as [E|Hin].
  - inversion E; subst. rewrite fold_set_nth_notin by assumption.
    apply nth_set_nth_eq. exact Hi.
  - apply IH; [exact Hnd'|exact Hin|rewrite length_set_nth; exact Hi].
Qed.

Lemma map_fst_combine {A B} (l : list A) (l' : list B) :
  length l = length l' -> map fst (combine l l') = l.
Proof.
  revert l'; induction l as [|x l IH]; intros [|y l'] H; simpl in *; try lia; auto.
  rewrite IH by lia. reflexivity.
Qed.

Lemma scatter_nth (idx : list nat) (vals base : list Q) k :
  NoDup idx -> length idx = length vals -> (k < length idx)%nat ->
  (nth k idx O < length base)%nat ->
  nth (nth k idx O) (scatter idx vals base) 0 = nth k vals 0.
Proof.
  intros Hnd Hl Hk Hb. unfold scatter.
  apply fold_set_nth_in; [rewrite map_fst_combine; assumption| |exact Hb].
  rewrite <- combine_nth by exact Hl. apply nth_In.
  rewrite length_combine. lia.
Qed.

Lemma scatter_length (idx : list nat) (vals base : list Q) :
  length (scatter idx vals base) = length base.
Proof. apply fold_set_nth_length. Qed.

(** ** [np.where(...)[0][-1]] *)

Lemma last_opt_app1 (l : list nat) x : last_opt (l ++ [x]) = Some x.
Proof. unfold last_opt. rewrite rev_app_distr. reflexivity. Qed.

Lemma last_opt_filter_seq (g : nat -> bool) (n h : nat) :
  last_opt (filter g (seq 0 n)) = Some h ->
  (h < n)%nat /\ g h = true /\ (forall j, (h < j < n)%nat -> g j = false).
Proof.
  revert h; induction n as [|n IH]; intros h H; [discriminate|].
  rewrite seq_S, filter_app in H. simpl in H.
  destruct (g n) eqn:E.
  - rewrite last_opt_app1 in H. inversion H; subst.
    split; [lia|split; [exact E|intros; lia]].
  - rewrite app_nil_r in H. destruct (IH h H) as [H1 [H2 H3]].
    split; [lia|split; [exact H2|]].
    intros j Hj. destruct (Nat.eq_dec j n) as [->|Hne]; [exact E|apply H3; lia].
Qed.

Lemma last_opt_filter_seq_exists (g : nat -> bool) (n k : nat) :
  (k < n)%nat -> g k = true -> exists h, last_opt (filter g (seq 0 n)) = Some h.
Proof.
  revert k; induction n as [|n IH]; intros k Hk Hg; [lia|].
  rewrite seq_S, filter_app. simpl. destruct (g n) eqn:E.
  - exists n. apply last_opt_app1.
  - rewrite app_nil_r. apply (IH k); [|exact Hg].
    destruct (Nat.eq_dec k n) as [->|]; [congruence|lia].
Qed.

(** ** Reading lists by index *)

Lemma nth_map_lt {A B} (f : A -> B) (l : list A) i d d' :
  (i < length l)%nat -> nth i (map f l) d = f (nth i l d').
Proof.
  intro H. rewrite nth_indep with (d' := f d') by (rewrite length_map; exact H).
  apply map_nth.
Qed.

Lemma zip_with_length {A B C} (f : A -> B -> C) l1 l2 :
  length (zip_with f l1 l2) = Nat.min (length l1) (length l2).
Proof.
  revert l2; induction l1 as [|x l1 IH]; intros [|y l2]; simpl; auto.
Qed.

Lemma nth_zip_with {A B C} (f : A -> B -> C) l1 l2 i d1 d2 d :
  (i < length l1)%nat -> (i < length l2)%nat ->
  nth i (zip_with f l1 l2) d = f (nth i l1 d1) (nth i l2 d2).
Proof.
  revert l2 i; induction l1 as [|x l1 IH]; intros [|y l2] [|i] H1 H2; simpl in *;
    try lia; auto.
  apply IH; lia.
Qed.

Lemma arange_length a b : length (arange a b) = (b - a)%nat.
Proof. unfold arange. rewrite length_map, length_seq. reflexivity. Qed.

Lemma nth_arange1 n k : (k < n)%nat -> nth k (arange 1 (n + 1)) 0 = Qnat (S k).
Proof.
  intro H. unfold arange. rewrite nth_map_lt with (d' := O) by (rewrite length_seq; lia).
  rewrite seq_nth by lia. reflexivity.
Qed.

Lemma sorted_nth_mono (l : list Q) j k :
  Sorted Qle l -> (j <= k)%nat -> (k < length l)%nat -> nth j l 0 <= nth k l 0.
Proof.
  intro Hs. apply Sorted_StronglySorted in Hs; [|intros a b c; apply Qle_trans].
  revert j k. induction Hs as [|a l Hs IH Hf]; intros j k Hjk Hk; simpl in *; [lia|].
  destruct j as [|j], k as [|k]; try lia.
  - apply Qle_refl.
  - rewrite Forall_forall in Hf. apply Hf, nth_In. lia.
  - apply IH; lia.
Qed.

(** ** Arithmetic facts *)

Lemma bool_iff (a b : bool) : (a = true <-> b = true) -> a = b.
Proof. destruct a, b; intuition congruence. Qed.

Lemma Qnat_pos n : (1 <= n)%nat -> 0 < Qnat n.
Proof. intro H. unfold Qnat, Qlt, inject_Z. simpl. lia. Qed.

Lemma Qnat_nonneg n : 0 <= Qnat n.
Proof. unfold Qnat, Qle, inject_Z. simpl. lia. Qed.

Lemma Qdiv_nonpos a c : a <= 0 -> 0 < c -> a / c <= 0.
Proof.
  intros Ha Hc. unfold Qdiv. assert (0 < / c) by (apply Qinv_lt_0_compat; exact Hc).
  nra.
Qed.

Lemma Qdiv_nonneg a c : 0 <= a -> 0 < c -> 0 <= a / c.
Proof.
  intros Ha Hc. unfold Qdiv. assert (0 < / c) by (apply Qinv_lt_0_compat; exact Hc).
  nra.
Qed.

Lemma Qdiv_pos a c : 0 < a -> 0 < c -> 0 < a / c.
Proof.
  intros Ha Hc. unfold Qdiv. apply Qmult_lt_0_compat; [exact Ha|].
  apply Qinv_lt_0_compat; exact Hc.
Qed.

Lemma Qdiv_anti a c d : 0 <= a -> 0 < c -> c <= d -> a / d <= a / c.
Proof.
  intros Ha Hc Hcd. unfold Qdiv.
  assert (Hd : 0 < d) by (eapply Qlt_le_trans; eauto).
  assert (Hid : 0 < / d) by (apply Qinv_lt_0_compat; exact Hd).
  assert (Hinv : / d <= / c).
  { apply Qle_shift_inv_l; [exact Hc|].
    setoid_replace 1 with (/ d * d) by (field; intro E; rewrite E in Hd; discriminate).
    apply Qmult_le_l; assumption. }
  apply Qmult_le_compat_nonneg; split; try apply Qle_refl; try assumption.
  apply Qlt_le_weak; exact Hid.
Qed.

Lemma Qle_mul_div (a b c : Q) : 0 < c -> (a * c <= b <-> a <= b / c).
Proof.
  intro Hc. split; intro H.
  - apply Qle_shift_div_l; assumption.
  - assert (E : b / c * c == b) by (field; intro E; rewrite E in Hc; discriminate).
    rewrite <- E. apply Qmult_le_compat_r; [exact H|apply Qlt_le_weak; exact Hc].
Qed.

Lemma Qmax_cases (a b : Q) : Qmax a b = a \/ Qmax a b = b.
Proof.
  unfold Qmax, GenericMinMax.gmax. destruct (a ?= b); auto.
Qed.

Lemma clip01_le (q x : Q) : 0 <= q < 1 -> (clip01 x <= q <-> x <= q).
Proof.
  intro Hq. unfold clip01.
  pose proof (Q.le_max_l x 0). pose proof (Q.le_max_r x 0).
  pose proof (Q.le_min_l (Qmax x 0) 1).
  destruct (Qmin_cases (Qmax x 0) 1) as [E|E]; rewrite E in *;
    destruct (Qmax_cases x 0) as [F|F]; rewrite F in *; lra.
Qed.

Lemma clip01_range (x : Q) : 0 <= clip01 x <= 1.
Proof.
  unfold clip01.
  pose proof (Q.le_max_r x 0). pose proof (Q.le_min_r (Qmax x 0) 1).
  destruct (Qmin_cases (Qmax x 0) 1) as [E|E]; rewrite E in *; lra.
Qed.

(** ** The level of [select_model_fdr] against the rescaled bounds *)

Lemma Qeq_bool_false_pos (x : Q) : 0 < x -> Qeq_bool x 0 = false.
Proof.
  intro H. destruct (Qeq_bool x 0) eqn:E; [|reflexivity].
  apply Qeq_bool_iff in E. rewrite E in H. discriminate.
Qed.

Lemma fdr_level_spec (np_log : Q -> Q) (p : nat) (q : Q) (ind norm : bool) :
  (1 <= p)%nat -> 0 < q < 1 -> (ind = false -> 0 <= np_log (Qnat p)) ->
  (forall v, Qle_bool (clip01 (bound_scale np_log p ind norm v)) q
             = ele v (fdr_level np_log p q ind norm)) /\
  ((exists t, 0 < t /\ fdr_level np_log p q ind norm = Fin t)
   \/ fdr_level np_log p q ind norm = PosInf).
Proof.
  intros Hp Hq Hlog.
  pose proof (Qnat_pos p Hp) as HP.
  assert (HPb : Qeq_bool (Qnat p) 0 = false) by (apply Qeq_bool_false_pos; exact HP).
  assert (Hqlt : 0 <= q < 1) by lra.
  unfold bound_scale, fdr_level. destruct ind.
  - destruct norm; cbn [ediv]; rewrite ?HPb; split.
    + intro v. apply bool_iff. rewrite Qle_bool_iff, clip01_le by exact Hqlt.
      simpl. rewrite Qle_bool_iff. apply Qle_mul_div. exact HP.
    + left. exists (q / Qnat p). split; [apply Qdiv_pos; lra|reflexivity].
    + intro v. apply bool_iff. rewrite Qle_bool_iff, clip01_le by exact Hqlt.
      simpl. rewrite Qle_bool_iff. reflexivity.
    + left. exists q. split; [lra|reflexivity].
  - specialize (Hlog eq_refl). set (L := np_log (Qnat p)) in *.
    destruct (Qeq_bool L 0) eqn:EL.
    + pose proof EL as EL'. apply Qeq_bool_iff in EL'.
      assert (Hq0 : Qpos_b q = true).
      { unfold Qpos_b. destruct (Qle_bool q 0) eqn:E; [|reflexivity].
        apply Qle_bool_iff in E. lra. }
      assert (HPn : Qneg_b (Qnat p) = false).
      { unfold Qneg_b. destruct (Qle_bool 0 (Qnat p)) eqn:E; [reflexivity|].
        apply Qle_bool_false in E. lra. }
      cbn [ediv]. rewrite EL, Hq0.
      destruct norm; cbn [ediv]; rewrite ?HPn; (split; [intro v|right; reflexivity]);
        apply bool_iff; rewrite Qle_bool_iff, clip01_le by exact Hqlt; simpl;
        (split; [intros _; reflexivity|intros _]);
        [setoid_replace (v * Qnat p * L) with 0 by (rewrite EL'; ring)
        |setoid_replace (v * L) with 0 by (rewrite EL'; ring)]; lra.
    + assert (HL : 0 < L).
      { destruct (Qlt_le_dec 0 L) as [H|H]; [exact H|].
        assert (L == 0) by lra. apply Qeq_bool_iff in H0. congruence. }
      cbn [ediv]. rewrite EL.
      destruct norm; cbn [ediv]; rewrite ?HPb; split.
      * intro v. apply bool_iff. rewrite Qle_bool_iff, clip01_le by exact Hqlt.
        simpl. rewrite Qle_bool_iff, Qle_mul_div by exact HL.
        apply Qle_mul_div. exact HP.
      * left. exists (q / L / Qnat p).
        split; [apply Qdiv_pos; [apply Qdiv_pos|]; lra|reflexivity].
      * intro v. apply bool_iff. rewrite Qle_bool_iff, clip01_le by exact Hqlt.
        simpl. rewrite Qle_bool_iff. apply Qle_mul_div. exact HL.
      * left. exists (q / L). split; [apply Qdiv_pos; lra|reflexivity].
Qed.

(** ** The two FDR procedures read on the sorted p-values *)

(** Away from the ZeroDivisionError of [q / 0], [select_model_fdr] compares
    the rank-divided sorted p-values with the level [fdr_level]. *)
Lemma select_model_fdr_level (np_log : Q -> Q) (pvalues : list Q) (q : Q)
    (ind norm : bool) :
  (pvalues <> [] \/ ind = false \/ norm = false) ->
  select_model_fdr np_log pvalues q ind norm =
  let pvalues_sorted :=
    zip_with Qdiv (np_sort pvalues) (arange 1 (length pvalues + 1)%nat) in
  let lev := fdr_level np_log (length pvalues) q ind norm in
  match (if forallb (fun v => egt v lev) pvalues_sorted then Some 0
         else match last_opt (where_ (fun v => ele v lev) pvalues_sorted 0) with
              | None => None
              | Some h => Some (nth h pvalues_sorted 0 * Qnat (h + 1)%nat)
              end) with
  | None => None
  | Some bound => Some (map (fun v => Qle_bool v bound) pvalues)
  end.
Proof.
  intro H. unfold select_model_fdr, fdr_level.
  destruct norm; [|destruct ind; reflexivity].
  destruct ind; [|reflexivity].
  destruct pvalues as [|x xs]; [|reflexivity].
  destruct H as [H|[H|H]]; [congruence|discriminate|discriminate].
Qed.

Lemma select_model_fdr_bounds_eq (np_log : Q -> Q) (xs : list Q) (ind norm : bool) :
  select_model_fdr_bounds np_log xs ind norm =
  map (fun b => clip01 (bound_scale np_log (length xs) ind norm b))
      (scatter (argsort xs)
         (sufmin (zip_with Qdiv (np_sort xs) (arange 1 (length xs + 1))))
         (repeat 0 (length xs))).
Proof.
  unfold select_model_fdr_bounds, select_model_fdr_bounds_unclipped. cbv zeta.
  rewrite argsort_map.
  set (s := zip_with Qdiv (np_sort xs) (arange 1 (length xs + 1))).
  assert (Hs : length s = length xs)
    by (unfold s; rewrite zip_with_length, np_sort_length, arange_length; lia).
  replace (length xs - 1)%nat with (length s - 1)%nat by lia.
  rewrite running_min_sufmin.
  unfold bound_scale. destruct ind, norm; rewrite ?map_map; reflexivity.
Qed.

(** On ascending values [Ss] with quotients [S_j / (j+1)], selecting the
    values up to the one of the last passing quotient (or up to 0 when no
    quotient passes) selects exactly the positions followed by a passing
    quotient. *)
Lemma fdr_core (Ss : list Q) (T : Q -> bool) (bound : Q) (HS : Sorted Qle Ss)
  (Tdown : forall a b, b <= a -> T a = true -> T b = true)
  (Tnonpos : forall v, v <= 0 -> T v = true)
  (Hb : ((forall j, (j < length Ss)%nat -> T (nth j Ss 0 / Qnat (S j)) = false)
         /\ bound = 0)
        \/ (exists h, (h < length Ss)%nat /\ T (nth h Ss 0 / Qnat (S h)) = true /\
             (forall j, (h < j < length Ss)%nat -> T (nth j Ss 0 / Qnat (S j)) = false) /\
             bound == nth h Ss 0))
  (k : nat) (Hk : (k < length Ss)%nat) :
  Qle_bool (nth k Ss 0) bound = true <->
  exists j, (k <= j < length Ss)%nat /\ T (nth j Ss 0 / Qnat (S j)) = true.
Proof.
  split.
  - intro Hle. apply Qle_bool_iff in Hle.
    destruct Hb as [[Hnone ->]|[h [Hh [ThT [Hmax Hbd]]]]].
    + exists k. split; [lia|]. apply Tnonpos.
      apply Qdiv_nonpos; [exact Hle|apply Qnat_pos; lia].
    + destruct (le_lt_dec k h) as [Hkh|Hhk].
      * exists h. split; [lia|exact ThT].
      * exists k. split; [lia|].
        assert (Hsk : nth h Ss 0 <= nth k Ss 0) by (apply sorted_nth_mono; auto; lia).
        rewrite Hbd in Hle.
        destruct (Qlt_le_dec 0 (nth k Ss 0)) as [Hpos|Hnp].
        -- apply (Tdown (nth h Ss 0 / Qnat (S h))); [|exact ThT].
           assert (E : nth k Ss 0 == nth h Ss 0) by lra.
           rewrite E. apply Qdiv_anti; [lra|apply Qnat_pos; lia|].
           unfold Qnat, Qle, inject_Z. simpl. lia.
        -- apply Tnonpos. apply Qdiv_nonpos; [exact Hnp|apply Qnat_pos; lia].
  - intros [j [Hj Tj]].
    destruct Hb as [[Hnone _]|[h [Hh [ThT [Hmax Hbd]]]]].
    + rewrite Hnone in Tj by lia. discriminate.
    + assert (Hjh : (j <= h)%nat).
      { destruct (le_lt_dec j h) as [H|H]; [exact H|].
        rewrite Hmax in Tj by lia. discriminate. }
      apply Qle_bool_iff. rewrite Hbd. apply sorted_nth_mono; auto; lia.
Qed.

(** ** The stand-in logarithm *)

Lemma atanh_terms_nonneg z z2 k K : 0 <= z -> 0 <= z2 -> 0 <= atanh_terms z z2 k K.
Proof.
  revert z k. induction K as [|K IH]; intros z k Hz Hz2; cbn [atanh_terms]; [lra|].
  rewrite Qred_correct.
  assert (0 <= z / Qnat (2 * k + 1)) by (apply Qdiv_nonneg; [exact Hz|apply Qnat_pos; lia]).
  assert (0 <= atanh_terms (Qred (z * z2)) z2 (S k) K)
    by (apply IH; [rewrite Qred_correct; nra|exact Hz2]).
  lra.
Qed.

Lemma ln_approx_nonneg x : 1 <= x -> 0 <= ln_approx x.
Proof.
  intro Hx. unfold ln_approx.
  assert (Hz : 0 <= Qred ((x - 1) / (x + 1)))
    by (rewrite Qred_correct; apply Qdiv_nonneg; lra).
  assert (0 <= atanh_terms (Qred ((x - 1) / (x + 1)))
                 (Qred (Qred ((x - 1) / (x + 1)) * Qred ((x - 1) / (x + 1)))) 0 12)
    by (apply atanh_terms_nonneg; [exact Hz|rewrite Qred_correct; nra]).
  lra.
Qed.

Lemma ln_approx_nonneg_nat m : (1 <= m)%nat -> 0 <= ln_approx (Qnat m).
Proof.
  intro Hm. apply ln_approx_nonneg. unfold Qnat, Qle, inject_Z. simpl. lia.
Qed.

(** ** Sorting is monotone *)

Lemma count_le_perm t l l' : Permutation l l' -> count_le t l = count_le t l'.
Proof.
  unfold count_le. induction 1; simpl.
  - reflexivity.
  - destruct (Qle_bool x t); simpl; congruence.
  - destruct (Qle_bool x t), (Qle_bool y t); reflexivity.
  - congruence.
Qed.

Lemma count_le_mono t a b : Forall2 Qle a b -> (count_le t b <= count_le t a)%nat.
Proof.
  unfold count_le. induction 1 as [|x y a b Hxy _ IH]; simpl; [lia|].
  destruct (Qle_bool y t) eqn:Ey, (Qle_bool x t) eqn:Ex; simpl; try lia.
  apply Qle_bool_iff in Ey. apply Qle_bool_false in Ex. exfalso. lra.
Qed.

Lemma count_le_zero t l : Forall (fun v => t < v) l -> count_le t l = O.
Proof.
  unfold count_le. induction 1 as [|x l Hx _ IH]; simpl; [reflexivity|].
  destruct (Qle_bool x t) eqn:E; [|exact IH].
  apply Qle_bool_iff in E. exfalso. lra.
Qed.

Lemma count_sorted_ge (Ss : list Q) k :
  StronglySorted Qle Ss -> (k < length Ss)%nat -> (S k <= count_le (nth k Ss 0)%Q Ss)%nat.
Proof.
  revert k. induction Ss as [|x Ss IH]; intros k HS Hk; simpl in Hk; [lia|].
  inversion HS as [|? ? HS' Hx]; subst. unfold count_le; simpl.
  destruct k as [|k].
  - simpl. destruct (Qle_bool x x) eqn:E; simpl; [lia|].
    apply Qle_bool_false in E. exfalso. lra.
  - simpl. assert (Hxk : x <= nth k Ss 0).
    { rewrite Forall_forall in Hx. apply Hx, nth_In. lia. }
    apply Qle_bool_iff in Hxk. rewrite Hxk. simpl.
    specialize (IH k HS' ltac:(lia)). unfold count_le in IH. lia.
Qed.

Lemma count_sorted_le (Ss : list Q) k t :
  StronglySorted Qle Ss -> (k < length Ss)%nat -> (S k <= count_le t Ss)%nat ->
  nth k Ss 0 <= t.
Proof.
  revert k. induction Ss as [|x Ss IH]; intros k HS Hk Hc; simpl in Hk; [lia|].
  inversion HS as [|? ? HS' Hx]; subst. unfold count_le in Hc; simpl in Hc.
  destruct (Qle_bool x t) eqn:E.
  - destruct k as [|k]; simpl; [apply Qle_bool_iff; exact E|].
    apply IH; [exact HS'|lia|]. unfold count_le. simpl in Hc. lia.
  - exfalso. apply Qle_bool_false in E.
    assert (Hz : count_le t Ss = O).
    { apply count_le_zero. rewrite Forall_forall in *. intros v Hv.
      specialize (Hx v Hv). lra. }
    unfold count_le in Hz. lia.
Qed.

Lemma Forall2_nth_intro {A B} (R : A -> B -> Prop) (l : list A) (l' : list B) d d' :
  length l = length l' ->
  (forall i, (i < length l)%nat -> R (nth i l d) (nth i l' d')) -> Forall2 R l l'.
Proof.
  revert l'. induction l as [|x l IH]; intros [|y l'] Hl H; simpl in *;
    try discriminate; constructor.
  - apply (H O). lia.
  - apply IH; [lia|]. intros i Hi. apply (H (S i)). lia.
Qed.

Lemma np_sort_sstrong (l : list Q) : StronglySorted Qle (np_sort l).
Proof.
  apply Sorted_StronglySorted; [exact Qle_trans|apply np_sort_sorted].
Qed.

Lemma np_sort_mono a b : Forall2 Qle a b -> Forall2 Qle (np_sort a) (np_sort b).
Proof.
  intro Hab. pose proof (Forall2_length Hab) as Hl.
  apply Forall2_nth_intro with (d := 0) (d' := 0).
  { rewrite !np_sort_length. exact Hl. }
  intros k Hk. rewrite np_sort_length in Hk.
  apply count_sorted_le; [apply np_sort_sstrong|rewrite np_sort_length; exact Hk|].
  set (t := nth k (np_sort b) 0).
  pose proof (count_sorted_ge (np_sort b) k (np_sort_sstrong b)
                ltac:(rewrite np_sort_length; lia)) as H1. fold t in H1.
  rewrite <- (count_le_perm t _ _ (np_sort_perm b)) in H1.
  rewrite <- (count_le_perm t _ _ (np_sort_perm a)).
  pose proof (count_le_mono t a b Hab). lia.
Qed.

(** ** Column operations of the aggregators *)

Lemma Forall2_nth_le a b j : Forall2 Qle a b -> nth j a 0 <= nth j b 0.
Proof.
  intro H. revert j. induction H as [|x y a b Hxy _ IH]; intros [|j]; simpl;
    auto; apply Qle_refl.
Qed.

Lemma column_mono A B j :
  Forall2 (Forall2 Qle) A B -> Forall2 Qle (column A j) (column B j).
Proof.
  unfold column. induction 1; simpl; constructor; auto using Forall2_nth_le.
Qed.

Lemma ncols_eq A B : Forall2 (Forall2 Qle) A B -> ncols A = ncols B.
Proof. destruct 1; simpl; [reflexivity|]. eapply Forall2_length; eassumption. Qed.

Lemma skipn_Forall2 {A} (R : A -> A -> Prop) k a b :
  Forall2 R a b -> Forall2 R (skipn k a) (skipn k b).
Proof.
  intro H. revert k. induction H; intros [|k]; simpl; auto.
Qed.

Lemma zip_div_mono a b gs :
  Forall2 Qle a b -> Forall (fun g => 0 <= g) gs ->
  Forall2 Qle (zip_with Qdiv a gs) (zip_with Qdiv b gs).
Proof.
  intro H. revert gs. induction H as [|x y a b Hxy _ IH]; intros [|g gs] Hg;
    simpl; constructor.
  - inversion Hg; subst. unfold Qdiv.
    assert (0 <= / g) by (apply Qinv_le_0_compat; assumption). nra.
  - inversion Hg; subst. apply IH. assumption.
Qed.

Lemma gamma_array_nonneg n k : Forall (fun g => 0 <= g) (gamma_array n k).
Proof.
  unfold gamma_array, arange. apply Forall_forall. intros g Hg.
  apply in_map_iff in Hg. destruct Hg as [r [<- Hr]].
  apply in_map_iff in Hr. destruct Hr as [m [<- _]].
  assert (0 <= / Qnat n) by (apply Qinv_le_0_compat, Qnat_nonneg).
  pose proof (Qnat_nonneg m). unfold Qdiv. nra.
Qed.

Lemma fold_min_mono l l' x x' :
  Forall2 Qle l l' -> x <= x' -> fold_left Qmin l x <= fold_left Qmin l' x'.
Proof.
  intro H. revert x x'. induction H; intros; simpl; auto.
  apply IHForall2. apply Q.min_le_compat; assumption.
Qed.

Lemma col_min_mono l l' : Forall2 Qle l l' -> col_min l <= col_min l'.
Proof. destruct 1; simpl; [apply Qle_refl|]. apply fold_min_mono; assumption. Qed.

Lemma clip01_mono x y : x <= y -> clip01 x <= clip01 y.
Proof.
  intro H. unfold clip01. apply Q.min_le_compat_r, Q.max_le_compat_r. exact H.
Qed.

Lemma sorted_quotients_mono gamma_min A B j :
  Forall2 (Forall2 Qle) A B ->
  Forall2 Qle (sorted_quotients gamma_min A j) (sorted_quotients gamma_min B j).
Proof.
  intro H. unfold sorted_quotients. rewrite (Forall2_length H).
  apply zip_div_mono; [|apply gamma_array_nonneg].
  apply skipn_Forall2, np_sort_mono, column_mono, H.
Qed.

Lemma fold_min_compat l l' x x' :
  Forall2 Qeq l l' -> x == x' -> fold_left Qmin l x == fold_left Qmin l' x'.
Proof.
  intro H. revert x x'. induction H; intros; simpl; auto.
  apply IHForall2. apply Q.min_compat; assumption.
Qed.

Lemma col_min_compat l l' : Forall2 Qeq l l' -> col_min l == col_min l'.
Proof. destruct 1; simpl; [reflexivity|]. apply fold_min_compat; assumption. Qed.

Lemma clip01_compat x y : x == y -> clip01 x == clip01 y.
Proof.
  intro H. unfold clip01. apply Q.min_compat; [apply Q.max_compat|]; auto; reflexivity.
Qed.

Lemma Forall2_map_same {A} (R : Q -> Q -> Prop) (f g : A -> Q) (l : list A) :
  (forall x, In x l -> R (f x) (g x)) -> Forall2 R (map f l) (map g l).
Proof. induction l; simpl; intros; constructor; auto. Qed.

Lemma Qnat_neq0 n : (1 <= n)%nat -> ~ Qnat n == 0.
Proof. intro H. apply Qnot_eq_sym, Qlt_not_eq, Qnat_pos, H. Qed.

Lemma py_int_nonneg x : 0 <= x -> py_int x = Qfloor x.
Proof. intro H. unfold py_int. apply Qle_bool_iff in H. rewrite H. reflexivity. Qed.

Lemma kmin_default n :
  kmin_of (1 # 20) n = Nat.max 1 (Z.to_nat (Qfloor ((1 # 20) * Qnat n))).
Proof.
  unfold kmin_of. rewrite py_int_nonneg; [reflexivity|].
  pose proof (Qnat_nonneg n). assert (0 <= 1 # 20) by (apply Qle_bool_iff; reflexivity).
  nra.
Qed.

Lemma kmin_default_lt n :
  (2 <= n)%nat -> (kmin_of (1 # 20) n < n)%nat.
Proof.
  intro Hn. rewrite kmin_default.
  change (Qfloor ((1 # 20) * Qnat n)) with (1 * Z.of_nat n / 20)%Z.
  pose proof (Z.div_mod (1 * Z.of_nat n) 20 ltac:(lia)).
  pose proof (Z.mod_pos_bound (1 * Z.of_nat n) 20 ltac:(lia)). lia.
Qed.

Lemma length_column M j : length (column M j) = length M.
Proof. unfold column. apply length_map. Qed.

Lemma map_opt_none {A B} (f : A -> option B) (l : list A) (x : A) :
  In x l -> f x = None -> map_opt f l = None.
Proof.
  induction l as [|y l IH]; simpl; intros Hin Hf; [contradiction|].
  destruct Hin as [<-|Hin]; [rewrite Hf; reflexivity|].
  destruct (f y); [|reflexivity]. rewrite (IH Hin Hf). reflexivity.
Qed.

(** ** Shuffling, [choice] and [sort] *)

Lemma map_opt_nth_error {A B} (f : A -> option B) (l : list A) (r : list B) i x :
  map_opt f l = Some r -> nth_error l i = Some x ->
  exists y, f x = Some y /\ nth_error r i = Some y.
Proof.
  revert r i. induction l as [|a l IH]; intros r i H Hi; [destruct i; discriminate|].
  cbn in H. destruct (f a) as [b|] eqn:Ef; [|discriminate].
  destruct (map_opt f l) as [r'|] eqn:Er; [|discriminate].
  injection H as <-. destruct i as [|i]; cbn in Hi |- *.
  - injection Hi as <-. exists b. split; [exact Ef|reflexivity].
  - exact (IH r' i eq_refl Hi).
Qed.

Lemma nth_error_set_nth_eq {A} (l : list A) i v :
  (i < length l)%nat -> nth_error (set_nth l i v) i = Some v.
Proof.
  revert i; induction l as [|x l IH]; intros [|i] H; simpl in *; try lia; auto.
  apply IH. lia.
Qed.

Lemma nth_error_set_nth_neq {A} (l : list A) i k v :
  i <> k -> nth_error (set_nth l i v) k = nth_error l k.
Proof.
  revert i k; induction l as [|x l IH]; intros [|i] [|k] H; simpl; auto; try lia.
Qed.

Lemma swap_perm (x : list nat) i j :
  (i < length x)%nat -> (j < length x)%nat -> Permutation x (swap x i j).
Proof.
  intros Hi Hj. apply Permutation_nth_error. unfold swap.
  split; [rewrite !length_set_nth; reflexivity|].
  exists (fun k => if (k =? i)%nat then j else if (k =? j)%nat then i else k).
  split.
  - intros a b. destruct (Nat.eqb_spec a i), (Nat.eqb_spec a j),
      (Nat.eqb_spec b i), (Nat.eqb_spec b j); lia.
  - intro k. destruct (Nat.eqb_spec k j) as [->|Hkj].
    + rewrite nth_error_set_nth_eq by (rewrite length_set_nth; exact Hj).
      destruct (Nat.eqb_spec j i) as [->|Hji]; rewrite ?Nat.eqb_refl;
        symmetry; apply nth_error_nth'; assumption.
    + rewrite nth_error_set_nth_neq by congruence.
      destruct (Nat.eqb_spec k i) as [->|Hki].
      * rewrite nth_error_set_nth_eq by exact Hi.
        symmetry; apply nth_error_nth'; assumption.
      * rewrite nth_error_set_nth_neq by congruence. reflexivity.
Qed.

Lemma rk_interval_loop_bound fuel max mask s v s' :
  (0 <= mask)%Z -> rk_interval_loop fuel max mask s = Some (v, s') ->
  (0 <= v <= max)%Z.
Proof.
  revert s; induction fuel as [|f IH]; intros s Hm H; cbn [rk_interval_loop] in H;
    [discriminate|].
  destruct (rk_random s) as [r s1]. cbv zeta in H.
  destruct (Z.ltb_spec max (Z.land r mask)); [eapply IH; eauto|].
  injection H as <- <-. split; [apply Z.land_nonneg; right; exact Hm|assumption].
Qed.

Lemma rk_interval_bound max s v s' :
  (0 <= max)%Z -> rk_interval max s = Some (v, s') -> (0 <= v <= max)%Z.
Proof.
  intros Hm H. unfold rk_interval in H.
  destruct (Z.eqb_spec max 0) as [->|_]; [injection H as <- <-; lia|].
  eapply rk_interval_loop_bound; [|exact H].
  repeat (apply Z.lor_nonneg; split; [|apply Z.shiftr_nonneg]); exact Hm.
Qed.

Lemma shuffle_loop_perm i x s x' s' :
  (i < length x)%nat -> shuffle_loop i x s = Some (x', s') -> Permutation x x'.
Proof.
  revert x s; induction i as [|i IH]; intros x s Hi H; cbn [shuffle_loop] in H.
  - injection H as <- <-. reflexivity.
  - destruct (rk_interval (Z.of_nat (S i)) s) as [[j s1]|] eqn:E; [|discriminate].
    apply rk_interval_bound in E; [|lia].
    assert (Hs : Permutation x (swap x (S i) (Z.to_nat j))) by (apply swap_perm; lia).
    rewrite Hs. apply (IH _ s1); [|exact H].
    rewrite <- (Permutation_length Hs). lia.
Qed.

Lemma permutation_perm n s l s' :
  permutation n s = Some (l, s') -> Permutation (seq 0 n) l.
Proof.
  unfold permutation. destruct n as [|n].
  - simpl. intro H. injection H as <- <-. reflexivity.
  - apply shuffle_loop_perm. rewrite length_seq. lia.
Qed.

Lemma in_firstn_in {A} (a : A) k l : In a (firstn k l) -> In a l.
Proof. intro H. rewrite <- (firstn_skipn k l). apply in_or_app. left. exact H. Qed.

Lemma NoDup_firstn' {A} (l : list A) k : NoDup l -> NoDup (firstn k l).
Proof.
  revert k; induction l as [|x l IH]; intros [|k] H; simpl; [constructor..|].
  inversion H; subst. constructor; [|apply IH; assumption].
  intro Hin. apply in_firstn_in in Hin. contradiction.
Qed.

Lemma choice_spec s a size l s' :
  choice s a size = Some (l, s') ->
  length l = Z.to_nat (py_int size) /\ NoDup l /\ Forall (fun i => (i < a)%nat) l.
Proof.
  unfold choice. destruct (a =? 0)%nat; [discriminate|].
  destruct (Z.ltb_spec (py_int size) 0) as [_|Hk0]; [discriminate|].
  destruct (Z.ltb_spec (Z.of_nat a) (py_int size)) as [_|Hka]; [discriminate|].
  destruct (permutation a s) as [[perm s1]|] eqn:E; [|discriminate].
  intro Hc. injection Hc as <- <-. apply permutation_perm in E.
  split; [|split].
  - rewrite length_firstn, <- (Permutation_length E), length_seq. lia.
  - apply NoDup_firstn'. eapply Permutation_NoDup; [exact E|apply seq_NoDup].
  - apply Forall_forall. intros i Hi. apply in_firstn_in in Hi.
    apply (Permutation_in _ (Permutation_sym E)), in_seq in Hi. lia.
Qed.

Lemma insert_nat_perm x l : Permutation (x :: l) (insert_nat x l).
Proof.
  induction l as [|y l IH]; simpl; [reflexivity|].
  destruct (x <=? y)%nat; [reflexivity|].
  rewrite perm_swap. constructor. exact IH.
Qed.

Lemma insert_nat_sorted x l : Sorted le l -> Sorted le (insert_nat x l).
Proof.
  induction 1 as [|y l Hl IH Hhd]; simpl.
  - repeat constructor.
  - destruct (Nat.leb_spec x y).
    + constructor; [constructor; assumption|]. constructor. assumption.
    + constructor; [exact IH|].
      destruct l as [|z l]; simpl.
      * constructor. lia.
      * inversion Hhd; subst.
        destruct (x <=? z)%nat; constructor; [lia|assumption].
Qed.

Lemma sort_nat_perm l : Permutation l (sort_nat l).
Proof.
  induction l as [|x l IH]; simpl; [reflexivity|].
  rewrite <- insert_nat_perm. constructor. exact IH.
Qed.

Lemma sort_nat_sorted l : Sorted le (sort_nat l).
Proof. induction l; simpl; [constructor|apply insert_nat_sorted; assumption]. Qed.

Lemma store_row_same {A} w (v r : list A) :
  length v = w -> store_row w v = Some r -> r = v.
Proof.
  intros Hl H. unfold store_row in H. rewrite Hl, Nat.eqb_refl in H.
  injection H as <-. reflexivity.
Qed.

(** ** The loop of [fit] *)

Ltac split_matches :=
  repeat match goal with
         | |- context [match ?x with _ => _ end] => destruct x eqn:?; cbn
         end.

Section FitLemmas.

Variable standardize : list (list Q) -> option (list (list Q) * list Q).
Variable agglomerate : list (list Q) -> Z -> option (list nat).
Variable lasso : Q -> list (list Q) -> list Q -> option (list Q).

Lemma fit_split_config X y n p m :
  fit_config (fst (fit_split agglomerate lasso X y n p m)) = fit_config m.
Proof.
  unfold fit_split, bind, get, lift, modify, ret. cbn.
  split_matches; reflexivity.
Qed.

Lemma fit_loop_config k X y n p m :
  fit_config (fst (fit_loop agglomerate lasso k X y n p m)) = fit_config m.
Proof.
  revert m; induction k as [|k IH]; intro m; [reflexivity|].
  cbn [fit_loop]. unfold bind at 1.
  pose proof (fit_split_config X y n p m) as H.
  destruct (fit_split agglomerate lasso X y n p m) as [m1 [r|]]; [|exact H].
  unfold bind. specialize (IH m1).
  destruct (fit_loop agglomerate lasso k X y n p m1) as [m2 [rs|]];
    simpl in *; congruence.
Qed.

Lemma sort_nat_subset k n l :
  length l = k -> NoDup l -> Forall (fun i => (i < n)%nat) l ->
  subset_ok k n (sort_nat l).
Proof.
  intros Hl Hnd Hlt. pose proof (sort_nat_perm l) as Hp.
  split; [|split; [|split]].
  - rewrite <- (Permutation_length Hp). exact Hl.
  - eapply Permutation_NoDup; eassumption.
  - apply sort_nat_sorted.
  - apply Forall_forall. intros i Hi. rewrite Forall_forall in Hlt.
    apply Hlt. eapply Permutation_in; [symmetry; exact Hp|exact Hi].
Qed.

Lemma fit_split_row X y n p m m' b s c :
  fit_split agglomerate lasso X y n p m = (m', Some (b, s, c)) ->
  exists size, size_split (attrs m) = Some size /\
               subset_ok (Z.to_nat (py_int size)) n s.
Proof.
  unfold fit_split, bind, get, lift, modify, ret. cbn.
  destruct (size_split (attrs m)) as [size|]; [|discriminate].
  destruct (n_clusters_ (attrs m)); [|discriminate].
  destruct (choice (generator m) n size) as [[split g]|] eqn:Ec; [|discriminate].
  apply choice_spec in Ec as (Hl & Hnd & Hlt).
  split_matches; intro H; try discriminate.
  injection H as _ _ <- _. exists size. split; [reflexivity|].
  match goal with
  | Hs : store_row _ (sort_nat split) = Some _ |- _ =>
      apply store_row_same in Hs; [subst|]
  end.
  - apply sort_nat_subset; assumption.
  - rewrite <- (Permutation_length (sort_nat_perm split)). exact Hl.
Qed.

Lemma fit_loop_rows k X y n p m m' rows size :
  size_split (attrs m) = Some size ->
  fit_loop agglomerate lasso k X y n p m = (m', Some rows) ->
  length rows = k /\
  Forall (fun r => subset_ok (Z.to_nat (py_int size)) n (snd (fst r))) rows.
Proof.
  revert m m' rows; induction k as [|k IH]; intros m m' rows Hs H.
  - injection H as _ <-. split; constructor.
  - cbn [fit_loop] in H. unfold bind at 1 in H.
    pose proof (fit_split_config X y n p m) as Hc.
    destruct (fit_split agglomerate lasso X y n p m) as [m1 [[[b s] c]|]] eqn:E1;
      [|discriminate].
    apply fit_split_row in E1 as (size' & Hs' & Hok).
    rewrite Hs in Hs'. injection Hs' as <-.
    unfold fit_config in Hc. simpl in Hc. injection Hc as _ _ _ _ _ Hs1 _.
    rewrite Hs in Hs1.
    unfold bind in H.
    destruct (fit_loop agglomerate lasso k X y n p m1) as [m2 [rs|]] eqn:E2;
      [|discriminate].
    injection H as _ <-. destruct (IH m1 m2 rs Hs1 E2) as [Hl Hf].
    split; [simpl; congruence|constructor; assumption].
Qed.

Lemma fit_split_view X y n p m1 m2 :
  fit_view m1 = fit_view m2 ->
  snd (fit_split agglomerate lasso X y n p m1)
    = snd (fit_split agglomerate lasso X y n p m2) /\
  fit_view (fst (fit_split agglomerate lasso X y n p m1))
    = fit_view (fst (fit_split agglomerate lasso X y n p m2)).
Proof.
  destruct m1 as [t1 ns1 r1 c1 g1 [i1 s1 k1 so1 b1 sp1 cl1 co1]],
           m2 as [t2 ns2 r2 c2 g2 [i2 s2 k2 so2 b2 sp2 cl2 co2]].
  unfold fit_view, fit_config. cbn. intro H. injection H as -> -> -> -> -> -> -> -> ->.
  unfold fit_split, bind, get, lift, modify, ret, set_generator, set_attrs, with_soln.
  cbn. split_matches; split; reflexivity.
Qed.

Lemma fit_loop_view k X y n p m1 m2 :
  fit_view m1 = fit_view m2 ->
  snd (fit_loop agglomerate lasso k X y n p m1)
    = snd (fit_loop agglomerate lasso k X y n p m2) /\
  fit_view (fst (fit_loop agglomerate lasso k X y n p m1))
    = fit_view (fst (fit_loop agglomerate lasso k X y n p m2)).
Proof.
  revert m1 m2; induction k as [|k IH]; intros m1 m2 H; [split; [reflexivity|exact H]|].
  cbn [fit_loop]. unfold bind.
  destruct (fit_split_view X y n p m1 m2 H) as [Hs Hv].
  destruct (fit_split agglomerate lasso X y n p m1) as [m1' [r|]],
           (fit_split agglomerate lasso X y n p m2) as [m2' [r'|]];
    simpl in Hs, Hv; try discriminate; [|split; [reflexivity|exact Hv]].
  injection Hs as <-.
  destruct (IH m1' m2' Hv) as [Hs' Hv'].
  destruct (fit_loop agglomerate lasso k X y n p m1') as [m1'' [rs|]],
           (fit_loop agglomerate lasso k X y n p m2') as [m2'' [rs'|]];
    simpl in Hs', Hv'; try discriminate; [|split; [reflexivity|exact Hv']].
  injection Hs' as <-. split; [reflexivity|exact Hv'].
Qed.

End FitLemmas.

(** ** The FDR mask through the bounds *)

Lemma select_model_fdr_as_bounds (np_log : Q -> Q) (pvalues : list Q) (q : Q)
    (independent normalize : bool)
    (Hlog : forall m : nat, (1 <= m)%nat -> 0 <= np_log (Qnat m))
    (Hq : 0 < q < 1)
    (Hdef : pvalues <> [] \/ independent = false \/ normalize = false) :
  select_model_fdr np_log pvalues q independent normalize
  = Some (map (fun b => Qle_bool b q)
              (select_model_fdr_bounds np_log pvalues independent normalize)).
Proof.
  destruct pvalues as [|x0 xs0] eqn:Ep.
  { destruct Hdef as [H | [ -> | -> ]];
      [congruence|destruct normalize; reflexivity|destruct independent; reflexivity]. }
  rewrite <- Ep.
  set (n := length pvalues).
  assert (Hn : (1 <= n)%nat) by (unfold n; rewrite Ep; simpl; lia).
  destruct (fdr_level_spec np_log n q independent normalize Hn Hq (fun _ => Hlog n Hn))
    as [Hscale Hgood].
  set (lev := fdr_level np_log n q independent normalize) in *.
  set (T := fun v => ele v lev).
  assert (Tdown : forall a b, b <= a -> T a = true -> T b = true).
  { intros a b Hab Ha. unfold T in *.
    destruct Hgood as [[t [Ht ->]] | ->]; simpl in *; [|reflexivity].
    apply Qle_bool_iff. apply Qle_bool_iff in Ha. lra. }
  assert (Tnonpos : forall v, v <= 0 -> T v = true).
  { intros v Hv. unfold T. destruct Hgood as [[t [Ht ->]] | ->]; simpl; [|reflexivity].
    apply Qle_bool_iff. lra. }
  assert (Hegt : forall v, egt v lev = negb (T v)).
  { intro v. unfold T. destruct Hgood as [[t [Ht ->]] | ->]; reflexivity. }
  set (Ss := np_sort pvalues).
  assert (HS : Sorted Qle Ss) by apply np_sort_sorted.
  assert (HSl : length Ss = n) by apply np_sort_length.
  set (s := zip_with Qdiv Ss (arange 1 (n + 1))).
  assert (Hsl : length s = n)
    by (unfold s; rewrite zip_with_length, HSl, arange_length; lia).
  assert (Hs : forall j, (j < n)%nat -> nth j s 0 = nth j Ss 0 / Qnat (S j)).
  { intros j Hj. unfold s. rewrite nth_zip_with with (d1 := 0) (d2 := 0)
      by (rewrite ?HSl, ?arange_length; lia).
    rewrite nth_arange1 by exact Hj. reflexivity. }
  set (bound := if forallb (fun v => egt v lev) s then Some 0
                else match last_opt (where_ (fun v => ele v lev) s 0) with
                     | None => None
                     | Some h => Some (nth h s 0 * Qnat (h + 1))
                     end).
  assert (E : select_model_fdr np_log pvalues q independent normalize
              = match bound with
                | None => None
                | Some b => Some (map (fun v => Qle_bool v b) pvalues)
                end)
    by (rewrite select_model_fdr_level by (left; rewrite Ep; discriminate);
        reflexivity).
  rewrite E. clear E.
  (* the bound of the step-up procedure *)
  assert (Hb : exists b, bound = Some b /\
     (((forall j, (j < n)%nat -> T (nth j Ss 0 / Qnat (S j)) = false) /\ b = 0)
      \/ (exists h, (h < n)%nat /\ T (nth h Ss 0 / Qnat (S h)) = true /\
           (forall j, (h < j < n)%nat -> T (nth j Ss 0 / Qnat (S j)) = false) /\
           b == nth h Ss 0))).
  { unfold bound. destruct (forallb (fun v => egt v lev) s) eqn:Ef.
    - exists 0. split; [reflexivity|left; split; [|reflexivity]].
      intros j Hj. rewrite <- Hs by exact Hj.
      rewrite forallb_forall in Ef.
      assert (Hin : In (nth j s 0) s) by (apply nth_In; lia).
      specialize (Ef _ Hin). rewrite Hegt in Ef. destruct (T (nth j s 0)); easy.
    - assert (Hex : exists k, (k < n)%nat /\ T (nth k s 0) = true).
      { apply Bool.not_true_iff_false in Ef. rewrite forallb_forall in Ef.
        destruct (Forall_dec (fun v => egt v lev = true)
                    (fun v => Bool.bool_dec (egt v lev) true) s) as [Hall|Hnot].
        - exfalso. apply Ef. intros v Hv. rewrite Forall_forall in Hall. auto.
        - apply neg_Forall_Exists_neg in Hnot; [|intro v; apply Bool.bool_dec].
          apply Exists_exists in Hnot. destruct Hnot as [v [Hv Hne]].
          apply In_nth with (d := 0) in Hv. destruct Hv as [k [Hk <-]].
          exists k. split; [lia|]. rewrite Hegt in Hne.
          destruct (T (nth k s 0)); [reflexivity|exfalso; apply Hne; reflexivity]. }
      destruct Hex as [k [Hk Tk]].
      unfold where_. rewrite Hsl.
      destruct (last_opt_filter_seq_exists (fun k => ele (nth k s 0) lev) n k Hk Tk)
        as [h Hh]. rewrite Hh.
      destruct (last_opt_filter_seq _ _ _ Hh) as [Hhn [Th Hmax]].
      exists (nth h s 0 * Qnat (h + 1)). split; [reflexivity|right].
      exists h. split; [exact Hhn|]. split; [rewrite <- Hs by exact Hhn; exact Th|].
      split.
      + intros j Hj. rewrite <- Hs by lia. apply Hmax. exact Hj.
      + rewrite Hs by exact Hhn. rewrite Nat.add_1_r.
        assert (0 < Qnat (S h)) by (apply Qnat_pos; lia).
        field. intro E0. rewrite E0 in H. discriminate. }
  destruct Hb as [b [-> Hb]]. f_equal.
  rewrite select_model_fdr_bounds_eq. fold n.
  fold Ss. fold s.
  set (perm := argsort pvalues).
  assert (Hperm : Permutation perm (seq 0 n)) by apply argsort_perm.
  assert (Hpl : length perm = n) by (rewrite (Permutation_length Hperm); apply length_seq).
  assert (Hkey : map (fun i => nth i pvalues 0) perm = Ss) by apply argsort_map.
  apply nth_ext with (d := false) (d' := false).
  { rewrite !length_map, scatter_length, repeat_length. reflexivity. }
  intros i Hi. rewrite length_map in Hi. fold n in Hi.
  assert (Hin : In i perm)
    by (apply Permutation_in with (l := seq 0 n); [symmetry; exact Hperm|apply in_seq; lia]).
  apply In_nth with (d := O) in Hin. destruct Hin as [k [Hk Hki]].
  rewrite Hpl in Hk.
  rewrite nth_map_lt with (d' := 0) by lia.
  rewrite nth_map_lt with (d' := 0)
    by (rewrite length_map, scatter_length, repeat_length; lia).
  rewrite nth_map_lt with (d' := 0) by (rewrite scatter_length, repeat_length; lia).
  rewrite Hscale. fold T.
  rewrite <- Hki, scatter_nth.
  2: { apply (Permutation_NoDup (l := seq 0 n)); [symmetry; exact Hperm|apply seq_NoDup]. }
  2: { rewrite sufmin_length, Hsl. exact Hpl. }
  2: { rewrite Hpl. exact Hk. }
  2: { rewrite repeat_length, Hki. lia. }
  assert (Hxk : nth (nth k perm O) pvalues 0 = nth k Ss 0).
  { rewrite <- Hkey. rewrite nth_map_lt with (d' := O) by lia. reflexivity. }
  rewrite Hxk.
  apply bool_iff.
  change (ele (nth k (sufmin s) 0) lev) with (T (nth k (sufmin s) 0)).
  rewrite (sufmin_nth T Tdown) by lia.
  rewrite (fdr_core Ss T b HS Tdown Tnonpos) by (rewrite ?HSl; assumption || lia).
  rewrite HSl, Hsl. split; intros [j [Hj Tj]]; exists j; split; try exact Hj;
    first [rewrite Hs by lia; exact Tj | rewrite <- Hs by lia; exact Tj].
Qed.

Lemma Forall2_map_both {A B C} (R : B -> C -> Prop) (f : A -> B) (g : A -> C)
    (l : list A) :
  (forall x, In x l -> R (f x) (g x)) -> Forall2 R (map f l) (map g l).
Proof. induction l; simpl; intros; constructor; auto. Qed.

Lemma select_model_fdr_shape (np_log : Q -> Q) pvalues q ind norm M :
  select_model_fdr np_log pvalues q ind norm = Some M ->
  exists bnd, M = map (fun v => Qle_bool v bnd) pvalues.
Proof.
  unfold select_model_fdr. cbv zeta.
  match goal with
  | |- match ?l with Some _ => _ | None => _ end = _ -> _ => destruct l as [lev|]
  end; [|discriminate].
  match goal with
  | |- match ?b with Some _ => _ | None => _ end = _ -> _ => destruct b as [bnd|]
  end; intro H; [|discriminate].
  injection H as <-. exists bnd. reflexivity.
Qed.

Lemma select_model_fdr_bounds_range_nth (np_log : Q -> Q) pvalues ind norm k :
  (k < length pvalues)%nat ->
  0 <= nth k (select_model_fdr_bounds np_log pvalues ind norm) 0 <= 1.
Proof.
  intro Hk. rewrite select_model_fdr_bounds_eq.
  rewrite nth_map_lt with (d' := 0)
    by (rewrite scatter_length, repeat_length; exact Hk).
  apply clip01_range.
Qed.

Lemma select_model_fdr_bounds_length (np_log : Q -> Q) pvalues ind norm :
  length (select_model_fdr_bounds np_log pvalues ind norm) = length pvalues.
Proof.
  rewrite select_model_fdr_bounds_eq, length_map, scatter_length, repeat_length.
  reflexivity.
Qed.

Lemma clip01_ge (a x : Q) : 0 < a <= 1 -> (a <= clip01 x <-> a <= x).
Proof.
  intro Ha. unfold clip01.
  pose proof (Q.le_max_l x 0). pose proof (Q.le_max_r x 0).
  pose proof (Q.le_min_l (Qmax x 0) 1). pose proof (Q.le_min_r (Qmax x 0) 1).
  destruct (Qmin_cases (Qmax x 0) 1) as [E|E]; rewrite E in *;
    destruct (Qmax_cases x 0) as [F|F]; rewrite F in *; lra.
Qed.

(* ================================================================== *)
(** * Claims *)

(** ** FDR selection *)

(** Claim C1, as written, fails on the empty vector with
    [independent=True] and [normalize=True]: [select_model_fdr] divides the
    float [q] by the int [p = 0] and raises ZeroDivisionError, while
    [select_model_fdr_bounds] returns an empty array. *)
Lemma select_model_fdr_bounds_equiv_cex :
  select_model_fdr ln_approx [] (1 # 10) true true = None /\
  select_model_fdr_bounds ln_approx [] true true = [].
Proof. split; reflexivity. Qed.

(** Claim C1, corrected: for every level [q] in (0,1) and every vector of
    p-values, nonempty or with [independent=False] or [normalize=False],
    with the same [independent] and [normalize] arguments, the mask of
    [select_model_fdr] is [{i : select_model_fdr_bounds(...)[i] <= q}]
    (here for any [np_log] that is nonnegative at 1, 2, 3, ...). *)
Theorem select_model_fdr_bounds_equiv (np_log : Q -> Q) (pvalues : list Q) (q : Q)
    (independent normalize : bool)
    (Hlog : forall m : nat, (1 <= m)%nat -> 0 <= np_log (Qnat m))
    (Hq : 0 < q < 1)
    (Hdef : pvalues <> [] \/ independent = false \/ normalize = false) :
  select_model_fdr np_log pvalues q independent normalize
  = Some (map (fun b => Qle_bool b q)
              (select_model_fdr_bounds np_log pvalues independent normalize)).
Proof.
  destruct pvalues as [|x0 xs0] eqn:Ep.
  { destruct Hdef as [H | [ -> | -> ]];
      [congruence|destruct normalize; reflexivity|destruct independent; reflexivity]. }
  rewrite <- Ep.
  set (n := length pvalues).
  assert (Hn : (1 <= n)%nat) by (unfold n; rewrite Ep; simpl; lia).
  destruct (fdr_level_spec np_log n q independent normalize Hn Hq (fun _ => Hlog n Hn))
    as [Hscale Hgood].
  set (lev := fdr_level np_log n q independent normalize) in *.
  set (T := fun v => ele v lev).
  assert (Tdown : forall a b, b <= a -> T a = true -> T b = true).
  { intros a b Hab Ha. unfold T in *.
    destruct Hgood as [[t [Ht ->]] | ->]; simpl in *; [|reflexivity].
    apply Qle_bool_iff. apply Qle_bool_iff in Ha. lra. }
  assert (Tnonpos : forall v, v <= 0 -> T v = true).
  { intros v Hv. unfold T. destruct Hgood as [[t [Ht ->]] | ->]; simpl; [|reflexivity].
    apply Qle_bool_iff. lra. }
  assert (Hegt : forall v, egt v lev = negb (T v)).
  { intro v. unfold T. destruct Hgood as [[t [Ht ->]] | ->]; reflexivity. }
  set (Ss := np_sort pvalues).
  assert (HS : Sorted Qle Ss) by apply np_sort_sorted.
  assert (HSl : length Ss = n) by apply np_sort_length.
  set (s := zip_with Qdiv Ss (arange 1 (n + 1))).
  assert (Hsl : length s = n)
    by (unfold s; rewrite zip_with_length, HSl, arange_length; lia).
  assert (Hs : forall j, (j < n)%nat -> nth j s 0 = nth j Ss 0 / Qnat (S j)).
  { intros j Hj. unfold s. rewrite nth_zip_with with (d1 := 0) (d2 := 0)
      by (rewrite ?HSl, ?arange_length; lia).
    rewrite nth_arange1 by exact Hj. reflexivity. }
  set (bound := if forallb (fun v => egt v lev) s then Some 0
                else match last_opt (where_ (fun v => ele v lev) s 0) with
                     | None => None
                     | Some h => Some (nth h s 0 * Qnat (h + 1))
                     end).
  assert (E : select_model_fdr np_log pvalues q independent normalize
              = match bound with
                | None => None
                | Some b => Some (map (fun v => Qle_bool v b) pvalues)
                end)
    by (rewrite select_model_fdr_level by (left; rewrite Ep; discriminate);
        reflexivity).
  rewrite E. clear E.
  (* the bound of the step-up procedure *)
  assert (Hb : exists b, bound = Some b /\
     (((forall j, (j < n)%nat -> T (nth j Ss 0 / Qnat (S j)) = false) /\ b = 0)
      \/ (exists h, (h < n)%nat /\ T (nth h Ss 0 / Qnat (S h)) = true /\
           (forall j, (h < j < n)%nat -> T (nth j Ss 0 / Qnat (S j)) = false) /\
           b == nth h Ss 0))).
  { unfold bound. destruct (forallb (fun v => egt v lev) s) eqn:Ef.
    - exists 0. split; [reflexivity|left; split; [|reflexivity]].
      intros j Hj. rewrite <- Hs by exact Hj.
      rewrite forallb_forall in Ef.
      assert (Hin : In (nth j s 0) s) by (apply nth_In; lia).
      specialize (Ef _ Hin). rewrite Hegt in Ef. destruct (T (nth j s 0)); easy.
    - assert (Hex : exists k, (k < n)%nat /\ T (nth k s 0) = true).
      { apply Bool.not_true_iff_false in Ef. rewrite forallb_forall in Ef.
        destruct (Forall_dec (fun v => egt v lev = true)
                    (fun v => Bool.bool_dec (egt v lev) true) s) as [Hall|Hnot].
        - exfalso. apply Ef. intros v Hv. rewrite Forall_forall in Hall. auto.
        - apply neg_Forall_Exists_neg in Hnot; [|intro v; apply Bool.bool_dec].
          apply Exists_exists in Hnot. destruct Hnot as [v [Hv Hne]].
          apply In_nth with (d := 0) in Hv. destruct Hv as [k [Hk <-]].
          exists k. split; [lia|]. rewrite Hegt in Hne.
          destruct (T (nth k s 0)); [reflexivity|exfalso; apply Hne; reflexivity]. }
      destruct Hex as [k [Hk Tk]].
      unfold where_. rewrite Hsl.
      destruct (last_opt_filter_seq_exists (fun k => ele (nth k s 0) lev) n k Hk Tk)
        as [h Hh]. rewrite Hh.
      destruct (last_opt_filter_seq _ _ _ Hh) as [Hhn [Th Hmax]].
      exists (nth h s 0 * Qnat (h + 1)). split; [reflexivity|right].
      exists h. split; [exact Hhn|]. split; [rewrite <- Hs by exact Hhn; exact Th|].
      split.
      + intros j Hj. rewrite <- Hs by lia. apply Hmax. exact Hj.
      + rewrite Hs by exact Hhn. rewrite Nat.add_1_r.
        assert (0 < Qnat (S h)) by (apply Qnat_pos; lia).
        field. intro E0. rewrite E0 in H. discriminate. }
  destruct Hb as [b [-> Hb]]. f_equal.
  rewrite select_model_fdr_bounds_eq. fold n.
  fold Ss. fold s.
  set (perm := argsort pvalues).
  assert (Hperm : Permutation perm (seq 0 n)) by apply argsort_perm.
  assert (Hpl : length perm = n) by (rewrite (Permutation_length Hperm); apply length_seq).
  assert (Hkey : map (fun i => nth i pvalues 0) perm = Ss) by apply argsort_map.
  apply nth_ext with (d := false) (d' := false).
  { rewrite !length_map, scatter_length, repeat_length. reflexivity. }
  intros i Hi. rewrite length_map in Hi. fold n in Hi.
  assert (Hin : In i perm)
    by (apply Permutation_in with (l := seq 0 n); [symmetry; exact Hperm|apply in_seq; lia]).
  apply In_nth with (d := O) in Hin. destruct Hin as [k [Hk Hki]].
  rewrite Hpl in Hk.
  rewrite nth_map_lt with (d' := 0) by lia.
  rewrite nth_map_lt with (d' := 0)
    by (rewrite length_map, scatter_length, repeat_length; lia).
  rewrite nth_map_lt with (d' := 0) by (rewrite scatter_length, repeat_length; lia).
  rewrite Hscale. fold T.
  rewrite <- Hki, scatter_nth.
  2: { apply (Permutation_NoDup (l := seq 0 n)); [symmetry; exact Hperm|apply seq_NoDup]. }
  2: { rewrite sufmin_length, Hsl. exact Hpl. }
  2: { rewrite Hpl. exact Hk. }
  2: { rewrite repeat_length, Hki. lia. }
  assert (Hxk : nth (nth k perm O) pvalues 0 = nth k Ss 0).
  { rewrite <- Hkey. rewrite nth_map_lt with (d' := O) by lia. reflexivity. }
  rewrite Hxk.
  apply bool_iff.
  change (ele (nth k (sufmin s) 0) lev) with (T (nth k (sufmin s) 0)).
  rewrite (sufmin_nth T Tdown) by lia.
  rewrite (fdr_core Ss T b HS Tdown Tnonpos) by (rewrite ?HSl; assumption || lia).
  rewrite HSl, Hsl. split; intros [j [Hj Tj]]; exists j; split; try exact Hj;
    first [rewrite Hs by lia; exact Tj | rewrite <- Hs by lia; exact Tj].
Qed.

(** Witness of [select_model_fdr_bounds_equiv], with the stand-in
    logarithm, four p-values and [q = 0.1]. *)
Lemma select_model_fdr_bounds_equiv_witness :
  (forall m : nat, (1 <= m)%nat -> 0 <= ln_approx (Qnat m)) /\ (0 < 1 # 10 < 1) /\
  ([1 # 100; 3 # 10; 2 # 100; 1 # 2] <> [] \/ false = false \/ true = false) /\
  select_model_fdr ln_approx [1 # 100; 3 # 10; 2 # 100; 1 # 2] (1 # 10) false true
  = Some (map (fun b => Qle_bool b (1 # 10))
              (select_model_fdr_bounds ln_approx [1 # 100; 3 # 10; 2 # 100; 1 # 2]
                 false true)).
Proof.
  split; [exact ln_approx_nonneg_nat|].
  split; [split; reflexivity|].
  split; [right; left; reflexivity|].
  apply select_model_fdr_bounds_equiv;
    [exact ln_approx_nonneg_nat|split; reflexivity|right; left; reflexivity].
Defined.

(** Claim C10: whatever the p-values and the flags, each entry of
    [select_model_fdr_bounds(pvalues, ...)] lies in [0,1] and is the bound
    computed before the clip, [b], clipped: it is exactly [1] when [b >= 1],
    [0] when [b <= 0], and [b] itself when [0 <= b <= 1]. *)
Theorem select_model_fdr_bounds_range (np_log : Q -> Q) (pvalues : list Q)
    (independent normalize : bool) :
  Forall2 (fun b c => 0 <= c <= 1 /\ (1 <= b -> c == 1) /\ (b <= 0 -> c == 0) /\
                      (0 <= b <= 1 -> c == b))
    (select_model_fdr_bounds_unclipped np_log pvalues independent normalize)
    (select_model_fdr_bounds np_log pvalues independent normalize).
Proof.
  unfold select_model_fdr_bounds.
  induction (select_model_fdr_bounds_unclipped np_log pvalues independent normalize)
    as [|b l IH]; cbn [map]; constructor; [|exact IH].
  split; [apply clip01_range|].
  unfold clip01.
  pose proof (Q.le_max_l b 0). pose proof (Q.le_max_r b 0).
  pose proof (Q.le_min_l (Qmax b 0) 1). pose proof (Q.le_min_r (Qmax b 0) 1).
  destruct (Qmin_cases (Qmax b 0) 1) as [E|E]; rewrite E in *;
    destruct (Qmax_cases b 0) as [F|F]; rewrite F in *;
    repeat split; intros; lra.
Qed.

(** Claim C3, as written: the mask for [pvalues = [0.01, 0.02, 0.3, 0.5]],
    [q = 0.1], [independent = True], [normalize = False] selects exactly
    the indices 0 and 1.  It does not: the third sorted p-value divided by
    its rank, [0.3 / 3], is [<= 0.1], so the bound is [0.3] and index 2 is
    selected too (whatever the logarithm, which these flags do not use). *)
Lemma select_model_fdr_example_cex :
  select_model_fdr ln_approx [1 # 100; 2 # 100; 3 # 10; 1 # 2] (1 # 10) true false
  <> Some [true; true; false; false].
Proof. vm_compute. discriminate. Qed.

(** Claim C3, corrected: on that input the mask selects the indices 0, 1
    and 2, and not 3. *)
Theorem select_model_fdr_example (np_log : Q -> Q) :
  select_model_fdr np_log [1 # 100; 2 # 100; 3 # 10; 1 # 2] (1 # 10) true false
  = Some [true; true; true; false].
Proof. reflexivity. Qed.

(** ** Aggregation over the splits *)

(** Claim C2, as written: per column, the aggregated p-value is the
    clipped minimum of the rank-divided sorted values multiplied by
    [1 / (1 - ln gamma_min)].  The code multiplies by [1 - ln gamma_min]
    instead ([q *= (1 - np.log(gamma_min))]).  With two splits and the
    column [[0.1; 0.2]] the code gives [clip(0.2 * (1 - ln 0.05))], about
    0.79, and the formula about 0.05 (here with the stand-in logarithm;
    any value [L] of the logarithm with [(1 - L)^2 <> 1] separates them). *)
Lemma pvalues_aggregation_claimed_cex :
  ~ (exists q,
        pvalues_aggregation ln_approx (1 # 20) [[1 # 10]; [1 # 5]] = Some q /\
        Forall2 Qeq q
          (aggregation_formula (1 / (1 - ln_approx (1 # 20))) (1 # 20)
             [[1 # 10]; [1 # 5]])).
Proof.
  intros [q [Hq Hf]]. vm_compute in Hq. injection Hq as <-.
  vm_compute in Hf. inversion Hf as [|a b l l' Hab _]. vm_compute in Hab.
  discriminate.
Qed.

(** Claim C2, corrected: for [gamma_min = 0.05] and at least two splits,
    [pvalues_aggregation] returns, per column, the clipped minimum of the
    rank-divided sorted values multiplied by [1 - ln(gamma_min)]. *)
Theorem pvalues_aggregation_formula (np_log : Q -> Q) (M : list (list Q))
    (Hn : (2 <= length M)%nat) :
  exists q, pvalues_aggregation np_log (1 # 20) M = Some q /\
    Forall2 Qeq q (aggregation_formula (1 - np_log (1 # 20)) (1 # 20) M).
Proof.
  set (n := length M) in *.
  pose proof (kmin_default_lt n Hn) as Hk.
  unfold pvalues_aggregation. fold n.
  replace (n <=? kmin_of (1 # 20) n)%nat with false
    by (symmetry; apply Nat.leb_gt; exact Hk).
  eexists; split; [reflexivity|].
  unfold aggregation_formula. fold n. rewrite <- kmin_default.
  set (kmin := kmin_of (1 # 20) n) in *.
  apply Forall2_map_same. intros j _. apply clip01_compat.
  unfold sorted_quotients. fold n. fold kmin.
  set (Ss := np_sort (column M j)).
  assert (HSl : length Ss = n) by (unfold Ss; rewrite np_sort_length, length_column; reflexivity).
  assert (E : col_min (zip_with Qdiv (skipn kmin Ss) (gamma_array n kmin)) ==
              col_min (map (fun r => nth (r - 1) Ss 0 / (Qnat r / Qnat n))
                           (seq (kmin + 1) (n - kmin)))).
  { apply col_min_compat.
    apply Forall2_nth_intro with (d := 0) (d' := 0).
    { rewrite zip_with_length, length_skipn, length_map, length_seq.
      unfold gamma_array. rewrite length_map, arange_length. lia. }
    intros i Hi.
    rewrite zip_with_length, length_skipn in Hi.
    unfold gamma_array in *. rewrite length_map, arange_length in Hi.
    rewrite nth_zip_with with (d1 := 0) (d2 := 0)
      by (rewrite ?length_skipn, ?length_map, ?arange_length; lia).
    rewrite nth_skipn.
    rewrite nth_map_lt with (d' := 0) by (rewrite arange_length; lia).
    unfold arange. rewrite nth_map_lt with (d' := O) by (rewrite length_seq; lia).
    rewrite seq_nth by lia.
    rewrite nth_map_lt with (d' := O) by (rewrite length_seq; lia).
    rewrite seq_nth by lia.
    replace (kmin + 1 + i - 1)%nat with (kmin + i)%nat by lia.
    pose proof (Qnat_neq0 n ltac:(lia)).
    pose proof (Qnat_neq0 (kmin + 1 + i) ltac:(lia)).
    field. auto. }
  rewrite E. reflexivity.
Qed.

(** Witness of [pvalues_aggregation_formula] on two splits of one feature. *)
Lemma pvalues_aggregation_formula_witness :
  (2 <= length [[1 # 10]; [1 # 5]])%nat /\
  exists q, pvalues_aggregation ln_approx (1 # 20) [[1 # 10]; [1 # 5]] = Some q /\
    Forall2 Qeq q (aggregation_formula (1 - ln_approx (1 # 20)) (1 # 20)
                     [[1 # 10]; [1 # 5]]).
Proof.
  assert (Hn : (2 <= length [[1 # 10]; [1 # 5]])%nat) by (simpl; lia).
  split; [exact Hn|]. exact (pvalues_aggregation_formula ln_approx _ Hn).
Defined.

(** Claim C8: both aggregators are monotone.  If [A <= B] entrywise
    (same shape), then [pvalues_aggregation(A) <= pvalues_aggregation(B)]
    and [scores_aggregation(A) <= scores_aggregation(B)] entrywise, the two
    calls of each pair failing alike.  For the p-value aggregator this
    uses [ln(gamma_min) <= 1], so that the factor [1 - ln(gamma_min)] is
    nonnegative (true of the default [gamma_min = 0.05]). *)
Theorem aggregation_monotone (np_log : Q -> Q) (gamma_min : Q)
    (A B : list (list Q))
    (Hlog : np_log gamma_min <= 1)
    (HAB : Forall2 (Forall2 Qle) A B) :
  option_Forall2 Qle (pvalues_aggregation np_log gamma_min A)
                     (pvalues_aggregation np_log gamma_min B) /\
  option_Forall2 Qle (scores_aggregation gamma_min A)
                     (scores_aggregation gamma_min B).
Proof.
  pose proof (Forall2_length HAB) as Hl. pose proof (ncols_eq A B HAB) as Hc.
  unfold pvalues_aggregation, scores_aggregation. rewrite Hl, Hc.
  destruct (length B <=? kmin_of gamma_min (length B))%nat; simpl;
    [split; exact I|].
  split; apply Forall2_map_same; intros j _.
  - apply clip01_mono. apply Qmult_le_compat_r; [|lra].
    apply col_min_mono, sorted_quotients_mono, HAB.
  - apply Forall2_nth_le, sorted_quotients_mono, HAB.
Qed.

(** Witness of [aggregation_monotone]: two splits, two features, the
    default [gamma_min] and the stand-in logarithm. *)
Lemma aggregation_monotone_witness :
  ln_approx (1 # 20) <= 1 /\
  Forall2 (Forall2 Qle) [[1 # 10; 1 # 2]; [1 # 5; 3 # 10]]
                        [[1 # 5; 1 # 2]; [1 # 5; 2 # 5]] /\
  (option_Forall2 Qle
     (pvalues_aggregation ln_approx (1 # 20) [[1 # 10; 1 # 2]; [1 # 5; 3 # 10]])
     (pvalues_aggregation ln_approx (1 # 20) [[1 # 5; 1 # 2]; [1 # 5; 2 # 5]]) /\
   option_Forall2 Qle
     (scores_aggregation (1 # 20) [[1 # 10; 1 # 2]; [1 # 5; 3 # 10]])
     (scores_aggregation (1 # 20) [[1 # 5; 1 # 2]; [1 # 5; 2 # 5]])).
Proof.
  assert (Hlog : ln_approx (1 # 20) <= 1) by (apply Qle_bool_iff; vm_compute; reflexivity).
  assert (HAB : Forall2 (Forall2 Qle) [[1 # 10; 1 # 2]; [1 # 5; 3 # 10]]
                                      [[1 # 5; 1 # 2]; [1 # 5; 2 # 5]])
    by (repeat constructor; apply Qle_bool_iff; reflexivity).
  split; [exact Hlog|]. split; [exact HAB|].
  apply aggregation_monotone; assumption.
Defined.

(** ** Projection onto clusters *)

(** Claim C7 (the round trip [P_inv . (P . v) = v] for cluster-constant
    [v], with [P] row-stochastic): [pp_inv] divides the masks by their
    column sums ([sum(0)], all [1]) where averaging needs the row sums
    (the cluster sizes).  For two features in one cluster, [P] is the
    mask [[1, 1]] itself, its row sums to 2, and the constant vector
    [[1, 1]] comes back as [[2, 2]]. *)
Theorem pp_inv_round_trip_doubles :
  exists P P_inv, pp_inv [O; O] = Some (P, P_inv) /\
    P = [[1; 1]] /\ map (fold_right Qplus 0) P = [2] /\
    matvec P_inv (matvec P [1; 1]) = [2; 2].
Proof. eexists _, _. split; [reflexivity|]. split; [|split]; reflexivity. Qed.

(** ** Inference *)

(** Claim C9, as written: a split whose OLS refit fails numerically (support
    size at least the held-out sample count) gets a row of sentinel values
    (p-value 1, score [p]).  The code has no such handling: it stores what
    the refit reports.  With three samples [X = [[0, 0], [1, 1], [2, 2]]],
    [y = [0, 1, 3]], one split selecting sample 0, singleton clusters and a
    support of size 2, the refit runs on the two held-out samples: the
    rank-one design [[1, 1], [2, 2]] and [y_test = [1, 3]], where
    statsmodels reports p-values of about 0.09 ([ols_const]).  The rows
    stored are then 0.18, not 1 for the p-values and not [p = 2] for the
    scores. *)
Lemma multivariate_split_refit_failure_cex :
  Nat.le (length (fst (ols_input [[0; 0]; [1; 1]; [2; 2]] [0; 1; 3] [1; 1] [O]
                         [[1; 0]; [0; 1]])))
         (count_true (nonzero_mask [1; 1])) /\
  exists pvalues agg scores agg',
    multivariate_split_pval ln_approx (ols_const (9 # 100))
      [[0; 0]; [1; 1]; [2; 2]] [0; 1; 3] 1 1 2 [[1; 1]] [[O]] [[O; 1%nat]]
      = Some (pvalues, agg) /\
    multivariate_split_scores (ols_const (9 # 100))
      [[0; 0]; [1; 1]; [2; 2]] [0; 1; 3] 1 1 2 [[1; 1]] [[O]] [[O; 1%nat]]
      = Some (scores, agg') /\
    Forall2 (Forall2 Qeq) pvalues [[9 # 50; 9 # 50]] /\
    Forall2 (Forall2 Qeq) scores [[9 # 50; 9 # 50]].
Proof.
  split; [vm_compute; lia|].
  destruct (multivariate_split_pval ln_approx (ols_const (9 # 100))
      [[0; 0]; [1; 1]; [2; 2]] [0; 1; 3] 1 1 2 [[1; 1]] [[O]] [[O; 1%nat]])
    as [[pvalues agg]|] eqn:E1; [|vm_compute in E1; discriminate E1].
  destruct (multivariate_split_scores (ols_const (9 # 100))
      [[0; 0]; [1; 1]; [2; 2]] [0; 1; 3] 1 1 2 [[1; 1]] [[O]] [[O; 1%nat]])
    as [[scores agg']|] eqn:E2; [|vm_compute in E2; discriminate E2].
  exists pvalues, agg, scores, agg'.
  split; [reflexivity|]. split; [reflexivity|].
  vm_compute in E1, E2. injection E1 as <- _. injection E2 as <- _.
  split; repeat constructor.
Qed.

(** Claim C9, corrected: no row is replaced by sentinel values.  When
    [multivariate_split_pval] returns, the row of each split [i] is
    [P_inv.dot(pvalues_proj)], with [pvalues_proj] equal to
    [clip(model_proj_size * res.pvalues, 0, 1)] on the support clusters
    and to 1 elsewhere, [res] being the OLS refit of split [i] on its
    held-out samples; when [multivariate_split_scores] returns, the row is
    [P_inv.dot(scores_proj)], with [model_size * res.pvalues] on the
    support clusters and [p] elsewhere.  This holds whatever the refit
    reports, whatever the support size and the held-out count. *)
Theorem multivariate_split_rows_from_refit (np_log : Q -> Q)
    (ols : list Q -> list (list Q) -> option (list Q))
    (X : list (list Q)) (y : list Q) (n_split : nat) (size_split : Q)
    (n_clusters : nat) (beta_array : list (list Q))
    (split_array clust_array : list (list nat)) (i : nat)
    (Hi : (i < n_split)%nat) :
  (forall pvalues agg,
     multivariate_split_pval np_log ols X y n_split size_split n_clusters
       beta_array split_array clust_array = Some (pvalues, agg) ->
     exists b s c P P_inv r,
       split_data beta_array split_array clust_array i = Some (b, s, c) /\
       pp_inv c = Some (P, P_inv) /\
       ols (fst (ols_input X y b s P)) (snd (ols_input X y b s P)) = Some r /\
       nth_error pvalues i =
         Some (matvec P_inv
                 (mask_assign (nonzero_mask b)
                    (map (fun v => clip01 (Qnat (count_true (nonzero_mask b)) * v)) r)
                    (repeat 1 n_clusters)))) /\
  (forall scores agg,
     multivariate_split_scores ols X y n_split size_split n_clusters
       beta_array split_array clust_array = Some (scores, agg) ->
     exists b s c P P_inv r,
       split_data beta_array split_array clust_array i = Some (b, s, c) /\
       pp_inv c = Some (P, P_inv) /\
       ols (fst (ols_input X y b s P)) (snd (ols_input X y b s P)) = Some r /\
       nth_error scores i =
         Some (matvec P_inv
                 (mask_assign (nonzero_mask b)
                    (map (fun v => Qnat (count_true (nonzero_mask (matvec P_inv b))) * v) r)
                    (repeat (Qnat (ncols X)) n_clusters)))).
Proof.
  assert (Hin : nth_error (seq 0 n_split) i = Some i).
  { rewrite (nth_error_nth' _ O) by (rewrite length_seq; exact Hi).
    rewrite seq_nth by exact Hi. reflexivity. }
  split.
  - intros pvalues agg H. unfold multivariate_split_pval in H. cbv zeta in H.
    destruct (map_opt _ (seq 0 n_split)) as [rows|] eqn:Em; [|discriminate].
    assert (Hrows : rows = pvalues).
    { destruct (1 <? n_split)%nat;
        [destruct (pvalues_aggregation np_log (1 # 20) rows)|destruct rows];
        try discriminate; injection H as H1 _; exact H1. }
    subst rows.
    destruct (map_opt_nth_error _ _ _ i i Em Hin) as [row [Hf Hr]].
    cbv beta in Hf.
    destruct (split_data beta_array split_array clust_array i) as [[[b s] c]|] eqn:Ed;
      [|discriminate].
    unfold pval_split in Hf.
    destruct (pp_inv c) as [[P P_inv]|] eqn:Ep; [|discriminate].
    destruct (ols_input X y b s P) as [y_test X_model] eqn:Eo.
    destruct (ols y_test X_model) as [r|] eqn:Er; [|discriminate].
    injection Hf as <-.
    exists b, s, c, P, P_inv, r. rewrite Eo. cbn [fst snd].
    repeat split; assumption.
  - intros scores agg H. unfold multivariate_split_scores in H. cbv zeta in H.
    destruct (map_opt _ (seq 0 n_split)) as [rows|] eqn:Em; [|discriminate].
    assert (Hrows : rows = scores).
    { destruct (1 <? n_split)%nat;
        [destruct (scores_aggregation (1 # 20) rows)|destruct rows];
        try discriminate; injection H as H1 _; exact H1. }
    subst rows.
    destruct (map_opt_nth_error _ _ _ i i Em Hin) as [row [Hf Hr]].
    cbv beta in Hf.
    destruct (split_data beta_array split_array clust_array i) as [[[b s] c]|] eqn:Ed;
      [|discriminate].
    unfold scores_split in Hf.
    destruct (pp_inv c) as [[P P_inv]|] eqn:Ep; [|discriminate].
    destruct (ols_input X y b s P) as [y_test X_model] eqn:Eo.
    destruct (ols y_test X_model) as [r|] eqn:Er; [|discriminate].
    injection Hf as <-.
    exists b, s, c, P, P_inv, r. rewrite Eo. cbn [fst snd].
    repeat split; assumption.
Qed.

(** Witness of [multivariate_split_rows_from_refit] on the run with the
    rank-one held-out design. *)
Lemma multivariate_split_rows_from_refit_witness :
  (0 < 1)%nat /\
  exists pvalues agg,
    multivariate_split_pval ln_approx (ols_const (9 # 100))
      [[0; 0]; [1; 1]; [2; 2]] [0; 1; 3] 1 1 2 [[1; 1]] [[O]] [[O; 1%nat]]
      = Some (pvalues, agg) /\
    exists b s c P P_inv r,
      split_data [[1; 1]] [[O]] [[O; 1%nat]] 0 = Some (b, s, c) /\
      pp_inv c = Some (P, P_inv) /\
      ols_const (9 # 100) (fst (ols_input [[0; 0]; [1; 1]; [2; 2]] [0; 1; 3] b s P))
        (snd (ols_input [[0; 0]; [1; 1]; [2; 2]] [0; 1; 3] b s P)) = Some r /\
      nth_error pvalues 0 =
        Some (matvec P_inv
                (mask_assign (nonzero_mask b)
                   (map (fun v => clip01 (Qnat (count_true (nonzero_mask b)) * v)) r)
                   (repeat 1 2))).
Proof.
  assert (H0 : (0 < 1)%nat) by lia.
  split; [exact H0|].
  destruct (multivariate_split_pval ln_approx (ols_const (9 # 100))
      [[0; 0]; [1; 1]; [2; 2]] [0; 1; 3] 1 1 2 [[1; 1]] [[O]] [[O; 1%nat]])
    as [[pvalues agg]|] eqn:E; [|vm_compute in E; discriminate E].
  exists pvalues, agg. split; [reflexivity|].
  exact (proj1 (multivariate_split_rows_from_refit ln_approx (ols_const (9 # 100))
                  _ _ 1 1 2 _ _ _ 0 H0) pvalues agg E).
Defined.

(** ** The splits of [fit] *)

(** Claim C4, counterexample: with seed 1, [n_split = 2],
    [ratio_split = 1/2] and [n_clusters = 'auto'], [fit] on 4 samples and 3
    features returns ([Some tt]) although the subset size [4 * 1/2 = 2] is
    below [n_clusters_ = 3]: no ConfigurationError is raised. *)
Lemma fit_small_split_cex :
  let r := fit scaler_identity agglomerate_first lasso_zero
             [[1; 0; 2]; [0; 1; 1]; [1; 1; 0]; [2; 0; 1]] [1; 2; 3; 4]
             (StabilityLasso_init 1 2 (1 # 2) NCAuto 1) in
  snd r = Some tt /\ size_split (attrs (fst r)) = Some (4 # 2) /\
  n_clusters_ (attrs (fst r)) = Some 3%Z /\ 4 # 2 < inject_Z 3.
Proof. vm_compute. repeat split; reflexivity. Qed.

(** Claim C4, corrected: [fit] checks no configuration before its loop;
    once both standardizations succeed, the object holds [intercept_],
    [size_split = n * ratio_split] and [n_clusters_] whether [fit] then
    returns or raises (in [choice], the agglomeration, the Lasso, ...). *)
Theorem fit_sets_attributes
    (standardize : list (list Q) -> option (list (list Q) * list Q))
    (agglomerate : list (list Q) -> Z -> option (list nat))
    (lasso : Q -> list (list Q) -> list Q -> option (list Q))
    (X : list (list Q)) (y : list Q) (m : StabilityLasso)
    (yt Xs : list (list Q)) (mean_ mu : list Q)
    (Hy : standardize (map (fun v => [v]) y) = Some (yt, mean_))
    (HX : standardize X = Some (Xs, mu)) :
  let m' := fst (fit standardize agglomerate lasso X y m) in
  intercept_ (attrs m') = Some mean_ /\
  size_split (attrs m') = Some (Qnat (length Xs) * ratio_split m) /\
  n_clusters_ (attrs m') = Some (resolve_n_clusters (n_clusters m) (ncols Xs)).
Proof.
  unfold fit, bind, lift, get, modify, ret. rewrite Hy. cbn. rewrite HX. cbn.
  destruct (_ <? 0)%Z; [cbn; auto|].
  destruct (py_int _ <? 0)%Z; [cbn; auto|].
  match goal with
  | |- context [fit_loop agglomerate lasso ?k ?X ?y ?n ?p ?m] =>
      pose proof (fit_loop_config agglomerate lasso k X y n p m) as Hc;
      destruct (fit_loop agglomerate lasso k X y n p m) as [m2 [rows|]]
  end; unfold fit_config in Hc; simpl in Hc; injection Hc; intros; cbn.
  - destruct (_soln (attrs m2)); cbn; auto.
  - auto.
Qed.

(** Witness of [fit_sets_attributes] on the run of [fit_small_split_cex]. *)
Lemma fit_sets_attributes_witness :
  scaler_identity (map (fun v => [v]) [1; 2; 3; 4]) = Some ([[1]; [2]; [3]; [4]], [0]) /\
  scaler_identity [[1; 0; 2]; [0; 1; 1]; [1; 1; 0]; [2; 0; 1]]
    = Some ([[1; 0; 2]; [0; 1; 1]; [1; 1; 0]; [2; 0; 1]], [0; 0; 0]) /\
  let m' := fst (fit scaler_identity agglomerate_first lasso_zero
                   [[1; 0; 2]; [0; 1; 1]; [1; 1; 0]; [2; 0; 1]] [1; 2; 3; 4]
                   (StabilityLasso_init 1 2 (1 # 2) NCAuto 1)) in
  intercept_ (attrs m') = Some [0] /\
  size_split (attrs m') = Some (Qnat 4 * (1 # 2)) /\
  n_clusters_ (attrs m') = Some (resolve_n_clusters NCAuto 3).
Proof.
  assert (H1 : scaler_identity (map (fun v => [v]) [1; 2; 3; 4])
               = Some ([[1]; [2]; [3]; [4]], [0])) by reflexivity.
  assert (H2 : scaler_identity [[1; 0; 2]; [0; 1; 1]; [1; 1; 0]; [2; 0; 1]]
               = Some ([[1; 0; 2]; [0; 1; 1]; [1; 1; 0]; [2; 0; 1]], [0; 0; 0]))
    by reflexivity.
  split; [exact H1|]. split; [exact H2|].
  exact (fit_sets_attributes scaler_identity agglomerate_first lasso_zero _ _
           (StabilityLasso_init 1 2 (1 # 2) NCAuto 1) _ _ _ _ H1 H2).
Defined.

(** Claim C5, counterexample: with [n = 3] and [ratio_split = 3/5],
    [round(ratio_split * n) = round(1.8) = 2], but the subset [fit] stores
    has one index: [choice] truncates the size [1.8] to [1]. *)
Lemma fit_split_size_cex :
  let r := fit scaler_identity agglomerate_first lasso_zero
             [[1; 0]; [0; 1]; [1; 1]] [1; 2; 3]
             (StabilityLasso_init 1 1 (3 # 5) NCAuto 1) in
  snd r = Some tt /\ _split_array (attrs (fst r)) = Some [[O]].
Proof. vm_compute. split; reflexivity. Qed.

(** Claim C6, counterexample: two successive calls of [fit] on the same
    constructed object (seed 1), with the same inputs, store different
    [split_array]s: the second call continues the generator of the first. *)
Lemma fit_repeat_cex :
  let X := [[1; 0; 2]; [0; 1; 1]; [1; 1; 0]; [2; 0; 1]] in
  let y := [1; 2; 3; 4] in
  let r1 := fit scaler_identity agglomerate_first lasso_zero X y
              (StabilityLasso_init 1 2 (1 # 2) NCAuto 1) in
  let r2 := fit scaler_identity agglomerate_first lasso_zero X y (fst r1) in
  snd r1 = Some tt /\ snd r2 = Some tt /\
  _split_array (attrs (fst r1)) = Some [[2; 3]; [O; 2]]%nat /\
  _split_array (attrs (fst r2)) = Some [[2; 3]; [2; 3]]%nat.
Proof. vm_compute. repeat split; reflexivity. Qed.

(** Claim C5, corrected: when [fit] returns, [split_array] has [n_split]
    rows, and each is a subset of [int(n * ratio_split)] distinct sample
    indices, drawn without replacement and sorted ascending; [n] is the
    number of rows of the scaled data, and [n * ratio_split] is truncated
    (by [choice]), not rounded. *)
Theorem fit_split_array_subsets
    (standardize : list (list Q) -> option (list (list Q) * list Q))
    (agglomerate : list (list Q) -> Z -> option (list nat))
    (lasso : Q -> list (list Q) -> list Q -> option (list Q))
    (X : list (list Q)) (y : list Q) (m : StabilityLasso)
    (Xs : list (list Q)) (mu : list Q)
    (HX : standardize X = Some (Xs, mu))
    (Hok : snd (fit standardize agglomerate lasso X y m) = Some tt) :
  exists rows,
    _split_array (attrs (fst (fit standardize agglomerate lasso X y m))) = Some rows /\
    length rows = n_split m /\
    Forall (subset_ok (Z.to_nat (py_int (Qnat (length Xs) * ratio_split m)))
                      (length Xs)) rows.
Proof.
  revert Hok. unfold fit, bind, lift, get, modify, ret. cbn.
  destruct (standardize (map _ y)) as [[yt mean_]|]; cbn; [|discriminate].
  rewrite HX. cbn.
  destruct (_ <? 0)%Z; cbn; [discriminate|].
  destruct (py_int _ <? 0)%Z; cbn; [discriminate|].
  match goal with
  | |- context [fit_loop agglomerate lasso ?k ?X ?y ?n ?p ?m] =>
      destruct (fit_loop agglomerate lasso k X y n p m) as [m2 [rows|]] eqn:E
  end; cbn; [|discriminate].
  destruct (_soln (attrs m2)); cbn; [|discriminate].
  intros _. eexists; split; [reflexivity|].
  eapply fit_loop_rows in E as [Hl Hf]; [|reflexivity].
  split; [rewrite length_map; exact Hl|]. rewrite Forall_map. exact Hf.
Qed.

(** Witness of [fit_split_array_subsets] on the run of [fit_split_size_cex]. *)
Lemma fit_split_array_subsets_witness :
  scaler_identity [[1; 0]; [0; 1]; [1; 1]] = Some ([[1; 0]; [0; 1]; [1; 1]], [0; 0]) /\
  snd (fit scaler_identity agglomerate_first lasso_zero [[1; 0]; [0; 1]; [1; 1]] [1; 2; 3]
         (StabilityLasso_init 1 1 (3 # 5) NCAuto 1)) = Some tt /\
  exists rows,
    _split_array (attrs (fst (fit scaler_identity agglomerate_first lasso_zero
                                [[1; 0]; [0; 1]; [1; 1]] [1; 2; 3]
                                (StabilityLasso_init 1 1 (3 # 5) NCAuto 1)))) = Some rows /\
    length rows = 1%nat /\
    Forall (subset_ok (Z.to_nat (py_int (Qnat 3 * (3 # 5)))) 3) rows.
Proof.
  assert (H1 : scaler_identity [[1; 0]; [0; 1]; [1; 1]]
               = Some ([[1; 0]; [0; 1]; [1; 1]], [0; 0])) by reflexivity.
  assert (H2 : snd (fit scaler_identity agglomerate_first lasso_zero
                      [[1; 0]; [0; 1]; [1; 1]] [1; 2; 3]
                      (StabilityLasso_init 1 1 (3 # 5) NCAuto 1)) = Some tt)
    by (vm_compute; reflexivity).
  split; [exact H1|]. split; [exact H2|].
  exact (fit_split_array_subsets scaler_identity agglomerate_first lasso_zero _ _
           (StabilityLasso_init 1 1 (3 # 5) NCAuto 1) _ _ H1 H2).
Defined.

(** Claim C6, corrected: [fit] is deterministic in the hyperparameters and
    the state of the generator: two objects that agree on [theta],
    [n_split], [ratio_split], [n_clusters] and [generator] (two objects
    built with the same arguments and seed, before any [fit]) give the
    same outcome on the same inputs and, when [fit] returns, end equal
    (same [beta_array], [split_array], [clust_array] and [coef_]).  A
    second [fit] on the same object starts from the advanced generator. *)
Theorem fit_deterministic
    (standardize : list (list Q) -> option (list (list Q) * list Q))
    (agglomerate : list (list Q) -> Z -> option (list nat))
    (lasso : Q -> list (list Q) -> list Q -> option (list Q))
    (X : list (list Q)) (y : list Q) (m1 m2 : StabilityLasso)
    (Hh : theta m1 = theta m2 /\ n_split m1 = n_split m2 /\
          ratio_split m1 = ratio_split m2 /\ n_clusters m1 = n_clusters m2 /\
          generator m1 = generator m2) :
  snd (fit standardize agglomerate lasso X y m1)
    = snd (fit standardize agglomerate lasso X y m2) /\
  (snd (fit standardize agglomerate lasso X y m1) = Some tt ->
   fst (fit standardize agglomerate lasso X y m1)
     = fst (fit standardize agglomerate lasso X y m2)).
Proof.
  destruct m1 as [t1 ns1 r1 c1 g1 a1], m2 as [t2 ns2 r2 c2 g2 a2].
  cbn in Hh. destruct Hh as (-> & -> & -> & -> & ->).
  unfold fit, bind, lift, get, modify, ret. cbn.
  destruct (standardize (map _ y)) as [[yt mean_]|]; cbn;
    [|split; [reflexivity|intros; discriminate]].
  destruct (standardize X) as [[Xs mu]|]; cbn;
    [|split; [reflexivity|intros; discriminate]].
  destruct (_ <? 0)%Z; cbn; [split; [reflexivity|intros; discriminate]|].
  destruct (py_int _ <? 0)%Z; cbn; [split; [reflexivity|intros; discriminate]|].
  lazymatch goal with
  | |- context [fit_loop agglomerate lasso ?k ?X ?y ?n ?p ?ma] =>
      pose proof (fit_loop_view agglomerate lasso k X y n p ma) as Hv;
      destruct (fit_loop agglomerate lasso k X y n p ma) as [ma' ra];
      lazymatch goal with
      | |- context [fit_loop agglomerate lasso k X y n p ?mb] =>
          specialize (Hv mb eq_refl);
          destruct (fit_loop agglomerate lasso k X y n p mb) as [mb' rb]
      end
  end.
  cbn in Hv. destruct Hv as [-> Hv].
  destruct rb as [rows|]; cbn; [|split; [reflexivity|intros; discriminate]].
  destruct ma' as [u1 nu1 q1 d1 h1 [i1 s1 k1 so1 b1 sp1 cl1 co1]],
           mb' as [u2 nu2 q2 d2 h2 [i2 s2 k2 so2 b2 sp2 cl2 co2]].
  unfold fit_view, fit_config in Hv. cbn in Hv.
  injection Hv as -> -> -> -> -> -> -> -> ->. cbn.
  destruct so2; cbn; split; [reflexivity|reflexivity|reflexivity|intros; discriminate].
Qed.

(** Witness of [fit_deterministic]: a fresh object and one that already
    holds an [intercept_], built with the same arguments. *)
Lemma fit_deterministic_witness :
  (theta (StabilityLasso_init 1 2 (1 # 2) NCAuto 1)
   = theta (set_attrs (with_intercept_ [5]) (StabilityLasso_init 1 2 (1 # 2) NCAuto 1)) /\
   n_split (StabilityLasso_init 1 2 (1 # 2) NCAuto 1)
   = n_split (set_attrs (with_intercept_ [5]) (StabilityLasso_init 1 2 (1 # 2) NCAuto 1)) /\
   ratio_split (StabilityLasso_init 1 2 (1 # 2) NCAuto 1)
   = ratio_split (set_attrs (with_intercept_ [5]) (StabilityLasso_init 1 2 (1 # 2) NCAuto 1)) /\
   n_clusters (StabilityLasso_init 1 2 (1 # 2) NCAuto 1)
   = n_clusters (set_attrs (with_intercept_ [5]) (StabilityLasso_init 1 2 (1 # 2) NCAuto 1)) /\
   generator (StabilityLasso_init 1 2 (1 # 2) NCAuto 1)
   = generator (set_attrs (with_intercept_ [5]) (StabilityLasso_init 1 2 (1 # 2) NCAuto 1))) /\
  let X := [[1; 0; 2]; [0; 1; 1]; [1; 1; 0]; [2; 0; 1]] in
  let y := [1; 2; 3; 4] in
  let m1 := StabilityLasso_init 1 2 (1 # 2) NCAuto 1 in
  let m2 := set_attrs (with_intercept_ [5]) (StabilityLasso_init 1 2 (1 # 2) NCAuto 1) in
  snd (fit scaler_identity agglomerate_first lasso_zero X y m1)
    = snd (fit scaler_identity agglomerate_first lasso_zero X y m2) /\
  (snd (fit scaler_identity agglomerate_first lasso_zero X y m1) = Some tt ->
   fst (fit scaler_identity agglomerate_first lasso_zero X y m1)
     = fst (fit scaler_identity agglomerate_first lasso_zero X y m2)).
Proof.
  assert (Hh :
   theta (StabilityLasso_init 1 2 (1 # 2) NCAuto 1)
   = theta (set_attrs (with_intercept_ [5]) (StabilityLasso_init 1 2 (1 # 2) NCAuto 1)) /\
   n_split (StabilityLasso_init 1 2 (1 # 2) NCAuto 1)
   = n_split (set_attrs (with_intercept_ [5]) (StabilityLasso_init 1 2 (1 # 2) NCAuto 1)) /\
   ratio_split (StabilityLasso_init 1 2 (1 # 2) NCAuto 1)
   = ratio_split (set_attrs (with_intercept_ [5]) (StabilityLasso_init 1 2 (1 # 2) NCAuto 1)) /\
   n_clusters (StabilityLasso_init 1 2 (1 # 2) NCAuto 1)
   = n_clusters (set_attrs (with_intercept_ [5]) (StabilityLasso_init 1 2 (1 # 2) NCAuto 1)) /\
   generator (StabilityLasso_init 1 2 (1 # 2) NCAuto 1)
   = generator (set_attrs (with_intercept_ [5]) (StabilityLasso_init 1 2 (1 # 2) NCAuto 1)))
    by (repeat split; reflexivity).
  split; [exact Hh|].
  exact (fit_deterministic scaler_identity agglomerate_first lasso_zero
           [[1; 0; 2]; [0; 1; 1]; [1; 1; 0]; [2; 0; 1]] [1; 2; 3; 4] _ _ Hh).
Defined.

(* ================================================================== *)
(** * Further properties of the code *)

(** ** FDR and FWER selection *)

(** [select_model_fdr] is monotone in the level: for [0 < q <= q' < 1]
    both calls return (away from the ZeroDivisionError of an empty vector
    with [independent=True] and [normalize=True]), and every feature
    selected at level [q] is selected at level [q'] (for a logarithm
    nonnegative at 1, 2, 3, ...). *)
Theorem select_model_fdr_monotone_level (np_log : Q -> Q) (pvalues : list Q)
    (q q' : Q) (independent normalize : bool)
    (Hlog : forall m : nat, (1 <= m)%nat -> 0 <= np_log (Qnat m))
    (Hq : 0 < q) (Hqq : q <= q') (Hq' : q' < 1)
    (Hdef : pvalues <> [] \/ independent = false \/ normalize = false) :
  exists M M',
    select_model_fdr np_log pvalues q independent normalize = Some M /\
    select_model_fdr np_log pvalues q' independent normalize = Some M' /\
    Forall2 (fun a b => a = true -> b = true) M M'.
Proof.
  rewrite !select_model_fdr_as_bounds by (assumption || lra).
  do 2 eexists. split; [reflexivity|]. split; [reflexivity|].
  apply Forall2_map_both. intros b _ Hb.
  apply Qle_bool_iff in Hb. apply Qle_bool_iff. lra.
Qed.

(** [select_model_fdr_bounds] keeps the order of the p-values: a feature
    with a smaller or equal p-value gets a smaller or equal bound. *)
Theorem select_model_fdr_bounds_order (np_log : Q -> Q) (pvalues : list Q)
    (independent normalize : bool)
    (Hlog : forall m : nat, (1 <= m)%nat -> 0 <= np_log (Qnat m))
    (i j : nat) (Hi : (i < length pvalues)%nat) (Hj : (j < length pvalues)%nat)
    (Hij : nth i pvalues 0 <= nth j pvalues 0) :
  nth i (select_model_fdr_bounds np_log pvalues independent normalize) 0 <=
  nth j (select_model_fdr_bounds np_log pvalues independent normalize) 0.
Proof.
  set (B := select_model_fdr_bounds np_log pvalues independent normalize).
  pose proof (select_model_fdr_bounds_range_nth np_log pvalues independent normalize i Hi)
    as Ri.
  pose proof (select_model_fdr_bounds_range_nth np_log pvalues independent normalize j Hj)
    as Rj.
  fold B in Ri, Rj.
  destruct (Qlt_le_dec (nth j B 0) (nth i B 0)) as [Hlt|Hle]; [exfalso|exact Hle].
  set (q := (nth i B 0 + nth j B 0) * (1 # 2)).
  assert (Hq : 0 < q < 1) by (unfold q; lra).
  assert (Hne : pvalues <> []) by (intro E0; rewrite E0 in Hi; cbn in Hi; lia).
  pose proof (select_model_fdr_as_bounds np_log pvalues q independent normalize Hlog Hq
                (or_introl Hne)) as E. fold B in E.
  pose proof E as E'. apply select_model_fdr_shape in E'. destruct E' as [bnd Hm].
  assert (Hl : length B = length pvalues) by apply select_model_fdr_bounds_length.
  assert (Hnth : forall k, (k < length pvalues)%nat ->
                 Qle_bool (nth k B 0) q = Qle_bool (nth k pvalues 0) bnd).
  { intros k Hk. apply (f_equal (fun l => nth k l false)) in Hm.
    rewrite !nth_map_lt with (d' := 0) in Hm by lia. exact Hm. }
  assert (Tj : Qle_bool (nth j B 0) q = true) by (apply Qle_bool_iff; unfold q; lra).
  rewrite Hnth in Tj by exact Hj. apply Qle_bool_iff in Tj.
  assert (Ti : Qle_bool (nth i pvalues 0) bnd = true) by (apply Qle_bool_iff; lra).
  rewrite <- Hnth in Ti by exact Hi. apply Qle_bool_iff in Ti. unfold q in Ti. lra.
Qed.

Lemma select_model_fdr_monotone_level_witness :
  (forall m : nat, (1 <= m)%nat -> 0 <= ln_approx (Qnat m)) /\
  0 < 1 # 20 /\ 1 # 20 <= 1 # 10 /\ 1 # 10 < 1 /\
  ([1 # 100; 3 # 10; 2 # 100; 1 # 2] <> [] \/ false = false \/ true = false) /\
  exists M M',
    select_model_fdr ln_approx [1 # 100; 3 # 10; 2 # 100; 1 # 2] (1 # 20) false true = Some M /\
    select_model_fdr ln_approx [1 # 100; 3 # 10; 2 # 100; 1 # 2] (1 # 10) false true = Some M' /\
    Forall2 (fun a b => a = true -> b = true) M M'.
Proof.
  split; [exact ln_approx_nonneg_nat|].
  split; [reflexivity|]. split; [apply Qle_bool_iff; reflexivity|]. split; [reflexivity|].
  split; [right; left; reflexivity|].
  apply (select_model_fdr_monotone_level ln_approx _ (1 # 20) (1 # 10) false true
           ln_approx_nonneg_nat); [reflexivity|apply Qle_bool_iff; reflexivity|reflexivity
           |right; left; reflexivity].
Defined.

Lemma select_model_fdr_bounds_order_witness :
  (forall m : nat, (1 <= m)%nat -> 0 <= ln_approx (Qnat m)) /\
  (0 < length [1 # 100; 3 # 10; 2 # 100; 1 # 2])%nat /\
  (2 < length [1 # 100; 3 # 10; 2 # 100; 1 # 2])%nat /\
  nth 0 [1 # 100; 3 # 10; 2 # 100; 1 # 2] 0 <= nth 2 [1 # 100; 3 # 10; 2 # 100; 1 # 2] 0 /\
  nth 0 (select_model_fdr_bounds ln_approx [1 # 100; 3 # 10; 2 # 100; 1 # 2] false true) 0 <=
  nth 2 (select_model_fdr_bounds ln_approx [1 # 100; 3 # 10; 2 # 100; 1 # 2] false true) 0.
Proof.
  split; [exact ln_approx_nonneg_nat|].
  split; [cbn; lia|]. split; [cbn; lia|]. split; [apply Qle_bool_iff; reflexivity|].
  apply (select_model_fdr_bounds_order ln_approx _ false true ln_approx_nonneg_nat 0 2);
    [cbn; lia|cbn; lia|apply Qle_bool_iff; reflexivity].
Defined.

(** With one p-value and [independent=False], the Benjamini-Yekutieli
    correction divides the level by [np.log(1) = 0]: [select_model_fdr]
    selects the feature at every level [q > 0], whatever its p-value, and
    raises at [q = 0] (the level is NaN and no index passes); its bound
    from [select_model_fdr_bounds] is [0]. *)
Theorem select_model_fdr_single_dependent (np_log : Q -> Q)
    (Hlog1 : np_log (Qnat 1) == 0) (v q : Q) (normalize : bool) :
  (0 < q -> select_model_fdr np_log [v] q false normalize = Some [true]) /\
  select_model_fdr np_log [v] 0 false normalize = None /\
  Forall2 Qeq (select_model_fdr_bounds np_log [v] false normalize) [0].
Proof.
  assert (E0 : Qeq_bool (np_log (Qnat 1)) 0 = true) by (apply Qeq_bool_iff; exact Hlog1).
  split; [|split].
  - intro Hq. unfold select_model_fdr. cbn [length].
    assert (Einf : ediv (Fin q) (np_log (Qnat 1)) = PosInf).
    { unfold ediv. rewrite E0. unfold Qpos_b.
      replace (Qle_bool q 0) with false; [reflexivity|].
      symmetry. apply Qle_bool_false. exact Hq. }
    rewrite Einf.
    destruct normalize; cbn; f_equal; f_equal; apply Qle_bool_iff;
      apply Qle_lteq; right; field; discriminate.
  - unfold select_model_fdr. cbn [length].
    assert (Enan : ediv (Fin 0) (np_log (Qnat 1)) = NaN).
    { unfold ediv. rewrite E0. reflexivity. }
    rewrite Enan. destruct normalize; reflexivity.
  - unfold select_model_fdr_bounds, select_model_fdr_bounds_unclipped. cbn [length].
    destruct normalize; cbn - [clip01 Qnat];
      (constructor; [|constructor]);
      (etransitivity; [apply clip01_compat; rewrite Hlog1; apply Qmult_0_r|reflexivity]).
Qed.

Lemma select_model_fdr_single_dependent_witness :
  ln_approx (Qnat 1) == 0 /\
  (0 < 1 # 20 -> select_model_fdr ln_approx [4 # 5] (1 # 20) false true = Some [true]) /\
  select_model_fdr ln_approx [4 # 5] 0 false true = None /\
  Forall2 Qeq (select_model_fdr_bounds ln_approx [4 # 5] false true) [0].
Proof.
  split; [reflexivity|].
  apply (select_model_fdr_single_dependent ln_approx); reflexivity.
Defined.

(** [StabilityLasso.select_model_fwer(alpha)] selects exactly the features
    whose bound from [select_model_fwer_bounds] is below [alpha]: for a
    nonempty vector of p-values and [0 < alpha <= 1], [pvalues < alpha / p]
    and [not (alpha <= clip(pvalues * p, 0, 1))] agree entrywise. *)
Theorem select_model_fwer_as_bounds (pvalues : list Q) (alpha : Q)
    (Hp : pvalues <> []) (Ha : 0 < alpha <= 1) :
  select_model_fwer pvalues alpha =
  Some (map (fun b => negb (Qle_bool alpha b)) (select_model_fwer_bounds pvalues)).
Proof.
  unfold select_model_fwer, select_model_fwer_bounds.
  destruct (length pvalues) as [|n] eqn:El.
  { destruct pvalues; [contradiction|discriminate]. }
  cbn [Nat.eqb]. f_equal. rewrite map_map. apply map_ext. intro v. f_equal.
  assert (Hn : 0 < Qnat (S n)) by (unfold Qnat, Qlt; simpl; lia).
  apply Bool.eq_true_iff_eq. rewrite !Qle_bool_iff, clip01_ge by exact Ha.
  assert (Hn0 : ~ Qnat (S n) == 0) by (intro E; rewrite E in Hn; discriminate).
  split; intro H.
  - setoid_replace alpha with (alpha / Qnat (S n) * Qnat (S n)) by (field; exact Hn0).
    apply Qmult_le_compat_r; [exact H|apply Qlt_le_weak; exact Hn].
  - apply Qle_shift_div_r; [exact Hn|exact H].
Qed.

Lemma select_model_fwer_as_bounds_witness :
  [1 # 100; 3 # 10; 2 # 100; 1 # 2] <> [] /\ 0 < 1 # 10 <= 1 /\
  select_model_fwer [1 # 100; 3 # 10; 2 # 100; 1 # 2] (1 # 10) =
  Some (map (fun b => negb (Qle_bool (1 # 10) b))
            (select_model_fwer_bounds [1 # 100; 3 # 10; 2 # 100; 1 # 2])).
Proof.
  split; [discriminate|]. split; [split; [reflexivity|apply Qle_bool_iff; reflexivity]|].
  apply select_model_fwer_as_bounds;
    [discriminate|split; [reflexivity|apply Qle_bool_iff; reflexivity]].
Defined.

Lemma np_sort_perm_le a b :
  Permutation a b -> Forall2 Qle (np_sort a) (np_sort b).
Proof.
  intro Hab. pose proof (Permutation_length Hab) as Hl.
  apply Forall2_nth_intro with (d := 0) (d' := 0).
  { rewrite !np_sort_length. exact Hl. }
  intros k Hk. rewrite np_sort_length in Hk.
  apply count_sorted_le; [apply np_sort_sstrong|rewrite np_sort_length; exact Hk|].
  set (t := nth k (np_sort b) 0).
  pose proof (count_sorted_ge (np_sort b) k (np_sort_sstrong b)
                ltac:(rewrite np_sort_length; lia)) as H1. fold t in H1.
  rewrite <- (count_le_perm t _ _ (np_sort_perm b)) in H1.
  rewrite <- (count_le_perm t _ _ (np_sort_perm a)).
  rewrite (count_le_perm t _ _ Hab). exact H1.
Qed.

Lemma sorted_quotients_perm_le gamma_min A B j :
  Permutation A B ->
  Forall2 Qle (sorted_quotients gamma_min A j) (sorted_quotients gamma_min B j).
Proof.
  intro H. unfold sorted_quotients. rewrite (Permutation_length H).
  apply zip_div_mono; [|apply gamma_array_nonneg].
  apply skipn_Forall2, np_sort_perm_le. unfold column. apply Permutation_map, H.
Qed.

Lemma Forall2_Qle_antisym l l' :
  Forall2 Qle l l' -> Forall2 Qle l' l -> Forall2 Qeq l l'.
Proof.
  induction 1 as [|x y l l' Hxy _ IH]; intro H'; inversion H'; subst; constructor.
  - apply Qle_antisym; assumption.
  - apply IH. assumption.
Qed.

Lemma ncols_perm A B :
  Permutation A B -> (forall r, In r A -> length r = ncols A) -> ncols A = ncols B.
Proof.
  intros H Hr. destruct B as [|r B].
  - apply Permutation_sym, Permutation_nil in H. subst. reflexivity.
  - cbn [ncols]. symmetry. apply Hr. apply (Permutation_in r (Permutation_sym H)).
    left. reflexivity.
Qed.

(** ** Aggregation over the splits *)

(** [pvalues_aggregation] does not depend on the order of the splits:
    permuting the rows of a rectangular matrix of p-values gives the same
    aggregated p-values (both calls raise alike otherwise). *)
Theorem pvalues_aggregation_perm (np_log : Q -> Q) (gamma_min : Q)
    (A B : list (list Q)) (Hperm : Permutation A B)
    (Hrect : forall r, In r A -> length r = ncols A) :
  option_Forall2 Qeq (pvalues_aggregation np_log gamma_min A)
                     (pvalues_aggregation np_log gamma_min B).
Proof.
  unfold pvalues_aggregation. rewrite <- (Permutation_length Hperm),
    <- (ncols_perm A B Hperm Hrect).
  destruct (Nat.leb (length A) (kmin_of gamma_min (length A))); cbn [option_Forall2]; [exact I|].
  apply Forall2_map_same. intros j _.
  apply clip01_compat. apply Qmult_comp; [|reflexivity].
  apply col_min_compat, Forall2_Qle_antisym;
    apply sorted_quotients_perm_le; [exact Hperm|apply Permutation_sym, Hperm].
Qed.

(** [scores_aggregation] does not depend on the order of the splits
    either. *)
Theorem scores_aggregation_perm (gamma_min : Q)
    (A B : list (list Q)) (Hperm : Permutation A B)
    (Hrect : forall r, In r A -> length r = ncols A) :
  option_Forall2 Qeq (scores_aggregation gamma_min A) (scores_aggregation gamma_min B).
Proof.
  unfold scores_aggregation. rewrite <- (Permutation_length Hperm),
    <- (ncols_perm A B Hperm Hrect).
  destruct (Nat.leb (length A) (kmin_of gamma_min (length A))); cbn [option_Forall2]; [exact I|].
  apply Forall2_map_same. intros j _.
  apply Qle_antisym; apply Forall2_nth_le, sorted_quotients_perm_le;
    [exact Hperm|apply Permutation_sym, Hperm].
Qed.

Lemma agg_example_perm : Permutation agg_example agg_example_swapped.
Proof. apply perm_swap. Qed.

Lemma agg_example_rect : forall r, In r agg_example -> length r = ncols agg_example.
Proof. intros r Hr. destruct Hr as [<-|[<-|[<-|[]]]]; reflexivity. Qed.

Lemma pvalues_aggregation_perm_witness :
  Permutation agg_example agg_example_swapped /\
  (forall r, In r agg_example -> length r = ncols agg_example) /\
  option_Forall2 Qeq (pvalues_aggregation ln_approx (1 # 20) agg_example)
                     (pvalues_aggregation ln_approx (1 # 20) agg_example_swapped).
Proof.
  split; [exact agg_example_perm|]. split; [exact agg_example_rect|].
  apply pvalues_aggregation_perm; [exact agg_example_perm|exact agg_example_rect].
Defined.

Lemma scores_aggregation_perm_witness :
  Permutation agg_example agg_example_swapped /\
  (forall r, In r agg_example -> length r = ncols agg_example) /\
  option_Forall2 Qeq (scores_aggregation (1 # 20) agg_example)
                     (scores_aggregation (1 # 20) agg_example_swapped).
Proof.
  split; [exact agg_example_perm|]. split; [exact agg_example_rect|].
  apply scores_aggregation_perm; [exact agg_example_perm|exact agg_example_rect].
Defined.


(** At the default [gamma_min = 0.05], both aggregators raise exactly when
    there is at most one split: [kmin = max(1, int(0.05 * n_split))] leaves
    no row unless [n_split >= 2]. *)
Theorem aggregation_default_raises (np_log : Q -> Q) (M : list (list Q)) :
  (pvalues_aggregation np_log (1 # 20) M = None <-> (length M <= 1)%nat) /\
  (scores_aggregation (1 # 20) M = None <-> (length M <= 1)%nat).
Proof.
  assert (Hk : Nat.leb (length M) (kmin_of (1 # 20) (length M)) = true <->
               (length M <= 1)%nat).
  { rewrite Nat.leb_le. split; intro H.
    - destruct (Nat.le_gt_cases (length M) 1) as [|Hg]; [assumption|].
      pose proof (kmin_default_lt (length M) Hg). lia.
    - unfold kmin_of. lia. }
  unfold pvalues_aggregation, scores_aggregation.
  destruct (Nat.leb (length M) (kmin_of (1 # 20) (length M))).
  - split; split; (reflexivity || (intros _; apply Hk; reflexivity)).
  - split; split; (discriminate || (intro H; apply Hk in H; discriminate)).
Qed.

Lemma sum_map_compat {A} (f g : A -> Q) (l : list A) :
  (forall x, In x l -> f x == g x) ->
  fold_right Qplus 0 (map f l) == fold_right Qplus 0 (map g l).
Proof.
  induction l as [|x l IH]; intro H; simpl; [reflexivity|].
  rewrite (H x (or_introl eq_refl)), IH; [reflexivity|].
  intros y Hy. apply H. right. exact Hy.
Qed.

Lemma sum_onehot (h : nat -> Q) (r m : nat) : forall s,
  fold_right Qplus 0 (map (fun c => if (c =? r)%nat then h c else 0) (seq s m)) ==
  if ((s <=? r) && (r <? s + m))%nat then h r else 0.
Proof.
  induction m as [|m IH]; intro s; simpl.
  - replace ((s <=? r) && (r <? s + 0))%nat with false; [reflexivity|].
    symmetry. apply andb_false_iff.
    destruct (Nat.leb_spec s r); [right; apply Nat.ltb_ge; lia|left; reflexivity].
  - rewrite IH. destruct (Nat.eqb_spec s r) as [<-|Hne].
    + replace ((S s <=? s) && _)%nat with false by (symmetry; apply andb_false_iff;
        left; apply Nat.leb_gt; lia).
      replace ((s <=? s) && (s <? s + S m))%nat with true by (symmetry;
        apply andb_true_iff; split; [apply Nat.leb_le|apply Nat.ltb_lt]; lia).
      apply Qplus_0_r.
    + rewrite Qplus_0_l.
      replace ((S s <=? r) && (r <? S s + m))%nat with ((s <=? r) && (r <? s + S m))%nat;
        [reflexivity|].
      destruct (Nat.leb_spec s r), (Nat.leb_spec (S s) r), (Nat.ltb_spec r (s + S m)),
        (Nat.ltb_spec r (S s + m)); simpl; try reflexivity; lia.
Qed.

Lemma dot_map_seq (F G : nat -> Q) (m : nat) : forall s,
  dot (map F (seq s m)) (map G (seq s m)) =
  fold_right Qplus 0 (map (fun c => F c * G c) (seq s m)).
Proof. induction m as [|m IH]; intro s; simpl; [reflexivity|]. unfold dot in *. simpl. rewrite IH. reflexivity. Qed.

Lemma n_unique_le (clust : list nat) : (n_unique clust <= length clust)%nat.
Proof.
  unfold n_unique. apply NoDup_incl_length; [apply NoDup_nodup|].
  intros x Hx. apply nodup_In in Hx. exact Hx.
Qed.

Lemma pp_inv_masks (clust : list nat) P P_inv :
  pp_inv clust = Some (P, P_inv) ->
  Forall (fun c => c < n_unique clust)%nat clust.
Proof.
  unfold pp_inv, parcellation_masks.
  destruct (forallb _ clust) eqn:E; [|discriminate]. intros _.
  apply Forall_forall. intros c Hc. rewrite forallb_forall in E.
  apply Nat.ltb_lt, E, Hc.
Qed.

(** Column [i] of the parcellation masks. *)
Lemma column_masks (clust : list nat) (k i : nat) :
  (i < length clust)%nat ->
  column (map (fun c => map (fun l => if (l =? c)%nat then 1 else 0) clust) (seq 0 k)) i =
  map (fun c => if (nth i clust O =? c)%nat then 1 else 0) (seq 0 k).
Proof.
  intro Hi. unfold column. rewrite map_map. apply map_ext. intro c.
  rewrite nth_map_lt with (d' := O) by exact Hi. reflexivity.
Qed.

Lemma dot_nth (a b : list Q) :
  length a = length b ->
  dot a b = fold_right Qplus 0 (map (fun j => nth j a 0 * nth j b 0) (seq 0 (length a))).
Proof.
  revert b. induction a as [|x a IH]; intros [|y b] Hl; simpl in *; try discriminate;
    [reflexivity|].
  unfold dot in *. simpl. f_equal. rewrite IH by lia.
  rewrite <- seq_shift, map_map. reflexivity.
Qed.

Lemma ncols_masks (clust : list nat) (k : nat) :
  Forall (fun c => c < k)%nat clust ->
  ncols (map (fun c => map (fun l => if (l =? c)%nat then 1 else 0) clust) (seq 0 k)) =
  length clust.
Proof.
  intro H. destruct k as [|k].
  - destruct clust as [|c clust]; [reflexivity|]. inversion H. lia.
  - simpl. apply length_map.
Qed.

(** [pp_inv] in closed form: on success, [P] is the 0/1 membership matrix
    (up to [Qeq]) and [P_inv] its transpose. *)
Lemma pp_inv_spec (clust : list nat) P P_inv :
  pp_inv clust = Some (P, P_inv) ->
  Forall (fun c => c < n_unique clust)%nat clust /\
  P_inv = map (fun i => map (fun c => if (nth i clust O =? c)%nat then 1 else 0)
                            (seq 0 (n_unique clust)))
              (seq 0 (length clust)) /\
  length P = n_unique clust /\
  (forall c, (c < n_unique clust)%nat -> length (nth c P []) = length clust) /\
  (forall c i, (c < n_unique clust)%nat -> (i < length clust)%nat ->
     nth i (nth c P []) 0 == if (nth i clust O =? c)%nat then 1 else 0).
Proof.
  intro H. pose proof (pp_inv_masks clust P P_inv H) as Hc.
  pose proof (n_unique_le clust) as Hkp.
  unfold pp_inv, parcellation_masks in H.
  destruct (forallb _ clust) eqn:E; [|discriminate].
  injection H as <- <-.
  set (k := n_unique clust) in *. set (p := length clust) in *.
  set (masks := map (fun c => map (fun l => if (l =? c)%nat then 1 else 0) clust) (seq 0 k)).
  assert (Hnc : ncols masks = p) by (apply ncols_masks, Hc).
  set (data := map (fun s => 1 / s) (sum_axis0 masks p)).
  assert (Hld : length data = p).
  { unfold data, sum_axis0. rewrite !length_map, length_seq. reflexivity. }
  assert (Hdata : forall r, (r < k)%nat -> nth r data 0 == 1).
  { intros r Hr. unfold data, sum_axis0.
    rewrite nth_map_lt with (d' := 0) by (rewrite length_map, length_seq; lia).
    rewrite nth_map_lt with (d' := O) by (rewrite length_seq; lia).
    rewrite seq_nth by lia. cbn [Nat.add].
    unfold masks. rewrite column_masks by lia.
    assert (Hcr : (nth r clust O < k)%nat).
    { rewrite Forall_forall in Hc. apply Hc, nth_In. lia. }
    rewrite (sum_map_compat _ (fun c => if (c =? nth r clust O)%nat then 1 else 0))
      by (intros c _; rewrite Nat.eqb_sym; reflexivity).
    rewrite sum_onehot.
    replace ((0 <=? nth r clust O) && (nth r clust O <? 0 + k))%nat with true
      by (symmetry; apply andb_true_iff; split; [apply Nat.leb_le|apply Nat.ltb_lt]; lia).
    reflexivity. }
  split; [exact Hc|]. split.
  { unfold transpose. apply map_ext_in. intros i Hi. apply in_seq in Hi.
    unfold masks. apply column_masks. lia. }
  unfold matmul, dia_matrix. fold data. rewrite Hnc, map_map.
  split; [rewrite !length_map, length_seq; reflexivity|].
  split.
  { intros c Hc'. rewrite nth_map_lt with (d' := O) by (rewrite length_seq; lia).
    rewrite !length_map, length_seq. reflexivity. }
  intros c i Hck Hi.
  rewrite nth_map_lt with (d' := O) by (rewrite length_seq; lia).
  rewrite nth_map_lt with (d' := O) by (rewrite length_seq; lia).
  rewrite !seq_nth by lia. cbn [Nat.add].
  unfold masks. rewrite column_masks by lia. rewrite dot_map_seq.
  rewrite (sum_map_compat _ (fun r => if (r =? c)%nat then
             nth c data 0 * (if (nth i clust O =? c)%nat then 1 else 0) else 0)).
  2:{ intros r Hr. apply in_seq in Hr. rewrite (Nat.eqb_sym c r).
      destruct (Nat.eqb_spec r c) as [->|Hne]; cbn [andb].
      - replace (c <? length data)%nat with true by (symmetry; apply Nat.ltb_lt; lia).
        reflexivity.
      - apply Qmult_0_l. }
  rewrite sum_onehot.
  replace ((0 <=? c) && (c <? 0 + k))%nat with true
    by (symmetry; apply andb_true_iff; split; [apply Nat.leb_le|apply Nat.ltb_lt]; lia).
  rewrite (Hdata c Hck). apply Qmult_1_l.
Qed.

Lemma nth_matvec (A : list (list Q)) (v : list Q) (i : nat) :
  (i < length A)%nat -> nth i (matvec A v) 0 = dot (nth i A []) v.
Proof. intro Hi. unfold matvec. apply (nth_map_lt (fun row => dot row v) A i 0 []). exact Hi. Qed.

Lemma length_matvec (A : list (list Q)) (v : list Q) : length (matvec A v) = length A.
Proof. apply length_map. Qed.

(** ** Projection onto clusters: [pp_inv] *)

(** [pp_inv] succeeds exactly when the labels are [0, 1, ..., k - 1] with
    no gap, [k] being the number of distinct labels; otherwise
    [coo_matrix] raises. *)
Theorem pp_inv_succeeds_iff (clust : list nat) :
  (exists PP, pp_inv clust = Some PP) <->
  (forall c, In c clust <-> (c < n_unique clust)%nat).
Proof.
  split.
  - intros [[P P_inv] H]. pose proof (pp_inv_masks clust P P_inv H) as Hc.
    rewrite Forall_forall in Hc. intro c. split; [apply Hc|].
    intro Hck.
    assert (Hincl : incl (seq 0 (n_unique clust)) (nodup Nat.eq_dec clust)).
    { apply NoDup_length_incl; [apply NoDup_nodup|rewrite length_seq; reflexivity|].
      intros x Hx. apply nodup_In in Hx. apply in_seq. specialize (Hc x Hx). lia. }
    apply (nodup_In Nat.eq_dec), Hincl, in_seq. lia.
  - intro H. unfold pp_inv, parcellation_masks.
    replace (forallb _ clust) with true; [eexists; reflexivity|].
    symmetry. apply forallb_forall. intros c Hc. apply Nat.ltb_lt, H, Hc.
Qed.

(** [P_inv] broadcasts a vector of cluster values back to the features:
    [P_inv.dot(w)[i] = w[clust[i]]]. *)
Theorem pp_inv_broadcast (clust : list nat) (P P_inv : list (list Q)) (w : list Q)
    (H : pp_inv clust = Some (P, P_inv)) (Hw : length w = n_unique clust) :
  Forall2 Qeq (matvec P_inv w) (map (fun c => nth c w 0) clust).
Proof.
  destruct (pp_inv_spec clust P P_inv H) as (Hc & HPi & _).
  rewrite Forall_forall in Hc.
  apply Forall2_nth_intro with (d := 0) (d' := 0).
  { rewrite length_matvec, length_map, HPi, length_map, length_seq. reflexivity. }
  intros i Hi. rewrite length_matvec, HPi, length_map, length_seq in Hi.
  rewrite nth_matvec by (rewrite HPi, length_map, length_seq; exact Hi).
  rewrite nth_map_lt with (d' := O) by exact Hi.
  rewrite HPi, nth_map_lt with (d' := O) by (rewrite length_seq; exact Hi).
  rewrite seq_nth by exact Hi. cbn [Nat.add].
  assert (Hci : (nth i clust O < n_unique clust)%nat) by (apply Hc, nth_In, Hi).
  rewrite dot_nth by (rewrite length_map, length_seq; symmetry; exact Hw).
  rewrite length_map, length_seq.
  rewrite (sum_map_compat _ (fun c => if (c =? nth i clust O)%nat then nth c w 0 else 0)).
  2:{ intros c Hcin. apply in_seq in Hcin.
      rewrite nth_map_lt with (d' := O) by (rewrite length_seq; lia).
      rewrite seq_nth by lia. cbn [Nat.add]. rewrite Nat.eqb_sym.
      destruct (c =? nth i clust O)%nat; [apply Qmult_1_l|apply Qmult_0_l]. }
  rewrite sum_onehot.
  replace ((0 <=? nth i clust O) && (nth i clust O <? 0 + n_unique clust))%nat with true
    by (symmetry; apply andb_true_iff; split; [apply Nat.leb_le|apply Nat.ltb_lt]; lia).
  reflexivity.
Qed.

Lemma pp_inv_broadcast_witness :
  pp_inv [1; O; 1]%nat = Some ([[0; 1; 0]; [1; 0; 1]], [[0; 1]; [1; 0]; [0; 1]]) /\
  length [5; 7] = n_unique [1; O; 1]%nat /\
  Forall2 Qeq (matvec [[0; 1]; [1; 0]; [0; 1]] [5; 7])
              (map (fun c => nth c [5; 7] 0) [1; O; 1]%nat).
Proof.
  assert (H : pp_inv [1; O; 1]%nat
              = Some ([[0; 1; 0]; [1; 0; 1]], [[0; 1]; [1; 0]; [0; 1]]))
    by (vm_compute; reflexivity).
  split; [exact H|]. split; [reflexivity|].
  apply (pp_inv_broadcast [1; O; 1]%nat [[0; 1; 0]; [1; 0; 1]]); [exact H|reflexivity].
Defined.

(** [P] is not normalized: [P.dot(v)[c]] is the sum, not the mean, of the
    entries of [v] on the features of cluster [c]. *)
Theorem pp_inv_P_sums (clust : list nat) (P P_inv : list (list Q)) (v : list Q)
    (H : pp_inv clust = Some (P, P_inv)) (Hv : length v = length clust) :
  Forall2 Qeq (matvec P v)
    (map (fun c => fold_right Qplus 0
                     (map (fun j => if (nth j clust O =? c)%nat then nth j v 0 else 0)
                          (seq 0 (length clust))))
         (seq 0 (n_unique clust))).
Proof.
  destruct (pp_inv_spec clust P P_inv H) as (_ & _ & HlP & HlR & HP).
  apply Forall2_nth_intro with (d := 0) (d' := 0).
  { rewrite length_matvec, length_map, length_seq. exact HlP. }
  intros c Hc. rewrite length_matvec, HlP in Hc.
  rewrite nth_matvec by lia.
  rewrite nth_map_lt with (d' := O) by (rewrite length_seq; exact Hc).
  rewrite seq_nth by exact Hc. cbn [Nat.add].
  rewrite dot_nth by (rewrite HlR by exact Hc; symmetry; exact Hv).
  rewrite HlR by exact Hc.
  apply sum_map_compat. intros j Hj. apply in_seq in Hj.
  rewrite (HP c j Hc) by lia.
  destruct (nth j clust O =? c)%nat; [apply Qmult_1_l|apply Qmult_0_l].
Qed.

Lemma pp_inv_P_sums_witness :
  pp_inv [1; O; 1]%nat = Some ([[0; 1; 0]; [1; 0; 1]], [[0; 1]; [1; 0]; [0; 1]]) /\
  length [2; 3; 4] = length [1; O; 1]%nat /\
  Forall2 Qeq (matvec [[0; 1; 0]; [1; 0; 1]] [2; 3; 4])
    (map (fun c => fold_right Qplus 0
                     (map (fun j => if (nth j [1; O; 1]%nat O =? c)%nat
                                    then nth j [2; 3; 4] 0 else 0)
                          (seq 0 (length [1; O; 1]%nat))))
         (seq 0 (n_unique [1; O; 1]%nat))).
Proof.
  assert (H : pp_inv [1; O; 1]%nat
              = Some ([[0; 1; 0]; [1; 0; 1]], [[0; 1]; [1; 0]; [0; 1]]))
    by (vm_compute; reflexivity).
  split; [exact H|]. split; [reflexivity|].
  apply (pp_inv_P_sums [1; O; 1]%nat _ [[0; 1]; [1; 0]; [0; 1]]); [exact H|reflexivity].
Defined.

Lemma Forall2_Qeq_nth (l l' : list Q) (i : nat) :
  Forall2 Qeq l l' -> nth i l 0 == nth i l' 0.
Proof.
  intro H. revert i. induction H as [|x y l l' Hxy _ IH]; intros [|i]; simpl;
    auto; reflexivity.
Qed.

Lemma Forall2_Qeq_trans (a b c : list Q) :
  Forall2 Qeq a b -> Forall2 Qeq b c -> Forall2 Qeq a c.
Proof.
  intro H. revert c. induction H as [|x y a b Hxy _ IH]; intros c Hbc;
    inversion Hbc; subst; constructor; [rewrite Hxy; assumption|apply IH; assumption].
Qed.

Lemma Qnat_succ (n : nat) : Qnat (S n) == 1 + Qnat n.
Proof. unfold Qnat. rewrite Znat.Nat2Z.inj_succ, <- Z.add_1_l, inject_Z_plus. reflexivity. Qed.

Lemma sum_indicator (f : nat -> bool) (a : Q) (l : list nat) :
  fold_right Qplus 0 (map (fun j => if f j then a else 0) l) ==
  Qnat (length (filter f l)) * a.
Proof.
  induction l as [|j l IH]; simpl; [reflexivity|].
  rewrite IH. destruct (f j); simpl; [rewrite Qnat_succ; ring|ring].
Qed.

Lemma count_occ_index (l : list nat) (x : nat) :
  count_occ Nat.eq_dec l x =
  length (filter (fun j => (nth j l O =? x)%nat) (seq 0 (length l))).
Proof.
  induction l as [|a l IH]; [reflexivity|].
  cbn [length seq]. rewrite <- seq_shift. cbn [filter nth].
  destruct (Nat.eq_dec a x) as [->|Hne].
  - rewrite count_occ_cons_eq by reflexivity. rewrite Nat.eqb_refl. cbn [length].
    rewrite filter_map_swap, length_map. rewrite IH. reflexivity.
  - rewrite count_occ_cons_neq by exact Hne.
    replace (a =? x)%nat with false by (symmetry; apply Nat.eqb_neq, Hne).
    rewrite filter_map_swap, length_map. exact IH.
Qed.

(** The round trip [P_inv.dot(P.dot(v))] of a vector [v] that is constant
    on each cluster multiplies each entry by the size of its cluster. *)
Theorem pp_inv_round_trip_scales (clust : list nat) (P P_inv : list (list Q)) (v : list Q)
    (H : pp_inv clust = Some (P, P_inv)) (Hv : length v = length clust)
    (Hconst : forall j k, (j < length clust)%nat -> (k < length clust)%nat ->
              nth j clust O = nth k clust O -> nth j v 0 == nth k v 0) :
  Forall2 Qeq (matvec P_inv (matvec P v))
    (map (fun i => Qnat (count_occ Nat.eq_dec clust (nth i clust O)) * nth i v 0)
         (seq 0 (length clust))).
Proof.
  destruct (pp_inv_spec clust P P_inv H) as (Hc & _ & HlP & _).
  rewrite Forall_forall in Hc.
  eapply Forall2_Qeq_trans.
  { apply (pp_inv_broadcast clust P P_inv); [exact H|rewrite length_matvec; exact HlP]. }
  pose proof (pp_inv_P_sums clust P P_inv v H Hv) as HS.
  apply Forall2_nth_intro with (d := 0) (d' := 0).
  { rewrite !length_map, length_seq. reflexivity. }
  intros i Hi. rewrite length_map in Hi.
  rewrite nth_map_lt with (d' := O) by exact Hi.
  rewrite nth_map_lt with (d' := O) by (rewrite length_seq; exact Hi).
  rewrite seq_nth by exact Hi. cbn [Nat.add].
  assert (Hci : (nth i clust O < n_unique clust)%nat) by (apply Hc, nth_In, Hi).
  rewrite (Forall2_Qeq_nth _ _ (nth i clust O) HS).
  rewrite nth_map_lt with (d' := O) by (rewrite length_seq; exact Hci).
  rewrite seq_nth by exact Hci. cbn [Nat.add].
  rewrite (sum_map_compat _ (fun j => if (nth j clust O =? nth i clust O)%nat
                                      then nth i v 0 else 0)).
  2:{ intros j Hj. apply in_seq in Hj.
      destruct (Nat.eqb_spec (nth j clust O) (nth i clust O)) as [E|_]; [|reflexivity].
      apply Hconst; [lia|exact Hi|exact E]. }
  rewrite sum_indicator, count_occ_index. reflexivity.
Qed.

Lemma pp_inv_round_trip_scales_witness :
  pp_inv [1; O; 1]%nat = Some ([[0; 1; 0]; [1; 0; 1]], [[0; 1]; [1; 0]; [0; 1]]) /\
  length [2; 3; 2] = length [1; O; 1]%nat /\
  (forall j k, (j < length [1; O; 1]%nat)%nat -> (k < length [1; O; 1]%nat)%nat ->
     nth j [1; O; 1]%nat O = nth k [1; O; 1]%nat O -> nth j [2; 3; 2] 0 == nth k [2; 3; 2] 0) /\
  Forall2 Qeq (matvec [[0; 1]; [1; 0]; [0; 1]] (matvec [[0; 1; 0]; [1; 0; 1]] [2; 3; 2]))
    (map (fun i => Qnat (count_occ Nat.eq_dec [1; O; 1]%nat (nth i [1; O; 1]%nat O)) *
                   nth i [2; 3; 2] 0)
         (seq 0 (length [1; O; 1]%nat))).
Proof.
  assert (H : pp_inv [1; O; 1]%nat
              = Some ([[0; 1; 0]; [1; 0; 1]], [[0; 1]; [1; 0]; [0; 1]]))
    by (vm_compute; reflexivity).
  assert (Hc : forall j k, (j < length [1; O; 1]%nat)%nat -> (k < length [1; O; 1]%nat)%nat ->
     nth j [1; O; 1]%nat O = nth k [1; O; 1]%nat O -> nth j [2; 3; 2] 0 == nth k [2; 3; 2] 0).
  { intros [|[|[|j]]] [|[|[|k]]] Hj Hk E; cbn in Hj, Hk, E |- *;
      try lia; try discriminate; reflexivity. }
  split; [exact H|]. split; [reflexivity|]. split; [exact Hc|].
  apply (pp_inv_round_trip_scales [1; O; 1]%nat); [exact H|reflexivity|exact Hc].
Defined.

Lemma dot_onehot_zero (a k : nat) : forall s u, (a < s)%nat ->
  dot (map (fun c => if (a =? c)%nat then 1 else 0) (seq s k)) u == 0.
Proof.
  induction k as [|k IH]; intros s u Has; [reflexivity|].
  destruct u as [|y u]; [reflexivity|].
  cbn [seq map]. unfold dot. cbn [zip_with fold_right]. fold (dot (map (fun c => if (a =? c)%nat then 1 else 0) (seq (S s) k)) u).
  rewrite IH by lia. replace (a =? s)%nat with false by (symmetry; apply Nat.eqb_neq; lia).
  ring.
Qed.

Lemma dot_onehot_cases (a k : nat) : forall s u,
  dot (map (fun c => if (a =? c)%nat then 1 else 0) (seq s k)) u == 0 \/
  exists y, In y u /\ dot (map (fun c => if (a =? c)%nat then 1 else 0) (seq s k)) u == y.
Proof.
  induction k as [|k IH]; intros s u; [left; reflexivity|].
  destruct u as [|y u]; [left; reflexivity|].
  cbn [seq map]. unfold dot. cbn [zip_with fold_right].
  fold (dot (map (fun c => if (a =? c)%nat then 1 else 0) (seq (S s) k)) u).
  destruct (Nat.eqb_spec a s) as [->|Hne].
  - right. exists y. split; [left; reflexivity|].
    rewrite dot_onehot_zero by lia. ring.
  - destruct (IH (S s) u) as [H0|[y' [Hy' Hd]]].
    + left. rewrite H0. ring.
    + right. exists y'. split; [right; exact Hy'|]. rewrite Hd. ring.
Qed.

Lemma mask_assign_Forall (R : Q -> Prop) (m : list bool) : forall vals l,
  Forall R vals -> Forall R l -> Forall R (mask_assign m vals l).
Proof.
  induction m as [|b m IH]; intros vals l Hv Hl; destruct l as [|x l]; cbn; auto.
  inversion Hl as [|? ? Hx Hl']; subst. destruct b.
  - destruct vals as [|v vals]; constructor.
    + exact Hx.
    + apply IH; [constructor|exact Hl'].
    + inversion Hv; assumption.
    + inversion Hv; apply IH; assumption.
  - constructor; [exact Hx|apply IH; assumption].
Qed.

(** The entries of [P_inv.dot(u)] are entries of [u] or [0]. *)
Lemma pp_inv_matvec_Forall (R : Q -> Prop) (clust : list nat) P P_inv (u : list Q) :
  (forall x y, x == y -> R y -> R x) -> R 0 ->
  pp_inv clust = Some (P, P_inv) -> Forall R u -> Forall R (matvec P_inv u).
Proof.
  intros Hcomp H0 Hp Hu.
  destruct (pp_inv_spec clust P P_inv Hp) as (_ & HPi & _).
  rewrite HPi. unfold matvec. rewrite map_map. apply Forall_forall.
  intros x Hx. apply in_map_iff in Hx. destruct Hx as [i [<- _]].
  destruct (dot_onehot_cases (nth i clust O) (n_unique clust) 0 u) as [E|[y [Hy E]]].
  - eapply Hcomp; [exact E|exact H0].
  - eapply Hcomp; [exact E|]. rewrite Forall_forall in Hu. apply Hu, Hy.
Qed.

Lemma map_opt_Forall {A B} (f : A -> option B) (R : B -> Prop) (l : list A) (r : list B) :
  map_opt f l = Some r -> (forall x y, In x l -> f x = Some y -> R y) -> Forall R r.
Proof.
  revert r. induction l as [|x l IH]; intros r H Hf; cbn in H.
  - injection H as <-. constructor.
  - destruct (f x) eqn:Ex; [|discriminate].
    destruct (map_opt f l) eqn:El; [|discriminate]. injection H as <-.
    constructor; [apply (Hf x); [left; reflexivity|exact Ex]|].
    apply IH; [reflexivity|]. intros x' y' Hx'. apply Hf. right. exact Hx'.
Qed.

Lemma Qnonneg_div (a c : Q) : 0 <= a -> 0 <= c -> 0 <= a / c.
Proof.
  intros Ha Hc. unfold Qdiv. apply Qmult_le_0_compat; [exact Ha|].
  apply Qinv_le_0_compat, Hc.
Qed.

Lemma Forall_repeat {A} (R : A -> Prop) (x : A) (n : nat) : R x -> Forall R (repeat x n).
Proof. intro H. induction n; constructor; assumption. Qed.

Lemma pval_split_range (ols : list Q -> list (list Q) -> option (list Q))
    X y n_clusters b s c r :
  pval_split ols X y n_clusters b s c = Some r -> Forall (fun v => 0 <= v <= 1) r.
Proof.
  unfold pval_split. destruct (pp_inv c) as [[P P_inv]|] eqn:Hp; [|discriminate].
  destruct (ols_input X y b s P) as [y_test X_model].
  destruct (ols y_test X_model) as [res|]; [|discriminate]. intro H. injection H as <-.
  apply (pp_inv_matvec_Forall _ c P); [|split; [apply Qle_refl|discriminate]|exact Hp|].
  { intros x x' E [H1 H2]. rewrite E. split; assumption. }
  apply mask_assign_Forall.
  - apply Forall_forall. intros x Hx. apply in_map_iff in Hx. destruct Hx as [v [<- _]].
    apply clip01_range.
  - apply Forall_repeat. split; discriminate.
Qed.

Lemma scores_split_nonneg (ols : list Q -> list (list Q) -> option (list Q))
    (Hols : forall y X r, ols y X = Some r -> Forall (fun v => 0 <= v) r)
    X y n_clusters b s c r :
  scores_split ols X y n_clusters b s c = Some r -> Forall (fun v => 0 <= v) r.
Proof.
  unfold scores_split. destruct (pp_inv c) as [[P P_inv]|] eqn:Hp; [|discriminate].
  destruct (ols_input X y b s P) as [y_test X_model].
  destruct (ols y_test X_model) as [res|] eqn:Ho; [|discriminate]. intro H. injection H as <-.
  apply (pp_inv_matvec_Forall _ c P); [|apply Qle_refl|exact Hp|].
  { intros x x' E H1. rewrite E. exact H1. }
  apply mask_assign_Forall.
  - apply Forall_forall. intros x Hx. apply in_map_iff in Hx. destruct Hx as [v [<- Hv]].
    apply Qmult_le_0_compat; [apply Qnat_nonneg|].
    pose proof (Hols _ _ _ Ho) as Hr. rewrite Forall_forall in Hr. apply Hr, Hv.
  - apply Forall_repeat. apply Qnat_nonneg.
Qed.

(** ** Multivariate inference *)

(** As long as the OLS refits report p-values that are numbers (not NaN),
    every p-value [multivariate_split_pval] returns, per split and
    aggregated, lies in [[0, 1]]: the fitted ones are clipped, the others
    are [1], and the aggregation clips. *)
Theorem multivariate_split_pval_range (np_log : Q -> Q)
    (ols : list Q -> list (list Q) -> option (list Q))
    (X : list (list Q)) (y : list Q) (n_split : nat) (size_split : Q)
    (n_clusters : nat) (beta_array : list (list Q))
    (split_array clust_array : list (list nat)) (pvalues : list (list Q)) (agg : list Q)
    (H : multivariate_split_pval np_log ols X y n_split size_split n_clusters
           beta_array split_array clust_array = Some (pvalues, agg)) :
  Forall (Forall (fun v => 0 <= v <= 1)) pvalues /\ Forall (fun v => 0 <= v <= 1) agg.
Proof.
  unfold multivariate_split_pval in H.
  destruct (map_opt _ (seq 0 n_split)) as [rows|] eqn:Em; [|discriminate].
  assert (Hrows : Forall (Forall (fun v => 0 <= v <= 1)) rows).
  { apply (map_opt_Forall _ _ _ _ Em). intros i r _ Hi.
    destruct (split_data beta_array split_array clust_array i) as [[[b s] c]|] eqn:Ed;
      [|discriminate].
    exact (pval_split_range ols X y n_clusters b s c r Hi). }
  destruct (1 <? n_split)%nat.
  - destruct (pvalues_aggregation np_log (1 # 20) rows) as [a|] eqn:Ea; [|discriminate].
    injection H as <- <-. split; [exact Hrows|].
    unfold pvalues_aggregation in Ea. destruct (_ <=? _)%nat; [discriminate|].
    injection Ea as <-. apply Forall_forall. intros x Hx.
    apply in_map_iff in Hx. destruct Hx as [j [<- _]]. apply clip01_range.
  - destruct rows as [|r rows]; [discriminate|]. injection H as <- <-.
    split; [exact Hrows|]. inversion Hrows; assumption.
Qed.

(** Witness of [multivariate_split_pval_range]: four samples, two splits
    each holding one sample out of three, and an OLS stand-in. *)
Lemma multivariate_split_pval_range_witness :
  exists pvalues agg,
    multivariate_split_pval ln_approx (ols_const (1 # 100))
      [[1; 0]; [0; 1]; [1; 1]; [2; 1]] [1; 2; 3; 4] 2 2 2 [[1; 1]; [1; 0]]
      [[O]; [1%nat]] [[O; 1%nat]; [O; 1%nat]] = Some (pvalues, agg) /\
    Forall (Forall (fun v => 0 <= v <= 1)) pvalues /\ Forall (fun v => 0 <= v <= 1) agg.
Proof.
  destruct (multivariate_split_pval ln_approx (ols_const (1 # 100))
      [[1; 0]; [0; 1]; [1; 1]; [2; 1]] [1; 2; 3; 4] 2 2 2 [[1; 1]; [1; 0]]
      [[O]; [1%nat]] [[O; 1%nat]; [O; 1%nat]]) as [[pvalues agg]|] eqn:E.
  - exists pvalues, agg. split; [reflexivity|].
    exact (multivariate_split_pval_range _ _ _ _ _ _ _ _ _ _ pvalues agg E).
  - vm_compute in E. discriminate E.
Defined.

Lemma zip_with_div_nonneg (a gs : list Q) :
  Forall (fun v => 0 <= v) a -> Forall (fun g => 0 <= g) gs ->
  Forall (fun v => 0 <= v) (zip_with Qdiv a gs).
Proof.
  revert gs. induction a as [|x a IH]; intros [|g gs] Ha Hg; cbn; try constructor.
  - inversion Ha; inversion Hg; apply Qnonneg_div; assumption.
  - inversion Ha; inversion Hg; apply IH; assumption.
Qed.

Lemma Forall_skipn' {A} (R : A -> Prop) (k : nat) (l : list A) :
  Forall R l -> Forall R (skipn k l).
Proof.
  revert l. induction k as [|k IH]; intros l H; [exact H|].
  destruct l as [|x l]; [constructor|]. inversion H; subst. apply IH. assumption.
Qed.

Lemma sorted_quotients_nonneg gamma_min (M : list (list Q)) j :
  Forall (Forall (fun v => 0 <= v)) M ->
  Forall (fun v => 0 <= v) (sorted_quotients gamma_min M j).
Proof.
  intro HM. unfold sorted_quotients.
  apply zip_with_div_nonneg; [|apply gamma_array_nonneg].
  apply Forall_skipn'. apply (Permutation_Forall (np_sort_perm _)).
  unfold column. apply Forall_map. apply Forall_forall. intros row Hrow.
  rewrite Forall_forall in HM. specialize (HM row Hrow). rewrite Forall_forall in HM.
  destruct (Nat.lt_ge_cases j (length row)) as [Hj|Hj].
  - apply HM, nth_In, Hj.
  - rewrite nth_overflow by exact Hj. apply Qle_refl.
Qed.

Lemma nth_Forall_nonneg (l : list Q) (j : nat) :
  Forall (fun v => 0 <= v) l -> 0 <= nth j l 0.
Proof.
  intro H. destruct (Nat.lt_ge_cases j (length l)) as [Hj|Hj].
  - rewrite Forall_forall in H. apply H, nth_In, Hj.
  - rewrite nth_overflow by exact Hj. apply Qle_refl.
Qed.

(** If the OLS fits report nonnegative p-values, every score
    [multivariate_split_scores] returns, per split and aggregated, is
    nonnegative. *)
Theorem multivariate_split_scores_nonneg
    (ols : list Q -> list (list Q) -> option (list Q))
    (Hols : forall y X r, ols y X = Some r -> Forall (fun v => 0 <= v) r)
    (X : list (list Q)) (y : list Q) (n_split : nat) (size_split : Q)
    (n_clusters : nat) (beta_array : list (list Q))
    (split_array clust_array : list (list nat)) (scores : list (list Q)) (agg : list Q)
    (H : multivariate_split_scores ols X y n_split size_split n_clusters
           beta_array split_array clust_array = Some (scores, agg)) :
  Forall (Forall (fun v => 0 <= v)) scores /\ Forall (fun v => 0 <= v) agg.
Proof.
  unfold multivariate_split_scores in H.
  destruct (map_opt _ (seq 0 n_split)) as [rows|] eqn:Em; [|discriminate].
  assert (Hrows : Forall (Forall (fun v => 0 <= v)) rows).
  { apply (map_opt_Forall _ _ _ _ Em). intros i r _ Hi.
    destruct (split_data beta_array split_array clust_array i) as [[[b s] c]|] eqn:Ed;
      [|discriminate].
    exact (scores_split_nonneg ols Hols X y n_clusters b s c r Hi). }
  destruct (1 <? n_split)%nat.
  - destruct (scores_aggregation (1 # 20) rows) as [a|] eqn:Ea; [|discriminate].
    injection H as <- <-. split; [exact Hrows|].
    unfold scores_aggregation in Ea. destruct (_ <=? _)%nat; [discriminate|].
    injection Ea as <-. apply Forall_forall. intros x Hx.
    apply in_map_iff in Hx. destruct Hx as [j [<- _]].
    apply nth_Forall_nonneg, sorted_quotients_nonneg, Hrows.
  - destruct rows as [|r rows]; [discriminate|]. injection H as <- <-.
    split; [exact Hrows|]. inversion Hrows; assumption.
Qed.

Lemma ols_const_nonneg (v : Q) :
  0 <= v -> forall y X r, ols_const v y X = Some r -> Forall (fun w => 0 <= w) r.
Proof.
  intros Hv y X r H. unfold ols_const in H. injection H as <-.
  apply Forall_repeat. exact Hv.
Qed.

Lemma multivariate_split_scores_nonneg_witness :
  (forall y X r, (ols_const (1 # 100)) y X = Some r -> Forall (fun v => 0 <= v) r) /\
  multivariate_split_scores (ols_const (1 # 100))
      [[1; 0]; [0; 1]; [1; 1]; [2; 1]] [1; 2; 3; 4] 2 2 2 [[1; 1]; [1; 0]]
      [[O]; [1%nat]] [[O; 1%nat]; [O; 1%nat]]
    = Some ([[200 # 10000; 200 # 10000]; [1 # 100; 200 # 100]], [400 # 20000; 400 # 200]) /\
  Forall (Forall (fun v => 0 <= v)) [[200 # 10000; 200 # 10000]; [1 # 100; 200 # 100]] /\
  Forall (fun v => 0 <= v) [400 # 20000; 400 # 200].
Proof.
  assert (E : multivariate_split_scores (ols_const (1 # 100))
      [[1; 0]; [0; 1]; [1; 1]; [2; 1]] [1; 2; 3; 4] 2 2 2 [[1; 1]; [1; 0]]
      [[O]; [1%nat]] [[O; 1%nat]; [O; 1%nat]]
    = Some ([[200 # 10000; 200 # 10000]; [1 # 100; 200 # 100]], [400 # 20000; 400 # 200]))
    by (vm_compute; reflexivity).
  split; [exact (ols_const_nonneg (1 # 100) ltac:(discriminate))|]. split; [exact E|].
  exact (multivariate_split_scores_nonneg (ols_const (1 # 100))
           (ols_const_nonneg (1 # 100) ltac:(discriminate))
           _ _ _ _ _ _ _ _ _ _ E).
Defined.

Lemma map_opt_ext_in {A B} (f g : A -> option B) (l : list A) :
  (forall x, In x l -> f x = g x) -> map_opt f l = map_opt g l.
Proof.
  induction l as [|x l IH]; intro H; cbn; [reflexivity|].
  rewrite (H x (or_introl eq_refl)), IH; [reflexivity|].
  intros y Hy. apply H. right. exact Hy.
Qed.

Lemma map_opt_some_each {A B} (f : A -> option B) (l : list A) (r : list B) :
  map_opt f l = Some r -> forall x, In x l -> exists y, f x = Some y.
Proof.
  revert r. induction l as [|a l IH]; intros r H x Hx; [destruct Hx|].
  cbn in H. destruct (f a) as [b|] eqn:Ea; [|discriminate].
  destruct (map_opt f l) as [r'|] eqn:El; [|discriminate].
  destruct Hx as [<-|Hx]; [exists b; exact Ea|]. exact (IH r' eq_refl x Hx).
Qed.

Lemma split_mask_checked_some (n : nat) (idx : list nat) :
  Forall (fun i => i < n)%nat idx -> exists m, split_mask_checked n idx = Some m.
Proof.
  intro H. unfold split_mask_checked.
  replace (forallb _ idx) with true; [eexists; reflexivity|].
  symmetry. apply forallb_forall. intros i Hi. rewrite Forall_forall in H.
  apply Nat.ltb_lt, H, Hi.
Qed.

Lemma univariate_pval_split_ignores_split pearsonr_pvalue X y s s' c :
  Forall (fun i => i < length X)%nat s -> Forall (fun i => i < length X)%nat s' ->
  univariate_pval_split pearsonr_pvalue X y s c =
  univariate_pval_split pearsonr_pvalue X y s' c.
Proof.
  intros Hs Hs'. unfold univariate_pval_split.
  destruct (split_mask_checked_some _ _ Hs) as [m Hm].
  destruct (split_mask_checked_some _ _ Hs') as [m' Hm'].
  rewrite Hm, Hm'. reflexivity.
Qed.

(** ** Univariate inference *)

(** With [permute=False], [univariate_split_pval] does not depend on the
    samples the splits hold out: [y_test] and [X_test] are computed but the
    p-values are those of the full [y] against [P.dot(X.T).T], so any two
    split arrays whose indices are in range give the same result.  Neither
    does it read [beta_array], [size_split] or [n_clusters]. *)
Theorem univariate_split_pval_ignores_split (np_log : Q -> Q)
    (pearsonr_pvalue : list Q -> list Q -> option Q)
    (X : list (list Q)) (y : list Q) (n_split : nat) (size_split size_split' : Q)
    (n_clusters n_clusters' : nat) (beta_array beta_array' : list (list Q))
    (split_array split_array' clust_array : list (list nat))
    (Hsplit : forall i, (i < n_split)%nat ->
       exists s s', nth_error split_array i = Some s /\ nth_error split_array' i = Some s' /\
         Forall (fun j => j < length X)%nat s /\ Forall (fun j => j < length X)%nat s') :
  univariate_split_pval np_log pearsonr_pvalue X y n_split size_split n_clusters
    beta_array split_array clust_array =
  univariate_split_pval np_log pearsonr_pvalue X y n_split size_split' n_clusters'
    beta_array' split_array' clust_array.
Proof.
  unfold univariate_split_pval.
  erewrite map_opt_ext_in; [reflexivity|].
  intros i Hi. apply in_seq in Hi.
  destruct (Hsplit i ltac:(lia)) as (s & s' & Hs & Hs' & Fs & Fs').
  rewrite Hs, Hs'. destruct (nth_error clust_array i); [|reflexivity].
  apply univariate_pval_split_ignores_split; assumption.
Qed.

Lemma univariate_split_pval_ignores_split_witness :
  (forall i, (i < 1)%nat ->
     exists s s', nth_error [[O]] i = Some s /\ nth_error [[2%nat]] i = Some s' /\
       Forall (fun j => j < 3)%nat s /\
       Forall (fun j => j < 3)%nat s') /\
  univariate_split_pval ln_approx (fun _ _ => Some (1 # 2)) [[1; 0]; [0; 1]; [1; 1]]
    [1; 2; 3] 1 2 2 [[1; 1]] [[O]] [[O; 1%nat]] =
  univariate_split_pval ln_approx (fun _ _ => Some (1 # 2)) [[1; 0]; [0; 1]; [1; 1]]
    [1; 2; 3] 1 1 1 [[0; 1]] [[2%nat]] [[O; 1%nat]].
Proof.
  assert (H : forall i, (i < 1)%nat ->
     exists s s', nth_error [[O]] i = Some s /\ nth_error [[2%nat]] i = Some s' /\
       Forall (fun j => j < 3)%nat s /\
       Forall (fun j => j < 3)%nat s').
  { intros [|i] Hi; [|lia]. exists [O], [2%nat]. cbn.
    repeat split; repeat constructor; lia. }
  split; [exact H|].
  exact (univariate_split_pval_ignores_split ln_approx _ [[1; 0]; [0; 1]; [1; 1]]
           _ _ _ _ _ _ _ _ _ _ _ H).
Defined.

(** For [n_clusters >= 0], [univariate_split_scores] succeeds only if the
    clustering of every split has exactly [n_clusters] labels: otherwise
    [corr_true.reshape((n_clusters))] raises. *)
Theorem univariate_split_scores_cluster_count (np_log : Q -> Q)
    (pearsonr_pvalue : list Q -> list Q -> option Q)
    (X : list (list Q)) (y : list Q) (n_split : nat) (size_split : Q)
    (n_clusters : Z) (Hnc : (0 <= n_clusters)%Z) (beta_array : list (list Q))
    (split_array clust_array : list (list nat)) (scores : list (list Q)) (agg : list Q)
    (H : univariate_split_scores np_log pearsonr_pvalue X y n_split size_split n_clusters
           beta_array split_array clust_array = Some (scores, agg)) :
  forall i, (i < n_split)%nat ->
    exists c, nth_error clust_array i = Some c /\ Z.of_nat (n_unique c) = n_clusters.
Proof.
  intros i Hi. unfold univariate_split_scores in H.
  destruct (map_opt _ (seq 0 n_split)) as [rows|] eqn:Em; [|discriminate].
  destruct (map_opt_some_each _ _ _ Em i) as [r Hr]; [apply in_seq; lia|].
  destruct (nth_error split_array i) as [s|]; [|discriminate].
  destruct (nth_error clust_array i) as [c|]; [|discriminate].
  exists c. split; [reflexivity|].
  unfold univariate_scores_split in Hr.
  destruct (split_mask_checked _ s); [|discriminate].
  destruct (pp_inv c) as [[P P_inv]|]; [|discriminate].
  destruct (Z.eqb_spec n_clusters (-1)) as [E1|E1]; [lia|].
  destruct (Z.eqb_spec (Z.of_nat (n_unique c)) n_clusters) as [E|E]; [exact E|].
  cbn in Hr. discriminate.
Qed.

Lemma univariate_split_scores_cluster_count_witness :
  (0 <= 2)%Z /\
  exists scores agg,
    univariate_split_scores ln_approx (fun _ _ => Some (1 # 2))
      [[1; 0]; [0; 1]; [1; 1]] [1; 2; 3] 1 1 2 [[1; 1]] [[O]] [[O; 1%nat]]
      = Some (scores, agg) /\
    (forall i, (i < 1)%nat ->
       exists c, nth_error [[O; 1%nat]] i = Some c /\ Z.of_nat (n_unique c) = 2%Z).
Proof.
  assert (Hnc : (0 <= 2)%Z) by lia.
  split; [exact Hnc|].
  destruct (univariate_split_scores ln_approx (fun _ _ => Some (1 # 2))
      [[1; 0]; [0; 1]; [1; 1]] [1; 2; 3] 1 1 2 [[1; 1]] [[O]] [[O; 1%nat]])
    as [[scores agg]|] eqn:E.
  - exists scores, agg. split; [reflexivity|].
    exact (univariate_split_scores_cluster_count _ _ _ _ _ _ _ Hnc _ _ _ scores agg E).
  - vm_compute in E. discriminate E.
Defined.

(** With [permute=False], and as long as [pearsonr] reports p-values that
    are numbers (not NaN: no constant cluster column, no constant [y]),
    every p-value [univariate_split_pval] returns, per split and
    aggregated, lies in [[0, 1]]: the rows are clipped after the
    multiplication by [len(pvalues_proj)], and the aggregation clips. *)
Theorem univariate_split_pval_range (np_log : Q -> Q)
    (pearsonr_pvalue : list Q -> list Q -> option Q)
    (X : list (list Q)) (y : list Q) (n_split : nat) (size_split : Q)
    (n_clusters : nat) (beta_array : list (list Q))
    (split_array clust_array : list (list nat)) (pvalues : list (list Q)) (agg : list Q)
    (H : univariate_split_pval np_log pearsonr_pvalue X y n_split size_split n_clusters
           beta_array split_array clust_array = Some (pvalues, agg)) :
  Forall (Forall (fun v => 0 <= v <= 1)) pvalues /\ Forall (fun v => 0 <= v <= 1) agg.
Proof.
  unfold univariate_split_pval in H.
  destruct (map_opt _ (seq 0 n_split)) as [res|]; [|discriminate].
  destruct (rev res) as [|[r k] rest]; [discriminate|].
  set (rows := map (fun r => map (fun v => clip01 (v * Qnat k)) (fst r)) res) in H.
  assert (Hrows : Forall (Forall (fun v => 0 <= v <= 1)) rows).
  { unfold rows. apply Forall_forall. intros row Hrow.
    apply in_map_iff in Hrow. destruct Hrow as [r' [<- _]].
    apply Forall_forall. intros x Hx. apply in_map_iff in Hx.
    destruct Hx as [v [<- _]]. apply clip01_range. }
  destruct (1 <? n_split)%nat.
  - destruct (pvalues_aggregation np_log (1 # 20) rows) as [a|] eqn:Ea; [|discriminate].
    injection H as <- <-. split; [exact Hrows|].
    unfold pvalues_aggregation in Ea. destruct (_ <=? _)%nat; [discriminate|].
    injection Ea as <-. apply Forall_forall. intros x Hx.
    apply in_map_iff in Hx. destruct Hx as [j [<- _]]. apply clip01_range.
  - destruct rows as [|r0 rows']; [discriminate|]. injection H as <- <-.
    split; [exact Hrows|]. inversion Hrows; assumption.
Qed.

Lemma univariate_split_pval_range_witness :
  exists pvalues agg,
    univariate_split_pval ln_approx (fun _ _ => Some (1 # 2))
      [[1; 0]; [0; 1]; [1; 1]] [1; 2; 3] 2 1 2 [[1; 1]; [1; 1]] [[O]; [1%nat]]
      [[O; 1%nat]; [1%nat; O]] = Some (pvalues, agg) /\
    Forall (Forall (fun v => 0 <= v <= 1)) pvalues /\ Forall (fun v => 0 <= v <= 1) agg.
Proof.
  destruct (univariate_split_pval ln_approx (fun _ _ => Some (1 # 2))
      [[1; 0]; [0; 1]; [1; 1]] [1; 2; 3] 2 1 2 [[1; 1]; [1; 1]] [[O]; [1%nat]]
      [[O; 1%nat]; [1%nat; O]]) as [[pvalues agg]|] eqn:E.
  - exists pvalues, agg. split; [reflexivity|].
    exact (univariate_split_pval_range _ _ _ _ _ _ _ _ _ _ pvalues agg E).
  - vm_compute in E. discriminate E.
Defined.

(** With [n_split = 0] all four inference functions raise: the
    multivariate ones and [univariate_split_scores] read row [0] of an
    empty array, [univariate_split_pval] reads [pvalues_proj], never
    bound. *)
Theorem split_functions_no_split (np_log : Q -> Q)
    (ols : list Q -> list (list Q) -> option (list Q))
    (pearsonr_pvalue : list Q -> list Q -> option Q)
    (X : list (list Q)) (y : list Q) (size_split : Q) (n_clusters : nat)
    (n_clusters' : Z)
    (beta_array : list (list Q)) (split_array clust_array : list (list nat)) :
  multivariate_split_pval np_log ols X y 0 size_split n_clusters
    beta_array split_array clust_array = None /\
  multivariate_split_scores ols X y 0 size_split n_clusters
    beta_array split_array clust_array = None /\
  univariate_split_pval np_log pearsonr_pvalue X y 0 size_split n_clusters
    beta_array split_array clust_array = None /\
  univariate_split_scores np_log pearsonr_pvalue X y 0 size_split n_clusters'
    beta_array split_array clust_array = None.
Proof. repeat split. Qed.

Lemma store_row_length {A} w (v r : list A) : store_row w v = Some r -> length r = w.
Proof.
  unfold store_row. destruct (Nat.eqb_spec (length v) w) as [E|_].
  - intro H. injection H as <-. exact E.
  - destruct v as [|x [|y v]]; try discriminate. intro H. injection H as <-.
    apply repeat_length.
Qed.

Section FitShapes.

Variable standardize : list (list Q) -> option (list (list Q) * list Q).
Variable agglomerate : list (list Q) -> Z -> option (list nat).
Variable lasso : Q -> list (list Q) -> list Q -> option (list Q).

Lemma fit_split_shapes X y n p m m' b s c :
  fit_split agglomerate lasso X y n p m = (m', Some (b, s, c)) ->
  exists nc, n_clusters_ (attrs m) = Some nc /\
             length b = Z.to_nat nc /\ length c = p.
Proof.
  unfold fit_split, bind, get, lift, modify, ret. cbn.
  destruct (size_split (attrs m)) as [size|]; [|discriminate].
  destruct (n_clusters_ (attrs m)) as [nc|]; [|discriminate].
  split_matches; intro H; try discriminate.
  injection H as _ <- _ <-. exists nc. split; [reflexivity|].
  split; eapply store_row_length; eassumption.
Qed.

Lemma fit_loop_shapes k X y n p m m' rows nc :
  n_clusters_ (attrs m) = Some nc ->
  fit_loop agglomerate lasso k X y n p m = (m', Some rows) ->
  length rows = k /\
  Forall (fun r => length (fst (fst r)) = Z.to_nat nc /\ length (snd r) = p) rows.
Proof.
  revert m m' rows; induction k as [|k IH]; intros m m' rows Hn H.
  - injection H as _ <-. split; constructor.
  - cbn [fit_loop] in H. unfold bind at 1 in H.
    pose proof (fit_split_config agglomerate lasso X y n p m) as Hc.
    destruct (fit_split agglomerate lasso X y n p m) as [m1 [[[b s] c]|]] eqn:E1;
      [|discriminate].
    apply fit_split_shapes in E1 as (nc' & Hn' & Hb & Hcl).
    rewrite Hn in Hn'. injection Hn' as <-.
    unfold fit_config in Hc. simpl in Hc. injection Hc as _ _ _ _ _ _ Hn1.
    rewrite Hn in Hn1.
    unfold bind in H.
    destruct (fit_loop agglomerate lasso k X y n p m1) as [m2 [rs|]] eqn:E2;
      [|discriminate].
    injection H as _ <-. destruct (IH m1 m2 rs Hn1 E2) as [Hl Hf].
    split; [simpl; congruence|constructor; [split; assumption|exact Hf]].
Qed.

End FitShapes.

(** ** [StabilityLasso.fit] *)

(** When [fit] returns, [_beta_array] has [n_split] rows of
    [n_clusters_] entries, [_clust_array] has [n_split] rows of [p]
    labels ([p] the number of columns of the scaled data), and [coef_] is
    [_soln]. *)
Theorem fit_result_shapes
    (standardize : list (list Q) -> option (list (list Q) * list Q))
    (agglomerate : list (list Q) -> Z -> option (list nat))
    (lasso : Q -> list (list Q) -> list Q -> option (list Q))
    (X : list (list Q)) (y : list Q) (m : StabilityLasso)
    (Xs : list (list Q)) (mu : list Q)
    (HX : standardize X = Some (Xs, mu))
    (Hok : snd (fit standardize agglomerate lasso X y m) = Some tt) :
  let m' := fst (fit standardize agglomerate lasso X y m) in
  exists B C,
    _beta_array (attrs m') = Some B /\ _clust_array (attrs m') = Some C /\
    length B = n_split m /\ length C = n_split m /\
    Forall (fun b => length b = Z.to_nat (resolve_n_clusters (n_clusters m) (ncols Xs))) B /\
    Forall (fun c => length c = ncols Xs) C /\
    coef_ (attrs m') = _soln (attrs m').
Proof.
  revert Hok. unfold fit, bind, lift, get, modify, ret. cbn.
  destruct (standardize (map _ y)) as [[yt mean_]|]; cbn; [|discriminate].
  rewrite HX. cbn.
  destruct (_ <? 0)%Z; cbn; [discriminate|].
  destruct (py_int _ <? 0)%Z; cbn; [discriminate|].
  match goal with
  | |- context [fit_loop agglomerate lasso ?k ?X ?y ?n ?p ?m] =>
      destruct (fit_loop agglomerate lasso k X y n p m) as [m2 [rows|]] eqn:E
  end; cbn; [|discriminate].
  destruct (_soln (attrs m2)); cbn; [|discriminate].
  intros _. do 2 eexists. split; [reflexivity|]. split; [reflexivity|].
  eapply fit_loop_shapes in E as [Hl Hf]; [|reflexivity].
  rewrite !length_map, Hl. split; [reflexivity|]. split; [reflexivity|].
  rewrite !Forall_map. split; [|split; [|reflexivity]];
    (eapply Forall_impl; [|exact Hf]); intros r [H1 H2]; assumption.
Qed.

(** [np.zeros] raises on a negative dimension: when [n_clusters_] or
    [int(size_split)] is negative, [fit] raises before its first split,
    with the generator untouched and no [split_array] stored. *)
Theorem fit_negative_dimension
    (standardize : list (list Q) -> option (list (list Q) * list Q))
    (agglomerate : list (list Q) -> Z -> option (list nat))
    (lasso : Q -> list (list Q) -> list Q -> option (list Q))
    (X : list (list Q)) (y : list Q) (m : StabilityLasso)
    (yt Xs : list (list Q)) (mean_ mu : list Q)
    (Hy : standardize (map (fun v => [v]) y) = Some (yt, mean_))
    (HX : standardize X = Some (Xs, mu))
    (Hneg : (resolve_n_clusters (n_clusters m) (ncols Xs) < 0)%Z \/
            (py_int (Qnat (length Xs) * ratio_split m) < 0)%Z) :
  snd (fit standardize agglomerate lasso X y m) = None /\
  generator (fst (fit standardize agglomerate lasso X y m)) = generator m /\
  _split_array (attrs (fst (fit standardize agglomerate lasso X y m)))
    = _split_array (attrs m).
Proof.
  unfold fit, bind, lift, get, modify, ret. rewrite Hy. cbn. rewrite HX. cbn.
  destruct (Z.ltb_spec (resolve_n_clusters (n_clusters m) (ncols Xs)) 0) as [_|Hc].
  - cbn. repeat split.
  - destruct Hneg as [Hn|Hn]; [lia|].
    destruct (Z.ltb_spec (py_int (Qnat (length Xs) * ratio_split m)) 0) as [_|Hs]; [|lia].
    cbn. repeat split.
Qed.

Lemma fit_result_shapes_witness :
  scaler_identity [[1; 0]; [0; 1]; [1; 1]] = Some ([[1; 0]; [0; 1]; [1; 1]], [0; 0]) /\
  snd (fit scaler_identity agglomerate_first lasso_zero [[1; 0]; [0; 1]; [1; 1]] [1; 2; 3]
         (StabilityLasso_init 1 2 (2 # 3) NCAuto 1)) = Some tt /\
  let m' := fst (fit scaler_identity agglomerate_first lasso_zero
                   [[1; 0]; [0; 1]; [1; 1]] [1; 2; 3]
                   (StabilityLasso_init 1 2 (2 # 3) NCAuto 1)) in
  exists B C,
    _beta_array (attrs m') = Some B /\ _clust_array (attrs m') = Some C /\
    length B = 2%nat /\ length C = 2%nat /\
    Forall (fun b => length b = Z.to_nat (resolve_n_clusters NCAuto 2)) B /\
    Forall (fun c => length c = 2%nat) C /\
    coef_ (attrs m') = _soln (attrs m').
Proof.
  assert (H1 : scaler_identity [[1; 0]; [0; 1]; [1; 1]]
               = Some ([[1; 0]; [0; 1]; [1; 1]], [0; 0])) by reflexivity.
  assert (H2 : snd (fit scaler_identity agglomerate_first lasso_zero
                      [[1; 0]; [0; 1]; [1; 1]] [1; 2; 3]
                      (StabilityLasso_init 1 2 (2 # 3) NCAuto 1)) = Some tt)
    by (vm_compute; reflexivity).
  split; [exact H1|]. split; [exact H2|].
  exact (fit_result_shapes scaler_identity agglomerate_first lasso_zero _ _
           (StabilityLasso_init 1 2 (2 # 3) NCAuto 1) _ _ H1 H2).
Defined.

Lemma fit_negative_dimension_witness :
  scaler_identity (map (fun v => [v]) [1; 2; 3]) = Some ([[1]; [2]; [3]], [0]) /\
  scaler_identity [[1; 0]; [0; 1]; [1; 1]] = Some ([[1; 0]; [0; 1]; [1; 1]], [0; 0]) /\
  ((resolve_n_clusters (NCInt (-1)) 2 < 0)%Z \/
   (py_int (Qnat 3 * (1 # 2)) < 0)%Z) /\
  let m := StabilityLasso_init 1 2 (1 # 2) (NCInt (-1)) 1 in
  snd (fit scaler_identity agglomerate_first lasso_zero [[1; 0]; [0; 1]; [1; 1]] [1; 2; 3] m)
    = None /\
  generator (fst (fit scaler_identity agglomerate_first lasso_zero
                    [[1; 0]; [0; 1]; [1; 1]] [1; 2; 3] m)) = generator m /\
  _split_array (attrs (fst (fit scaler_identity agglomerate_first lasso_zero
                              [[1; 0]; [0; 1]; [1; 1]] [1; 2; 3] m)))
    = _split_array (attrs m).
Proof.
  assert (H1 : scaler_identity (map (fun v => [v]) [1; 2; 3]) = Some ([[1]; [2]; [3]], [0]))
    by reflexivity.
  assert (H2 : scaler_identity [[1; 0]; [0; 1]; [1; 1]]
               = Some ([[1; 0]; [0; 1]; [1; 1]], [0; 0])) by reflexivity.
  assert (H3 : (resolve_n_clusters (NCInt (-1)) 2 < 0)%Z \/
               (py_int (Qnat 3 * (1 # 2)) < 0)%Z)
    by (left; reflexivity).
  split; [exact H1|]. split; [exact H2|]. split; [exact H3|].
  exact (fit_negative_dimension scaler_identity agglomerate_first lasso_zero _ _
           (StabilityLasso_init 1 2 (1 # 2) (NCInt (-1)) 1) _ _ _ _ H1 H2 H3).
Defined.

(** [projection] returns [X_proj = P.dot(X.T).T]: each sample of [X_proj]
    holds, per cluster of [labels], the sum of that sample's features in the
    cluster (not their mean). *)
Theorem projection_cluster_sums
    (agglomerate : list (list Q) -> Z -> option (list nat))
    (X : list (list Q)) (k : Z) (P_inv X_proj : list (list Q)) (labels : list nat)
    (H : projection agglomerate X k = Some (P_inv, X_proj, labels))
    (HX : Forall (fun row => length row = length labels) X) :
  Forall2 (Forall2 Qeq) X_proj
    (map (fun row =>
            map (fun c => fold_right Qplus 0
                            (map (fun j => if (nth j labels O =? c)%nat
                                           then nth j row 0 else 0)
                                 (seq 0 (length labels))))
                (seq 0 (n_unique labels)))
         X).
Proof.
  unfold projection in H.
  destruct (agglomerate X k) as [lab|]; [|discriminate].
  destruct (pp_inv lab) as [[P Pi]|] eqn:Ep; [|discriminate].
  injection H as <- <- <-.
  destruct (pp_inv_spec lab P Pi Ep) as (_ & _ & HlP & HlR & HP).
  induction HX as [|row X' Hrow HX' IH]; cbn [map]; constructor; [|exact IH].
  apply Forall2_nth_intro with (d := 0) (d' := 0).
  { rewrite length_matvec, length_map, length_seq. exact HlP. }
  intros c Hc. rewrite length_matvec, HlP in Hc.
  rewrite nth_matvec by lia.
  rewrite nth_map_lt with (d' := O) by (rewrite length_seq; exact Hc).
  rewrite seq_nth by exact Hc. cbn [Nat.add].
  rewrite dot_nth by (rewrite HlR by exact Hc; symmetry; exact Hrow).
  rewrite HlR by exact Hc.
  apply sum_map_compat. intros j Hj. apply in_seq in Hj.
  rewrite (HP c j Hc) by lia.
  destruct (nth j lab O =? c)%nat; [apply Qmult_1_l|apply Qmult_0_l].
Qed.

Lemma projection_cluster_sums_witness :
  projection agglomerate_first [[1; 2; 3]; [4; 5; 6]] 2
    = Some ([[1; 0]; [0; 1]; [0; 1]], [[1; 5]; [4; 11]], [O; 1; 1]%nat) /\
  Forall (fun row => length row = length [O; 1; 1]%nat) [[1; 2; 3]; [4; 5; 6]] /\
  Forall2 (Forall2 Qeq) [[1; 5]; [4; 11]]
    (map (fun row =>
            map (fun c => fold_right Qplus 0
                            (map (fun j => if (nth j [O; 1; 1]%nat O =? c)%nat
                                           then nth j row 0 else 0)
                                 (seq 0 (length [O; 1; 1]%nat))))
                (seq 0 (n_unique [O; 1; 1]%nat)))
         [[1; 2; 3]; [4; 5; 6]]).
Proof.
  assert (H : projection agglomerate_first [[1; 2; 3]; [4; 5; 6]] 2
              = Some ([[1; 0]; [0; 1]; [0; 1]], [[1; 5]; [4; 11]], [O; 1; 1]%nat))
    by (vm_compute; reflexivity).
  assert (HX : Forall (fun row => length row = length [O; 1; 1]%nat)
                 [[1; 2; 3]; [4; 5; 6]])
    by (repeat constructor).
  split; [exact H|]. split; [exact HX|].
  exact (projection_cluster_sums agglomerate_first _ _ _ _ _ H HX).
Defined.

(** ** A refit that raises *)

(** The loops of [multivariate_split_pval] and [multivariate_split_scores]
    catch nothing: if the OLS refit of any split [i < n_split] raises, both
    functions raise. *)
Theorem multivariate_split_refit_raises (np_log : Q -> Q)
    (ols : list Q -> list (list Q) -> option (list Q))
    (X : list (list Q)) (y : list Q) (n_split : nat) (size_split : Q)
    (n_clusters : nat) (beta_array : list (list Q))
    (split_array clust_array : list (list nat)) (i : nat)
    (b : list Q) (s c : list nat) (P P_inv : list (list Q))
    (Hi : (i < n_split)%nat)
    (Hd : split_data beta_array split_array clust_array i = Some (b, s, c))
    (Hp : pp_inv c = Some (P, P_inv))
    (Hf : ols (fst (ols_input X y b s P)) (snd (ols_input X y b s P)) = None) :
  multivariate_split_pval np_log ols X y n_split size_split n_clusters
    beta_array split_array clust_array = None /\
  multivariate_split_scores ols X y n_split size_split n_clusters
    beta_array split_array clust_array = None.
Proof.
  assert (Hin : In i (seq 0 n_split)) by (apply in_seq; lia).
  unfold multivariate_split_pval, multivariate_split_scores.
  destruct (ols_input X y b s P) as [y_test X_model] eqn:E. simpl in Hf.
  split; erewrite map_opt_none; try exact Hin; try reflexivity;
    rewrite Hd; unfold pval_split, scores_split; rewrite Hp, E, Hf; reflexivity.
Qed.

Lemma multivariate_split_refit_raises_witness :
  (0 < 2)%nat /\
  split_data [[1; 1]; [1; 0]] [[O; 1%nat]; [O]] [[O; 1%nat]; [O; 1%nat]] 0
    = Some ([1; 1], [O; 1%nat], [O; 1%nat]) /\
  pp_inv [O; 1%nat] = Some ([[1; 0]; [0; 1]], [[1; 0]; [0; 1]]) /\
  ols_raises
    (fst (ols_input [[1; 0]; [0; 1]; [1; 1]] [1; 2; 3] [1; 1] [O; 1%nat] [[1; 0]; [0; 1]]))
    (snd (ols_input [[1; 0]; [0; 1]; [1; 1]] [1; 2; 3] [1; 1] [O; 1%nat] [[1; 0]; [0; 1]]))
    = None /\
  (multivariate_split_pval ln_approx ols_raises
     [[1; 0]; [0; 1]; [1; 1]] [1; 2; 3] 2 2 2 [[1; 1]; [1; 0]]
     [[O; 1%nat]; [O]] [[O; 1%nat]; [O; 1%nat]] = None /\
   multivariate_split_scores ols_raises
     [[1; 0]; [0; 1]; [1; 1]] [1; 2; 3] 2 2 2 [[1; 1]; [1; 0]]
     [[O; 1%nat]; [O]] [[O; 1%nat]; [O; 1%nat]] = None).
Proof.
  assert (H1 : (0 < 2)%nat) by lia.
  assert (H2 : split_data [[1; 1]; [1; 0]] [[O; 1%nat]; [O]] [[O; 1%nat]; [O; 1%nat]] 0
               = Some ([1; 1], [O; 1%nat], [O; 1%nat])) by reflexivity.
  assert (H3 : pp_inv [O; 1%nat] = Some ([[1; 0]; [0; 1]], [[1; 0]; [0; 1]]))
    by (vm_compute; reflexivity).
  assert (H4 : ols_raises
    (fst (ols_input [[1; 0]; [0; 1]; [1; 1]] [1; 2; 3] [1; 1] [O; 1%nat] [[1; 0]; [0; 1]]))
    (snd (ols_input [[1; 0]; [0; 1]; [1; 1]] [1; 2; 3] [1; 1] [O; 1%nat] [[1; 0]; [0; 1]]))
    = None) by reflexivity.
  split; [exact H1|]. split; [exact H2|]. split; [exact H3|]. split; [exact H4|].
  exact (multivariate_split_refit_raises ln_approx ols_raises _ _ 2 2 2 _ _ _
           0 _ _ _ _ _ H1 H2 H3 H4).
Defined.
